(** * Roman-numeral calculator (calc.cpp): shallow embedding and properties

    The development follows the three classes of the program:
    [RomanConverter] (the codec), [Element] (tokens and arithmetic) and
    [ExpressionSolver] (the shunting-yard parser and the postfix evaluator).

    Conventions of the embedding:
    - [int64_t] and [int] values are integers of [Z] kept in range by an
      explicit two's complement wrap ([wrap64], [wrap32]);
    - [std::string] is [string]; [s[i]] is [char_at s i], which is the NUL
      character at [i = size] as in C++;
    - the [std::unordered_map] tables are [gmap]s, read with the defaulting
      [operator[]] (a missing key reads as 0);
    - a [std::vector] used as a stack is a list whose head is [back()];
      the vector [out] is a list in index order;
    - [throw std::logic_error(..)] is the outcome [Throw e]; a division
      that the processor refuses (an [int] divisor of 0, [INT_MIN / -1])
      is the outcome [Trap]: the process is killed and nothing is thrown;
      loops whose termination is not structural take a fuel argument and
      return [OutOfFuel] when it runs out, which the entry points are
      proved never to do. *)

From Stdlib Require Import ZArith Ascii String List Lia Bool.
From stdpp Require Import base gmap strings list.

Local Open Scope string_scope.
Local Open Scope Z_scope.

(** ** Machine integers *)

Definition wrap (bits : Z) (z : Z) : Z :=
  (z + 2 ^ (bits - 1)) mod 2 ^ bits - 2 ^ (bits - 1).

Definition wrap64 : Z -> Z := wrap 64.
Definition wrap32 : Z -> Z := wrap 32.

Definition min_int64 : Z := - 2 ^ 63.
Definition max_int64 : Z := 2 ^ 63 - 1.
Definition min_int32 : Z := - 2 ^ 31.
Definition max_int32 : Z := 2 ^ 31 - 1.

Definition in_int64 (z : Z) : Prop := min_int64 <= z <= max_int64.
Definition in_int32 (z : Z) : Prop := min_int32 <= z <= max_int32.

(** [std::abs] / [abs] on a 64-bit and on a 32-bit signed integer.  At the
    minimum value the C++ result is not defined; the embedding takes the
    two's complement one. *)
Definition abs64 (z : Z) : Z := wrap64 (Z.abs z).
Definition abs32 (z : Z) : Z := wrap32 (Z.abs z).

(** ** Outcomes *)

(** The five [std::logic_error]s the program throws:
    - [BadSymbol p]          "Bad symbol on position p"
    - [UnbalancedBrackets]   "Invalid bracket sequence in expression"
    - [DivisionByZero]       "Division by zero"
    - [Overflow]             "Roman number overflow"
    - [MalformedExpression]  "Invalid expression format" *)
Inductive logic_error : Type :=
  | BadSymbol (position : nat)
  | UnbalancedBrackets
  | DivisionByZero
  | Overflow
  | MalformedExpression.

(** How a call ends: it returns, it throws, the process is killed by the
    processor's divide error, or (in the embedding only) the fuel of a loop
    runs out. *)
Inductive outcome (A : Type) : Type :=
  | Ok (a : A)
  | Throw (e : logic_error)
  | Trap
  | OutOfFuel.

Arguments Ok {A} a.
Arguments Throw {A} e.
Arguments Trap {A}.
Arguments OutOfFuel {A}.

(** Exceptions propagate: the [M] of stdpp's [x ← m; k] notation. *)
#[global] Instance outcome_ret : MRet outcome := fun A a => Ok a.
#[global] Instance outcome_bind : MBind outcome := fun A B k m =>
  match m with
  | Ok a => k a
  | Throw e => Throw e
  | Trap => Trap
  | OutOfFuel => OutOfFuel
  end.

(** ** Strings *)

Definition NUL : ascii := "000"%char.

Fixpoint char_at (s : string) (i : nat) : ascii :=
  match s, i with
  | EmptyString, _ => NUL
  | String c _, O => c
  | String _ s', S i' => char_at s' i'
  end.

Definition size (s : string) : nat := String.length s.

Definition eqc (a b : ascii) : bool := Ascii.eqb a b.

(** ** class RomanConverter *)

Module RomanConverter.

Definition BOUND : Z := 3999.

Definition rule_add : gmap ascii Z :=
  list_to_map
    [ ("I"%char, 1); ("V"%char, 5); ("X"%char, 10); ("L"%char, 50);
      ("C"%char, 100); ("D"%char, 500); ("M"%char, 1000) ].

Definition rule_div : gmap (ascii * ascii) Z :=
  list_to_map
    [ (("I"%char, "V"%char), 3); (("I"%char, "X"%char), 8);
      (("X"%char, "L"%char), 30); (("X"%char, "C"%char), 80);
      (("C"%char, "D"%char), 300); (("C"%char, "M"%char), 800) ].

Definition weight : list (Z * string) :=
  [ (1000, "M"); (900, "CM"); (500, "D"); (400, "CD"); (100, "C");
    (90, "XC"); (50, "L"); (40, "XL"); (10, "X"); (9, "IX"); (5, "V");
    (4, "IV"); (1, "I"); (0, "Z") ].

(** [rule_add[c]] and [rule_div[p]]: [operator[]] of an unordered map
    yields the stored value, or inserts and yields 0 for a missing key.
    The inserted 0 is what a later miss would read anyway, so the tables
    can stay constant. *)
Definition rule_add_at (c : ascii) : Z := default 0 (rule_add !! c).
Definition rule_div_at (p : ascii * ascii) : Z := default 0 (rule_div !! p).

(** The body of [for (char literal : value)] with its two loop variables. *)
Fixpoint to_int64_loop (value : string) (result : Z) (prev_literal : ascii) : Z :=
  match value with
  | EmptyString => result
  | String literal rest =>
      let result' :=
        if negb (eqc prev_literal NUL)
           && (rule_add_at prev_literal <? rule_add_at literal)
        then wrap64 (result + rule_div_at (prev_literal, literal))
        else wrap64 (result + rule_add_at literal) in
      to_int64_loop rest result' literal
  end.

Definition to_int64 (value : string) : Z :=
  if (size value =? 1)%nat && eqc (char_at value 0) "Z"%char then 0
  else to_int64_loop value 0 NUL.

(** The inner [for (auto w : weight)] with its [break]. *)
Fixpoint scan_weight (ws : list (Z * string)) (value : Z) (result : string)
  : Z * string :=
  match ws with
  | [] => (value, result)
  | (w_first, w_second) :: ws' =>
      if value >=? w_first then (wrap64 (value - w_first), result +:+ w_second)
      else scan_weight ws' value result
  end.

(** [while (value > 0)]. *)
Fixpoint to_roman_loop (fuel : nat) (value : Z) (result : string)
  : outcome string :=
  if value >? 0 then
    match fuel with
    | O => OutOfFuel
    | S fuel' =>
        let '(value', result') := scan_weight weight value result in
        to_roman_loop fuel' value' result'
    end
  else Ok result.

Definition to_roman (value : Z) : outcome string :=
  if value =? 0 then Ok "Z"
  else if abs64 value >? BOUND then Throw Overflow
  else
    let result := if value <? 0 then "-" else "" in
    let value := if value <? 0 then abs64 value else value in
    to_roman_loop (Z.to_nat value) value result.

End RomanConverter.

(** ** enum class ElementType, class Element *)

Inductive ElementType : Type := BRACKET | BINARY_OPERATION | VALUE.

#[global] Instance ElementType_eq_dec : EqDecision ElementType.
Proof. solve_decision. Defined.

(** A [char] converted to [int] (plain [char] is signed). *)
Definition code (c : ascii) : Z :=
  let n := Z.of_N (N_of_ascii c) in
  if n <? 128 then n else n - 256.

Record Element : Type := mkElement {
  value_ : Z;
  label_ : ElementType;
  priority_ : Z
}.

#[global] Instance Element_eq_dec : EqDecision Element.
Proof. solve_decision. Defined.

Module Elem.

(** [Element(int64_t value)] *)
Definition of_value (value : Z) : Element :=
  {| value_ := value; label_ := VALUE; priority_ := 3 |}.

(** The [switch] of [Element(int value, ElementType type)].  The source
    leaves [priority_] unset in the [default] case, which no call of the
    program reaches; the embedding puts 0 there. *)
Definition priority_of (value : Z) : Z :=
  if (value =? code "+") || (value =? code "-") then 0
  else if (value =? code "*") || (value =? code "/") then 1
  else if (value =? code "(") || (value =? code ")") then -1
  else 0.

(** [Element(int value, ElementType type)] *)
Definition of_char (value : Z) (type : ElementType) : Element :=
  {| value_ := value; label_ := type; priority_ := priority_of value |}.

Definition label (e : Element) : ElementType := label_ e.
Definition priority (e : Element) : Z := priority_ e.
Definition value (e : Element) : Z := value_ e.

(** The built-in [/] of two [int]s: the quotient truncated toward zero,
    which is [Z.quot].  A divisor 0 and [INT_MIN / -1] have no result: the
    processor raises its divide error and the process is killed. *)
Definition int_div (a b : Z) : outcome Z :=
  if (b =? 0) || ((a =? min_int32) && (b =? -1)) then Trap
  else Ok (wrap32 (a ÷ b)).

(** [int divide(int left, int right)]: every operation is on 32-bit
    [int]. *)
Definition divide (left right : Z) : outcome Z :=
  if ((left <=? 0) && (right <? 0)) || ((left >=? 0) && (right >? 0))
  then int_div left right
  else int_div (wrap32 (- wrap32 (wrap32 (abs32 left + abs32 right) - 1)))
               (abs32 right).

(** [Element* proceed(Element* left, Element* right)]; the call of
    [divide] converts both [int64_t] arguments to [int], after the test of
    the [int64_t] divisor against 0. *)
Definition proceed (self left right : Element) : outcome Element :=
  result ←
    (if value_ self =? code "+" then Ok (wrap64 (value left + value right))
     else if value_ self =? code "-" then Ok (wrap64 (value left - value right))
     else if value_ self =? code "*" then Ok (wrap64 (value left * value right))
     else if value_ self =? code "/" then
       if value right =? 0 then Throw DivisionByZero
       else divide (wrap32 (value left)) (wrap32 (value right))
     else Ok 0);
  Ok (of_value result).

End Elem.

(** The tokens under the names the specification uses. *)
Definition Value (n : Z) : Element := Elem.of_value n.
Definition Operator (op : ascii) : Element := Elem.of_char (code op) BINARY_OPERATION.
Definition Bracket (c : ascii) : Element := Elem.of_char (code c) BRACKET.

(** ** class ExpressionSolver *)

Module ExpressionSolver.

Definition available_symbols : list ascii :=
  [ "I"%char; "V"%char; "X"%char; "L"%char; "C"%char; "D"%char; "M"%char;
    "Z"%char ].

Definition is_roman (c : ascii) : bool := existsb (eqc c) available_symbols.

Definition is_operation (c : ascii) : bool :=
  eqc c "+"%char || eqc c "-"%char || eqc c "*"%char || eqc c "/"%char.

(** [bool is_unary(int current)]; [&&] binds tighter than [||]. *)
Definition is_unary (data_ : string) (current : nat) : bool :=
  (((current + 1 <? size data_)%nat && eqc (char_at data_ (current + 1)) "("%char)
     || is_roman (char_at data_ (current + 1)))
  && eqc (char_at data_ current) "-"%char
  && ((current =? 0)%nat
      || ((0 <? current)%nat
          && (is_operation (char_at data_ (current - 1))
              || eqc (char_at data_ (current - 1)) ")"%char))).

(** [std::isspace] in the default "C" locale. *)
Definition isspace (x : ascii) : bool :=
  let n := N_of_ascii x in
  ((9 <=? n) && (n <=? 13))%N || (n =? 32)%N.

(** [data_.erase(std::remove_if(.., isspace), data_.end())] *)
Fixpoint erase_spaces (s : string) : string :=
  match s with
  | EmptyString => EmptyString
  | String x s' => if isspace x then erase_spaces s' else String x (erase_spaces s')
  end.

Fixpoint drop (n : nat) (s : string) : string :=
  match n, s with
  | O, _ => s
  | S n', String _ s' => drop n' s'
  | S _, EmptyString => EmptyString
  end.

(** The characters [read_number] collects: the longest run of numeral
    letters starting at the cursor. *)
Fixpoint roman_run (s : string) : string :=
  match s with
  | String c s' => if is_roman c then String c (roman_run s') else EmptyString
  | EmptyString => EmptyString
  end.

(** [int64_t read_number()]: the decoded number and the new [position_]. *)
Definition read_number (data_ : string) (position_ : nat) : Z * nat :=
  let result := roman_run (drop position_ data_) in
  (RomanConverter.to_int64 result, (position_ + size result)%nat).

(** The working state of the constructor's scan. *)
Record state : Type := mkState {
  position_ : nat;
  unarity : Z;
  stack : list Element;
  out : list Element
}.

(** [while (!stack.empty() && stack.back()->label() != BRACKET)] *)
Fixpoint pop_to_bracket (stack out : list Element) : list Element * list Element :=
  match stack with
  | top :: rest =>
      if bool_decide (Elem.label top ≠ BRACKET)
      then pop_to_bracket rest (out ++ [top])
      else (stack, out)
  | [] => ([], out)
  end.

(** [while (!stack.empty() && stack.back()->priority() >= current->priority())] *)
Fixpoint pop_priority (current : Element) (stack out : list Element)
  : list Element * list Element :=
  match stack with
  | top :: rest =>
      if Elem.priority top >=? Elem.priority current
      then pop_priority current rest (out ++ [top])
      else (stack, out)
  | [] => ([], out)
  end.

(** One turn of [while (position_ < (int)data_.size())]. *)
Definition step (data_ : string) (st : state) : outcome state :=
  let c := char_at data_ (position_ st) in
  if is_roman c then
    let '(value, position') := read_number data_ (position_ st) in
    Ok {| position_ := (position' - 1) + 1; unarity := 1; stack := stack st;
          out := out st ++ [Elem.of_value (wrap64 (value * unarity st))] |}
  else if eqc c "("%char then
    Ok {| position_ := position_ st + 1; unarity := 1;
          stack := Elem.of_char (code "(") BRACKET :: stack st; out := out st |}
  else if eqc c ")"%char then
    let '(stack', out') := pop_to_bracket (stack st) (out st) in
    match stack' with
    | [] => Throw UnbalancedBrackets
    | _ :: stack'' =>
        Ok {| position_ := position_ st + 1; unarity := 1;
              stack := stack''; out := out' |}
    end
  else if is_operation c then
    if is_unary data_ (position_ st) then
      Ok {| position_ := position_ st + 1; unarity := -1;
            stack := stack st; out := out st |}
    else
      let current := Elem.of_char (code c) BINARY_OPERATION in
      let '(stack', out') := pop_priority current (stack st) (out st) in
      Ok {| position_ := position_ st + 1; unarity := 1;
            stack := current :: stack'; out := out' |}
  else Throw (BadSymbol (position_ st + 1)).

Fixpoint scan (fuel : nat) (data_ : string) (st : state) : outcome state :=
  if (position_ st <? size data_)%nat then
    match fuel with
    | O => OutOfFuel
    | S fuel' => st' ← step data_ st; scan fuel' data_ st'
    end
  else Ok st.

(** The final [while (!stack.empty())]. *)
Fixpoint flush (stack out : list Element) : outcome (list Element) :=
  match stack with
  | [] => Ok out
  | top :: rest =>
      if bool_decide (Elem.label top ≠ BINARY_OPERATION)
      then Throw UnbalancedBrackets
      else flush rest (out ++ [top])
  end.

Definition initial : state :=
  {| position_ := 0; unarity := 1; stack := []; out := [] |}.

(** [ExpressionSolver(std::string expression)]: the postfix sequence [out]
    the constructed solver holds (its [stack] is empty again). *)
Definition parse (expression : string) : outcome (list Element) :=
  let data_ := erase_spaces expression in
  st ← scan (size data_) data_ initial;
  flush (stack st) (out st).

(** The [for (auto element : out)] of [solve], on the member [stack]. *)
Fixpoint solve_loop (out stack : list Element) : outcome (list Element) :=
  match out with
  | [] => Ok stack
  | element :: out' =>
      if bool_decide (Elem.label element = BINARY_OPERATION) then
        match stack with
        | right_ :: left_ :: stack' =>
            if bool_decide (Elem.label left_ ≠ VALUE)
               || bool_decide (Elem.label right_ ≠ VALUE)
            then Throw MalformedExpression
            else
              r ← Elem.proceed element left_ right_;
              solve_loop out' (r :: stack')
        | _ => Throw MalformedExpression
        end
      else solve_loop out' (element :: stack)
  end.

(** [stack[0]]: the bottom of the stack.  On an empty vector the C++
    access is undefined; [solve] reaches it with a non-empty stack only
    (see [solve_loop_nonempty]). *)
Definition stack_0 (stack : list Element) : option Element := last stack.

(** [std::string solve()] on a solver holding [out] and an empty [stack]. *)
Definition solve (out : list Element) : outcome string :=
  match out with
  | [] => Ok "Z"
  | _ =>
      stack ← solve_loop out [];
      match stack_0 stack with
      | Some bottom =>
          if bool_decide (Elem.label bottom ≠ VALUE) then Throw MalformedExpression
          else RomanConverter.to_roman (Elem.value bottom)
      | None => Throw MalformedExpression
      end
  end.

(** The evaluator without the final encoding: the integer handed to
    [to_roman]. *)
Definition evaluate (out : list Element) : outcome Z :=
  match out with
  | [] => Ok 0
  | _ =>
      stack ← solve_loop out [];
      match stack_0 stack with
      | Some bottom =>
          if bool_decide (Elem.label bottom ≠ VALUE) then Throw MalformedExpression
          else Ok (Elem.value bottom)
      | None => Throw MalformedExpression
      end
  end.

(** One turn of [main]'s loop: construct the solver, then [solve]. *)
Definition calc (expression : string) : outcome string :=
  out ← parse expression; solve out.

End ExpressionSolver.

(** * Specification-side definitions *)

(** ** A checked range of integers

    [all_upto f n] runs the boolean test [f] on 1, 2, .., n. *)

Fixpoint all_upto (f : Z -> bool) (n : nat) : bool :=
  match n with
  | O => true
  | S n' => f (Z.of_nat n) && all_upto f n'
  end.

(** Encoding [v] and [-v], and decoding the text of [v]. *)
Definition codec_check (v : Z) : bool :=
  match RomanConverter.to_roman v, RomanConverter.to_roman (- v) with
  | Ok s, Ok s' =>
      (RomanConverter.to_int64 s =? v) && String.eqb s' ("-" +:+ s)
  | _, _ => false
  end.

Definition all_ascii : list ascii := map ascii_of_nat (seq 0 256).

(** ** The decoder as the specification words it

    A left-to-right scan that adds the letter's additive value, or, after a
    letter of strictly smaller additive value, the entry of a pair table.
    [claimed_pair] is the table as the specification lists it;
    [stored_pair] holds what is left of each combined value once the first
    letter of the pair has been added on its own. *)
Module Words.

Definition addend (c : ascii) : Z :=
  match c with
  | "I" => 1 | "V" => 5 | "X" => 10 | "L" => 50
  | "C" => 100 | "D" => 500 | "M" => 1000
  | _ => 0
  end%char.

Definition claimed_pair (p c : ascii) : Z :=
  match p, c with
  | "I", "V" => 4 | "I", "X" => 9
  | "X", "L" => 40 | "X", "C" => 90
  | "C", "D" => 400 | "C", "M" => 900
  | _, _ => 0
  end%char.

Definition stored_pair (p c : ascii) : Z :=
  match p, c with
  | "I", "V" => 3 | "I", "X" => 8
  | "X", "L" => 30 | "X", "C" => 80
  | "C", "D" => 300 | "C", "M" => 800
  | _, _ => 0
  end%char.

Fixpoint decode_with (pair : ascii -> ascii -> Z) (prev : option ascii)
    (text : string) : Z :=
  match text with
  | EmptyString => 0
  | String c rest =>
      (match prev with
       | Some p => if addend p <? addend c then pair p c else addend c
       | None => addend c
       end) + decode_with pair (Some c) rest
  end.

Definition decode_claimed : string -> Z := decode_with claimed_pair None.
Definition decode_stored : string -> Z := decode_with stored_pair None.

End Words.

(** No NUL character in a string. *)
Fixpoint no_nul (s : string) : bool :=
  match s with
  | EmptyString => true
  | String c s' => negb (eqc c NUL) && no_nul s'
  end.

(** What the loop's [prev_literal] stands for: NUL is "no letter yet". *)
Definition prev_of (prev_literal : ascii) : option ascii :=
  if eqc prev_literal NUL then None else Some prev_literal.

(** A string made of whitespace only (possibly empty). *)
Fixpoint all_spaces (s : string) : bool :=
  match s with
  | EmptyString => true
  | String x s' => ExpressionSolver.isspace x && all_spaces s'
  end.

(** ** The scan as a transition system

    [reaches data_ st st'] : the constructor's loop, started in [st], gets
    to [st'] after zero or more turns. *)
Inductive reaches (data_ : string) : ExpressionSolver.state -> ExpressionSolver.state -> Prop :=
  | reaches_here (st : ExpressionSolver.state) : reaches data_ st st
  | reaches_turn (st st' st'' : ExpressionSolver.state) :
      (ExpressionSolver.position_ st < size data_)%nat ->
      ExpressionSolver.step data_ st = Ok st' ->
      reaches data_ st' st'' ->
      reaches data_ st st''.

Definition is_bracket (e : Element) : Prop := Elem.label e = BRACKET.
Definition is_operator (e : Element) : Prop := Elem.label e = BINARY_OPERATION.

(** What the operator stack holds during the scan. *)
Definition stack_ok (stack : list Element) : Prop :=
  Forall (fun e => is_bracket e \/ is_operator e) stack.

(** Every [value_] the program stores is an [int64_t]. *)
Definition value_ok (e : Element) : Prop := in_int64 (Elem.value e).

(** The elements of the [/] operator. *)
Definition is_division (element : Element) : Prop :=
  Elem.label element = BINARY_OPERATION /\ Elem.value element = code "/".

Definition tables_check (p : ascii) : bool :=
  (RomanConverter.rule_add_at p =? Words.addend p)
  && (0 <=? Words.addend p) && (Words.addend p <=? 1000)
  && forallb (fun c =>
        (RomanConverter.rule_div_at (p, c) =? Words.stored_pair p c)
        && (0 <=? Words.stored_pair p c) && (Words.stored_pair p c <=? 1000))
       all_ascii.

(** ** Checks and predicates for the pipeline as a whole *)

#[global] Instance logic_error_eq_dec : EqDecision logic_error.
Proof. solve_decision. Defined.

#[global] Instance outcome_eq_dec {A : Type} `{EqDecision A} : EqDecision (outcome A).
Proof. solve_decision. Defined.

Fixpoint string_forallb (f : ascii -> bool) (s : string) : bool :=
  match s with
  | EmptyString => true
  | String c s' => f c && string_forallb f s'
  end.

(** One of the seven letters that carry a value (not the zero symbol). *)
Definition numeral_letter (c : ascii) : bool :=
  ExpressionSolver.is_roman c && negb (eqc c "Z"%char).

(** The texts of [v] and [-v] read back by the parser, and the shape of
    the text of [v]. *)
Definition pipeline_check (v : Z) : bool :=
  match RomanConverter.to_roman v, RomanConverter.to_roman (- v) with
  | Ok s, Ok s' =>
      bool_decide (ExpressionSolver.parse s = Ok [Value v])
      && bool_decide (ExpressionSolver.parse s' = Ok [Value (- v)])
      && string_forallb numeral_letter s
      && (1 <=? size s)%nat && (size s <=? 15)%nat
  | _, _ => false
  end.

(** ** Texts whose letters never grow in value *)

Fixpoint sum_addends (text : string) : Z :=
  match text with
  | EmptyString => 0
  | String c rest => RomanConverter.rule_add_at c + sum_addends rest
  end.

(** No letter of [text] is worth more than the one before it; [before] is
    the value of the letter in front of [text]. *)
Fixpoint non_increasing_from (before : Z) (text : string) : bool :=
  match text with
  | EmptyString => true
  | String c rest =>
      (RomanConverter.rule_add_at c <=? before)
      && non_increasing_from (RomanConverter.rule_add_at c) rest
  end.

Definition non_increasing (text : string) : bool :=
  match text with
  | EmptyString => true
  | String c rest => non_increasing_from (RomanConverter.rule_add_at c) rest
  end.

(** ** Expression trees and their postfix form *)

Inductive expr : Type :=
  | Num (n : Z)
  | Bin (op : ascii) (lhs rhs : expr).

Fixpoint postfix (e : expr) : list Element :=
  match e with
  | Num n => [Value n]
  | Bin op lhs rhs => postfix lhs ++ postfix rhs ++ [Operator op]
  end.

(** One operation, as [Element::proceed] computes it. *)
Definition apply_op (op : ascii) (a b : Z) : outcome Z :=
  r ← Elem.proceed (Operator op) (Value a) (Value b); Ok (Elem.value r).

(** The value of a tree: left operand, right operand, then the operation. *)
Fixpoint eval (e : expr) : outcome Z :=
  match e with
  | Num n => Ok n
  | Bin op lhs rhs => a ← eval lhs; b ← eval rhs; apply_op op a b
  end.

(** Operators and other elements of a postfix sequence, counted. *)
Definition is_op (e : Element) : bool := bool_decide (Elem.label e = BINARY_OPERATION).

Fixpoint count_ops (out : list Element) : nat :=
  match out with
  | [] => 0
  | e :: out' => (if is_op e then 1 else 0) + count_ops out'
  end.

Fixpoint count_operands (out : list Element) : nat :=
  match out with
  | [] => 0
  | e :: out' => (if is_op e then 0 else 1) + count_operands out'
  end.

(** ** The symbols and tokens of the parser *)

(** A character the scan accepts: a letter, an operator or a bracket. *)
Definition valid_symbol (c : ascii) : bool :=
  ExpressionSolver.is_roman c || ExpressionSolver.is_operation c
  || eqc c "("%char || eqc c ")"%char.

(** What the operator stack holds: open brackets and the four operators. *)
Definition stack_token (e : Element) : Prop :=
  e = Bracket "(" \/ exists c, ExpressionSolver.is_operation c = true /\ e = Operator c.

(** What the output holds: 64-bit values and the four operators. *)
Definition out_token (e : Element) : Prop :=
  (exists n, in_int64 n /\ e = Value n)
  \/ exists c, ExpressionSolver.is_operation c = true /\ e = Operator c.

(** The nesting depth after the brackets of [s], starting from [depth];
    [None] when a close bracket finds no open one. *)
Fixpoint bracket_depth (s : string) (depth : nat) : option nat :=
  match s with
  | EmptyString => Some depth
  | String c s' =>
      if eqc c "("%char then bracket_depth s' (S depth)
      else if eqc c ")"%char then
        match depth with
        | O => None
        | S depth' => bracket_depth s' depth'
        end
      else bracket_depth s' depth
  end.

Fixpoint count_brackets (stack : list Element) : nat :=
  match stack with
  | [] => 0
  | e :: stack' =>
      (if bool_decide (Elem.label e = BRACKET) then 1 else 0) + count_brackets stack'
  end.

(** ** Expressions without brackets

    An operand, then any number of (operator, operand) pairs, an operand
    being a numeral text with or without a minus sign in front.
    [precedence_tree] is the tree such a line stands for when [*] and [/]
    bind tighter than [+] and [-] and operators of equal rank associate to
    the left. *)

Definition is_multiplicative (c : ascii) : bool := eqc c "*"%char || eqc c "/"%char.

Definition numeral_text (t : string) : bool :=
  negb (size t =? 0)%nat && string_forallb ExpressionSolver.is_roman t.

Definition sign_of (negative : bool) : Z := if negative then -1 else 1.

(** The value of an operand: [value * unarity] of the constructor. *)
Definition operand (nt : bool * string) : Z :=
  wrap64 (RomanConverter.to_int64 (snd nt) * sign_of (fst nt)).

Definition render_operand (nt : bool * string) : string :=
  if fst nt then String "-" (snd nt) else snd nt.

Fixpoint render_rest (rest : list (ascii * (bool * string))) : string :=
  match rest with
  | [] => EmptyString
  | (c, nt) :: rest' => String c (render_operand nt +:+ render_rest rest')
  end.

Definition render (first : bool * string) (rest : list (ascii * (bool * string))) : string :=
  render_operand first +:+ render_rest rest.

(** The sum so far with its pending additive operator, if any, and the
    product being built. *)
Definition close (sum : option (expr * ascii)) (term : expr) : expr :=
  match sum with
  | None => term
  | Some (e, c) => Bin c e term
  end.

Fixpoint build (sum : option (expr * ascii)) (term : expr)
    (rest : list (ascii * (bool * string))) : expr :=
  match rest with
  | [] => close sum term
  | (c, nt) :: rest' =>
      if is_multiplicative c then build sum (Bin c term (Num (operand nt))) rest'
      else build (Some (close sum term, c)) (Num (operand nt)) rest'
  end.

Definition precedence_tree (first : bool * string)
    (rest : list (ascii * (bool * string))) : expr :=
  build None (Num (operand first)) rest.

Definition flat_rest_ok (rest : list (ascii * (bool * string))) : Prop :=
  Forall (fun cnt => ExpressionSolver.is_operation (fst cnt) = true
                     /\ numeral_text (snd (snd cnt)) = true) rest.

Definition flat_ok (first : bool * string) (rest : list (ascii * (bool * string))) : Prop :=
  numeral_text (snd first) = true /\ flat_rest_ok rest.

(** What the scan holds between two operators of such a line: nothing
    pending, one pending operation, or an additive one below a
    multiplicative one. *)
Inductive pending : Type :=
  | P0 (e : expr)
  | P1 (a : expr) (o : ascii) (b : expr)
  | P2 (a : expr) (p : ascii) (b : expr) (m : ascii) (c : expr).

Definition pending_stack (s : pending) : list Element :=
  match s with
  | P0 _ => []
  | P1 _ o _ => [Operator o]
  | P2 _ p _ m _ => [Operator m; Operator p]
  end.

Definition pending_out (s : pending) : list Element :=
  match s with
  | P0 e => postfix e
  | P1 a _ b => postfix a ++ postfix b
  | P2 a _ b _ c => postfix a ++ postfix b ++ postfix c
  end.

Definition pending_sum (s : pending) : option (expr * ascii) :=
  match s with
  | P0 _ => None
  | P1 a o _ => if is_multiplicative o then None else Some (a, o)
  | P2 a p _ _ _ => Some (a, p)
  end.

Definition pending_term (s : pending) : expr :=
  match s with
  | P0 e => e
  | P1 a o b => if is_multiplicative o then Bin o a b else b
  | P2 _ _ b m c => Bin m b c
  end.

Definition pending_ok (s : pending) : Prop :=
  match s with
  | P0 _ => True
  | P1 _ o _ => ExpressionSolver.is_operation o = true
  | P2 _ p _ m _ =>
      ExpressionSolver.is_operation p = true /\ is_multiplicative p = false
      /\ ExpressionSolver.is_operation m = true /\ is_multiplicative m = true
  end.

Definition push_pending (s : pending) (c : ascii) (n : expr) : pending :=
  match s with
  | P0 e => P1 e c n
  | P1 a o b =>
      if is_multiplicative c && negb (is_multiplicative o) then P2 a o b c n
      else P1 (Bin o a b) c n
  | P2 a p b m c' =>
      if is_multiplicative c then P2 a p (Bin m b c') c n
      else P1 (Bin p a (Bin m b c')) c n
  end.

(** The invariant of the scan between two operators. *)
Definition flat_state (data_ : string) (st : ExpressionSolver.state) (s : pending)
    (rest : list (ascii * (bool * string))) : Prop :=
  ExpressionSolver.stack st = pending_stack s
  /\ ExpressionSolver.out st = pending_out s
  /\ ExpressionSolver.drop (ExpressionSolver.position_ st) data_ = render_rest rest
  /\ (0 < ExpressionSolver.position_ st)%nat
  /\ ExpressionSolver.is_roman (char_at data_ (ExpressionSolver.position_ st - 1)) = true
  /\ pending_ok s.

(** ** Expressions with brackets

    An [item] is a numeral, signed or not, or a bracketed line; a line is an
    item followed by operators and items ([ops]).  [tree_item] and
    [build_ops] give the tree a line stands for: brackets group, [*] and [/]
    bind tighter than [+] and [-], equal ranks associate to the left. *)

Inductive item : Type :=
  | Numeral (nt : bool * string)
  | Group (first : item) (rest : ops)
with ops : Type :=
  | ONil
  | OCons (c : ascii) (i : item) (rest : ops).

Scheme item_ops_ind := Induction for item Sort Prop
  with ops_item_ind := Induction for ops Sort Prop.

Combined Scheme item_ops_mutind from item_ops_ind, ops_item_ind.

Fixpoint render_item (i : item) : string :=
  match i with
  | Numeral nt => render_operand nt
  | Group first rest => String "(" (render_item first +:+ render_ops rest +:+ ")")
  end
with render_ops (r : ops) : string :=
  match r with
  | ONil => EmptyString
  | OCons c i rest => String c (render_item i +:+ render_ops rest)
  end.

Fixpoint tree_item (i : item) : expr :=
  match i with
  | Numeral nt => Num (operand nt)
  | Group first rest => build_ops None (tree_item first) rest
  end
with build_ops (sum : option (expr * ascii)) (term : expr) (r : ops) {struct r} : expr :=
  match r with
  | ONil => close sum term
  | OCons c i rest =>
      if is_multiplicative c then build_ops sum (Bin c term (tree_item i)) rest
      else build_ops (Some (close sum term, c)) (tree_item i) rest
  end.

Definition is_group (i : item) : bool :=
  match i with
  | Numeral _ => false
  | Group _ _ => true
  end.

(** The lines the program reads as written.  A sign stands in front of a
    numeral only, and never on the first item inside a bracket ([leading]);
    the operator that follows a bracketed item is not [-]
    ([after_group]): in both places the program takes the minus the other
    way. *)
Fixpoint item_ok (leading : bool) (i : item) : Prop :=
  match i with
  | Numeral nt => numeral_text (snd nt) = true /\ (leading = true -> fst nt = false)
  | Group first rest => item_ok true first /\ ops_ok (is_group first) rest
  end
with ops_ok (after_group : bool) (r : ops) : Prop :=
  match r with
  | ONil => True
  | OCons c i rest =>
      ExpressionSolver.is_operation c = true
      /\ (after_group = true -> c <> "-"%char)
      /\ item_ok false i
      /\ ops_ok (is_group i) rest
  end.

(** The cursor stands right after an item: after a letter, or after the
    close bracket of a group. *)
Definition after_item (data_ : string) (p : nat) (group : bool) : Prop :=
  (0 < p)%nat
  /\ if group then char_at data_ (p - 1) = ")"%char
     else ExpressionSolver.is_roman (char_at data_ (p - 1)) = true.

(** The bottom of the part of the operator stack that belongs to the
    bracket being read. *)
Definition base_ok (base : list Element) : Prop :=
  base = [] \/ exists below, base = Bracket "(" :: below.

(** * Properties *)

(** ** Machine integers *)

Lemma wrap64_id (z : Z) : in_int64 z -> wrap64 z = z.
Proof.
  unfold in_int64, min_int64, max_int64, wrap64, wrap. intros Hz.
  change (2 ^ (64 - 1)) with 9223372036854775808 in *.
  change (2 ^ 64) with 18446744073709551616.
  change (2 ^ 63) with 9223372036854775808 in *.
  rewrite Z.mod_small; lia.
Qed.

Lemma wrap32_id (z : Z) : in_int32 z -> wrap32 z = z.
Proof.
  unfold in_int32, min_int32, max_int32, wrap32, wrap. intros Hz.
  change (2 ^ (32 - 1)) with 2147483648 in *.
  change (2 ^ 32) with 4294967296.
  change (2 ^ 31) with 2147483648 in *.
  rewrite Z.mod_small; lia.
Qed.

Lemma wrap32_range (z : Z) : in_int32 (wrap32 z).
Proof.
  unfold in_int32, min_int32, max_int32, wrap32, wrap.
  change (2 ^ (32 - 1)) with 2147483648.
  change (2 ^ 32) with 4294967296.
  change (2 ^ 31) with 2147483648.
  pose proof (Z.mod_pos_bound (z + 2147483648) 4294967296 eq_refl). lia.
Qed.

Lemma wrap32_mod (z : Z) : wrap32 z mod 2 ^ 32 = z mod 2 ^ 32.
Proof.
  unfold wrap32, wrap.
  change (2 ^ (32 - 1)) with 2147483648.
  change (2 ^ 32) with 4294967296.
  rewrite Zminus_mod, Z.mod_mod by lia.
  rewrite <- Zminus_mod. f_equal. lia.
Qed.

Lemma wrap64_range (z : Z) : in_int64 (wrap64 z).
Proof.
  unfold in_int64, min_int64, max_int64, wrap64, wrap.
  change (2 ^ (64 - 1)) with 9223372036854775808.
  change (2 ^ 64) with 18446744073709551616.
  change (2 ^ 63) with 9223372036854775808.
  pose proof (Z.mod_pos_bound (z + 9223372036854775808) 18446744073709551616 eq_refl).
  lia.
Qed.

(** ** Checked ranges *)

Lemma all_upto_spec (f : Z -> bool) (n : nat) :
  all_upto f n = true -> forall v, 1 <= v <= Z.of_nat n -> f v = true.
Proof.
  induction n as [|n IH]; intros Hall v Hv.
  - simpl in Hv. lia.
  - cbn [all_upto] in Hall. apply andb_true_iff in Hall as [Hn Hrest].
    destruct (Z.eq_dec v (Z.of_nat (S n))) as [->|Hne]; [exact Hn|].
    apply IH; [exact Hrest|lia].
Qed.

(** ** The codec on its whole range *)

Lemma codec_check_3999 : all_upto codec_check 3999 = true.
Proof. vm_cast_no_check (eq_refl true). Qed.

Lemma codec_check_spec (v : Z) :
  codec_check v = true ->
  exists s, RomanConverter.to_roman v = Ok s
            /\ RomanConverter.to_int64 s = v
            /\ RomanConverter.to_roman (- v) = Ok ("-" +:+ s).
Proof.
  unfold codec_check.
  destruct (RomanConverter.to_roman v) as [s| | |]; try discriminate.
  destruct (RomanConverter.to_roman (- v)) as [s'| | |]; try discriminate.
  intros H. apply andb_true_iff in H as [H1 H2].
  apply Z.eqb_eq in H1. apply String.eqb_eq in H2. subst s'.
  exists s. auto.
Qed.

Lemma codec_in_range (v : Z) :
  0 < v <= 3999 ->
  exists s, RomanConverter.to_roman v = Ok s
            /\ RomanConverter.to_int64 s = v
            /\ RomanConverter.to_roman (- v) = Ok ("-" +:+ s).
Proof.
  intros Hv. apply codec_check_spec.
  apply (all_upto_spec codec_check 3999 codec_check_3999). simpl. lia.
Qed.

(** ** C2, C7: the codec's round trip and its bound *)

Lemma abs64_id (v : Z) : min_int64 < v <= max_int64 -> abs64 v = Z.abs v.
Proof.
  intros Hv. unfold abs64. apply wrap64_id.
  unfold in_int64, min_int64, max_int64 in *. lia.
Qed.

Lemma to_roman_in_bound (v : Z) :
  Z.abs v <= 3999 -> exists s, RomanConverter.to_roman v = Ok s.
Proof.
  intros Hv. destruct (Z.lt_trichotomy v 0) as [Hneg|[->|Hpos]].
  - destruct (codec_in_range (- v)) as (s & _ & _ & Hs); [lia|].
    rewrite Z.opp_involutive in Hs. eauto.
  - exists "Z". reflexivity.
  - destruct (codec_in_range v) as (s & Hs & _); [lia|]. eauto.
Qed.

Lemma to_roman_overflow_iff (v : Z) :
  min_int64 < v <= max_int64 ->
  RomanConverter.to_roman v = Throw Overflow <-> 3999 < Z.abs v.
Proof.
  intros Hv. split.
  - intros Hthrow. destruct (Z.le_gt_cases (Z.abs v) 3999) as [Hle|Hgt]; [|lia].
    destruct (to_roman_in_bound v Hle) as [s Hs]. congruence.
  - intros Hgt. unfold RomanConverter.to_roman.
    destruct (v =? 0) eqn:Hz; [apply Z.eqb_eq in Hz; lia|].
    rewrite (abs64_id v Hv). unfold RomanConverter.BOUND.
    destruct (Z.abs v >? 3999) eqn:Hb; [reflexivity|].
    rewrite Z.gtb_ltb in Hb. apply Z.ltb_ge in Hb. lia.
Qed.

(** For every [int64_t] value [v] other than [INT64_MIN], [to_roman v]
    returns a text when [|v| <= 3999] and throws the overflow error exactly
    when [|v| > 3999]; 3999 is encoded, and 4000 and -4000 overflow. *)
Lemma to_roman_overflow_above_min (v : Z) :
  min_int64 < v <= max_int64 ->
  (Z.abs v <= 3999 -> exists s, RomanConverter.to_roman v = Ok s)
  /\ (RomanConverter.to_roman v = Throw Overflow <-> 3999 < Z.abs v)
  /\ RomanConverter.to_roman 3999 = Ok "MMMCMXCIX"
  /\ RomanConverter.to_roman 4000 = Throw Overflow
  /\ RomanConverter.to_roman (-4000) = Throw Overflow.
Proof.
  intros Hv. split; [apply to_roman_in_bound|].
  split; [apply to_roman_overflow_iff, Hv|].
  repeat split; vm_compute; reflexivity.
Qed.

(** C7.  The overflow test of [to_roman] misses one value.  At [INT64_MIN]
    the absolute value is not representable: [std::abs] gives [INT64_MIN]
    back, which is not above the bound, so nothing is thrown; the sign is
    written, the loop [while (value > 0)] is not entered, and the text is
    the bare sign "-", although the absolute value 2^63 exceeds 3999.  The
    value is reachable, since products are not bounded: the line
    "-MMXLVIII*MXXIV*MMXLVIII*MXXIV*MMXLVIII*MXXIV" multiplies -2^11 by
    2^10, 2^11, 2^10, 2^11 and 2^10 and is answered with "-". *)
Theorem to_roman_misses_min_int64 :
  in_int64 min_int64
  /\ 3999 < Z.abs min_int64
  /\ abs64 min_int64 = min_int64
  /\ RomanConverter.to_roman min_int64 = Ok "-"
  /\ RomanConverter.to_roman min_int64 <> Throw Overflow
  /\ ExpressionSolver.parse "-MMXLVIII*MXXIV*MMXLVIII*MXXIV*MMXLVIII*MXXIV"
     = Ok [Value (-2048); Value 1024; Operator "*"; Value 2048; Operator "*";
           Value 1024; Operator "*"; Value 2048; Operator "*";
           Value 1024; Operator "*"]
  /\ ExpressionSolver.evaluate
       [Value (-2048); Value 1024; Operator "*"; Value 2048; Operator "*";
        Value 1024; Operator "*"; Value 2048; Operator "*";
        Value 1024; Operator "*"]
     = Ok min_int64
  /\ ExpressionSolver.calc "-MMXLVIII*MXXIV*MMXLVIII*MXXIV*MMXLVIII*MXXIV"
     = Ok "-".
Proof.
  split; [vm_compute; split; discriminate|].
  split; [vm_compute; reflexivity|].
  split; [vm_compute; reflexivity|].
  split; [vm_compute; reflexivity|].
  split; [vm_compute; discriminate|].
  split; [vm_compute; reflexivity|].
  split; vm_compute; reflexivity.
Qed.

(** C2, as stated, fails: the text of a negative number starts with the
    sign, which [to_int64] does not read; "-V" decodes to 0. *)
Lemma roundtrip_negative_fails :
  ~ (forall v, 0 < Z.abs v <= 3999 ->
       exists s, RomanConverter.to_roman v = Ok s
                 /\ RomanConverter.to_int64 s = v).
Proof.
  intros H. destruct (H (-5)) as (s & Hs & Hd); [simpl; lia|].
  vm_compute in Hs. injection Hs as <-. vm_compute in Hd. discriminate.
Qed.

(** C2, amended.  For every [v] with [0 < v <= 3999], decoding the text of
    [v] gives [v] back, and the text of [-v] is that of [v] after a minus
    sign. *)
Theorem roundtrip_positive (v : Z) :
  0 < v <= 3999 ->
  exists s, RomanConverter.to_roman v = Ok s
            /\ RomanConverter.to_int64 s = v
            /\ RomanConverter.to_roman (- v) = Ok ("-" +:+ s).
Proof. apply codec_in_range. Qed.

Lemma roundtrip_positive_witness :
  exists s, RomanConverter.to_roman 1994 = Ok s
            /\ RomanConverter.to_int64 s = 1994
            /\ RomanConverter.to_roman (- 1994) = Ok ("-" +:+ s).
Proof. apply (roundtrip_positive 1994). lia. Defined.

(** ** C4: the decoder's scan and its pair table *)

Lemma all_ascii_complete (c : ascii) : In c all_ascii.
Proof.
  unfold all_ascii. rewrite <- (ascii_nat_embedding c).
  apply in_map, in_seq. pose proof (nat_ascii_bounded c). lia.
Qed.

Lemma tables_checked : forallb tables_check all_ascii = true.
Proof. vm_cast_no_check (eq_refl true). Qed.

Lemma tables_checked_at (p : ascii) : tables_check p = true.
Proof.
  pose proof tables_checked as H. rewrite forallb_forall in H.
  apply H, all_ascii_complete.
Qed.

Lemma tables_checked_pair (p c : ascii) :
  (RomanConverter.rule_div_at (p, c) =? Words.stored_pair p c)
  && (0 <=? Words.stored_pair p c) && (Words.stored_pair p c <=? 1000) = true.
Proof.
  pose proof (tables_checked_at p) as H. unfold tables_check in H.
  apply andb_true_iff in H as [_ H]. rewrite forallb_forall in H.
  apply H, all_ascii_complete.
Qed.

Lemma rule_add_at_addend (p : ascii) : RomanConverter.rule_add_at p = Words.addend p.
Proof.
  pose proof (tables_checked_at p) as H. unfold tables_check in H.
  repeat (apply andb_true_iff in H as [H _]). apply Z.eqb_eq, H.
Qed.

Lemma addend_bounds (p : ascii) : 0 <= Words.addend p <= 1000.
Proof.
  pose proof (tables_checked_at p) as H. unfold tables_check in H.
  apply andb_true_iff in H as [H _].
  apply andb_true_iff in H as [H H3]. apply andb_true_iff in H as [_ H2].
  apply Z.leb_le in H2, H3. lia.
Qed.

Lemma rule_div_at_stored (p c : ascii) :
  RomanConverter.rule_div_at (p, c) = Words.stored_pair p c.
Proof.
  pose proof (tables_checked_pair p c) as H.
  repeat (apply andb_true_iff in H as [H _]). apply Z.eqb_eq, H.
Qed.

Lemma stored_pair_bounds (p c : ascii) : 0 <= Words.stored_pair p c <= 1000.
Proof.
  pose proof (tables_checked_pair p c) as H.
  apply andb_true_iff in H as [H H3]. apply andb_true_iff in H as [_ H2].
  apply Z.leb_le in H2, H3. lia.
Qed.

Lemma decode_stored_bounds (text : string) (prev : option ascii) :
  0 <= Words.decode_with Words.stored_pair prev text <= 1000 * Z.of_nat (size text).
Proof.
  revert prev. induction text as [|c rest IH]; intros prev.
  - simpl. lia.
  - cbn [Words.decode_with size String.length].
    specialize (IH (Some c)). unfold size in IH.
    assert (Hstep : 0 <= match prev with
                         | Some p => if Words.addend p <? Words.addend c
                                     then Words.stored_pair p c else Words.addend c
                         | None => Words.addend c
                         end <= 1000).
    { destruct prev as [p|]; [destruct (Words.addend p <? Words.addend c)|];
        auto using addend_bounds, stored_pair_bounds. }
    lia.
Qed.

Lemma to_int64_loop_words (text : string) (result : Z) (prev_literal : ascii) :
  no_nul text = true ->
  0 <= result ->
  result + 1000 * Z.of_nat (size text) <= max_int64 ->
  RomanConverter.to_int64_loop text result prev_literal
  = result + Words.decode_with Words.stored_pair (prev_of prev_literal) text.
Proof.
  revert result prev_literal.
  induction text as [|c rest IH]; intros result prev_literal Hnul Hres Hmax.
  - simpl. lia.
  - cbn [no_nul] in Hnul. apply andb_true_iff in Hnul as [Hc Hnul].
    cbn [size String.length] in Hmax. fold (size rest) in Hmax.
    cbn [RomanConverter.to_int64_loop Words.decode_with].
    rewrite !rule_add_at_addend, rule_div_at_stored.
    set (added := match prev_of prev_literal with
                  | Some p => if Words.addend p <? Words.addend c
                              then Words.stored_pair p c else Words.addend c
                  | None => Words.addend c
                  end).
    assert (Hadded : (if negb (eqc prev_literal NUL)
                         && (Words.addend prev_literal <? Words.addend c)
                      then wrap64 (result + Words.stored_pair prev_literal c)
                      else wrap64 (result + Words.addend c))
                     = wrap64 (result + added)).
    { unfold added, prev_of. destruct (eqc prev_literal NUL); simpl; [reflexivity|].
      destruct (Words.addend prev_literal <? Words.addend c); reflexivity. }
    rewrite Hadded.
    assert (Hb : 0 <= added <= 1000).
    { unfold added. destruct (prev_of prev_literal) as [p|];
        [destruct (Words.addend p <? Words.addend c)|];
        auto using addend_bounds, stored_pair_bounds. }
    rewrite wrap64_id
      by (unfold in_int64, min_int64, max_int64 in *; change (2 ^ 63) with 9223372036854775808 in *; lia).
    rewrite IH; [| exact Hnul | lia | lia].
    replace (prev_of c) with (Some c) by (unfold prev_of; destruct (eqc c NUL); [discriminate|reflexivity]).
    lia.
Qed.

(** C4, as stated, fails: the stored entry for (I, V) is 3, and a scan that
    added the listed 4 after the I would total 5 for "IV". *)
Lemma claimed_pair_table_fails :
  RomanConverter.rule_div_at ("I"%char, "V"%char) <> 4
  /\ RomanConverter.to_int64 "IV" <> Words.decode_claimed "IV".
Proof. split; vm_compute; discriminate. Qed.

(** C4, amended.  On a text without NUL characters (and short enough for
    the total to fit 64 bits) [to_int64] is the left-to-right scan that adds
    each letter's additive value, except that after a letter of strictly
    smaller additive value it adds the entry of the pair table
    {(I,V):3, (I,X):8, (X,L):30, (X,C):80, (C,D):300, (C,M):800}, and 0 for
    a pair outside the table; "IV" decodes to 1 + 3 = 4. *)
Theorem to_int64_scan (text : string) :
  no_nul text = true ->
  Z.of_nat (size text) <= 2 ^ 50 ->
  RomanConverter.to_int64 text = Words.decode_stored text
  /\ (forall p c, RomanConverter.rule_div_at (p, c) = Words.stored_pair p c)
  /\ (forall c, RomanConverter.rule_add_at c = Words.addend c)
  /\ RomanConverter.to_int64 "IV" = 4.
Proof.
  intros Hnul Hlen. split; [|auto using rule_div_at_stored, rule_add_at_addend].
  unfold RomanConverter.to_int64.
  destruct ((size text =? 1)%nat && eqc (char_at text 0) "Z"%char) eqn:Hz.
  - apply andb_true_iff in Hz as [Hsize Hchar].
    destruct text as [|c [|c' rest]]; try discriminate.
    simpl in Hchar. apply Ascii.eqb_eq in Hchar. subst c. reflexivity.
  - rewrite to_int64_loop_words; [reflexivity | exact Hnul | lia |].
    unfold max_int64. change (2 ^ 63) with 9223372036854775808.
    change (2 ^ 50) with 1125899906842624 in Hlen. lia.
Qed.

Lemma to_int64_scan_witness :
  RomanConverter.to_int64 "MCMXCIV" = Words.decode_stored "MCMXCIV".
Proof.
  apply (to_int64_scan "MCMXCIV"); [reflexivity | vm_compute; discriminate].
Defined.

(** ** The evaluator and the final encoding *)

(** [solve] is [evaluate] followed by [to_roman]; the empty sequence counts
    as 0, whose text is the zero symbol. *)
Lemma solve_evaluate (out : list Element) :
  ExpressionSolver.solve out = (v ← ExpressionSolver.evaluate out; RomanConverter.to_roman v).
Proof.
  unfold ExpressionSolver.solve, ExpressionSolver.evaluate.
  destruct out as [|element out]; [reflexivity|].
  destruct (ExpressionSolver.solve_loop (element :: out) []) as [stack| | |]; try reflexivity.
  cbn. destruct (ExpressionSolver.stack_0 stack) as [bottom|]; [|reflexivity].
  destruct (bool_decide _); reflexivity.
Qed.

(** ** C1, C10: the division of the evaluator *)

Lemma proceed_divide (left_ right_ : Z) :
  Elem.proceed (Operator "/") (Value left_) (Value right_)
  = if right_ =? 0 then Throw DivisionByZero
    else q ← Elem.divide (wrap32 left_) (wrap32 right_); Ok (Value q).
Proof.
  unfold Elem.proceed, Operator, Value. cbn.
  destruct (right_ =? 0); reflexivity.
Qed.

(** The built-in division of [int]s has a result exactly when the divisor
    is not 0 and the operands are not [INT_MIN] and -1. *)
Lemma int_div_ok (a b : Z) :
  b <> 0 -> (a <> min_int32 \/ b <> -1) ->
  Elem.int_div a b = Ok (wrap32 (a ÷ b)).
Proof.
  intros Hb Hab. unfold Elem.int_div.
  destruct (b =? 0) eqn:Hz; [apply Z.eqb_eq in Hz; contradiction|].
  destruct (a =? min_int32) eqn:Ha; [|reflexivity].
  destruct (b =? -1) eqn:Hm; [|reflexivity].
  apply Z.eqb_eq in Ha. apply Z.eqb_eq in Hm. lia.
Qed.

(** Rounding the magnitude up and negating is rounding the quotient down. *)
Lemma div_opp_ceil (a b : Z) :
  0 <= a -> 0 < b -> (- a) / b = - ((a + b - 1) / b).
Proof.
  intros Ha Hb. symmetry.
  apply (Z.div_unique (- a) b (- ((a + b - 1) / b)) (b - 1 - (a + b - 1) mod b)).
  - left. pose proof (Z.mod_pos_bound (a + b - 1) b Hb). lia.
  - pose proof (Z.div_mod (a + b - 1) b ltac:(lia)). lia.
Qed.

Lemma abs32_id (z : Z) : Z.abs z <= max_int32 -> abs32 z = Z.abs z.
Proof.
  intros Hz. unfold abs32. apply wrap32_id.
  unfold in_int32, min_int32, max_int32 in *. lia.
Qed.

Lemma divide_floor (left_ right_ : Z) :
  right_ <> 0 ->
  in_int32 left_ -> in_int32 right_ ->
  Z.abs left_ + Z.abs right_ <= max_int32 ->
  Elem.divide left_ right_ = Ok (left_ / right_).
Proof.
  intros Hr Hl32 Hr32 Hsum. unfold Elem.divide.
  assert (Hmax : max_int32 = 2147483647) by reflexivity.
  assert (Hmin : min_int32 = -2147483648) by reflexivity.
  unfold in_int32 in *.
  destruct (((left_ <=? 0) && (right_ <? 0)) || ((left_ >=? 0) && (right_ >? 0))) eqn:Hsame.
  - rewrite int_div_ok by lia. f_equal.
    assert (Hq : left_ ÷ right_ = left_ / right_ /\ 0 <= left_ / right_ <= Z.abs left_).
    { assert (Hnn : forall a b, 0 <= a -> 0 < b -> 0 <= a / b <= a).
      { intros a b Ha Hb. split; [apply Z.div_pos; lia|].
        apply Z.div_le_upper_bound; nia. }
      apply orb_true_iff in Hsame as [H|H]; apply andb_true_iff in H as [H1 H2].
      - apply Z.leb_le in H1. apply Z.ltb_lt in H2.
        replace left_ with (- - left_) by lia.
        replace right_ with (- - right_) by lia.
        rewrite Z.quot_opp_opp, Z.div_opp_opp by lia.
        rewrite Z.quot_div_nonneg by lia.
        split; [reflexivity|]. specialize (Hnn (- left_) (- right_)). lia.
      - rewrite Z.geb_leb in H1. apply Z.leb_le in H1.
        rewrite Z.gtb_ltb in H2. apply Z.ltb_lt in H2.
        rewrite Z.quot_div_nonneg by lia.
        split; [reflexivity|]. specialize (Hnn left_ right_). lia. }
    destruct Hq as [Hq Hb]. rewrite Hq. apply wrap32_id. unfold in_int32. lia.
  - rewrite (abs32_id left_), (abs32_id right_) by lia.
    rewrite (wrap32_id (Z.abs left_ + Z.abs right_)) by (unfold in_int32; lia).
    rewrite (wrap32_id (Z.abs left_ + Z.abs right_ - 1)) by (unfold in_int32; lia).
    rewrite (wrap32_id (- (Z.abs left_ + Z.abs right_ - 1))) by (unfold in_int32; lia).
    rewrite int_div_ok by lia. f_equal.
    rewrite Z.quot_opp_l by lia.
    rewrite Z.quot_div_nonneg by lia.
    rewrite <- div_opp_ceil by lia.
    assert (Hdiff : (left_ < 0 /\ 0 < right_) \/ (0 < left_ /\ right_ < 0)).
    { apply orb_false_iff in Hsame as [H1 H2].
      apply andb_false_iff in H1. apply andb_false_iff in H2.
      rewrite Z.leb_gt, Z.ltb_ge in H1.
      rewrite Z.geb_leb, Z.leb_gt, Z.gtb_ltb, Z.ltb_ge in H2. lia. }
    assert (Hfloor : - Z.abs left_ / Z.abs right_ = left_ / right_).
    { destruct Hdiff as [[H1 H2]|[H1 H2]].
      - rewrite (Z.abs_neq left_), (Z.abs_eq right_) by lia.
        rewrite Z.opp_involutive. reflexivity.
      - rewrite (Z.abs_eq left_), (Z.abs_neq right_) by lia.
        apply Z.div_opp_opp. lia. }
    rewrite Hfloor. apply wrap32_id. unfold in_int32.
    assert (Z.abs (left_ / right_) <= Z.abs left_ + 1).
    { rewrite <- Hfloor.
      pose proof (Z.div_pos (Z.abs left_ + Z.abs right_ - 1) (Z.abs right_)).
      pose proof (Z.div_le_upper_bound (Z.abs left_ + Z.abs right_ - 1) (Z.abs right_) (Z.abs left_)).
      rewrite div_opp_ceil by lia. nia. }
    lia.
Qed.

Lemma solve_loop_divide (left_ right_ : Z) (rest stack : list Element) :
  ExpressionSolver.solve_loop (Operator "/" :: rest) (Value right_ :: Value left_ :: stack)
  = if right_ =? 0 then Throw DivisionByZero
    else q ← Elem.divide (wrap32 left_) (wrap32 right_);
         ExpressionSolver.solve_loop rest (Value q :: stack).
Proof.
  cbn [ExpressionSolver.solve_loop]. change (Elem.label (Operator "/")) with BINARY_OPERATION.
  change (Elem.label (Value left_)) with VALUE.
  change (Elem.label (Value right_)) with VALUE.
  rewrite proceed_divide. cbn [bool_decide decide_rel orb].
  destruct (right_ =? 0); [reflexivity|].
  destruct (Elem.divide (wrap32 left_) (wrap32 right_)); reflexivity.
Qed.

(** C1, as stated, fails: -7 / 2 evaluates to -4, the quotient rounded
    down, not to the truncated -3. *)
Lemma division_truncation_fails :
  ExpressionSolver.evaluate [Value (-7); Value 2; Operator "/"] <> Ok (-7 ÷ 2)
  /\ ExpressionSolver.evaluate [Value (-7); Value 2; Operator "/"] <> Ok (-3)
  /\ ExpressionSolver.solve [Value (-7); Value 2; Operator "/"] = Ok "-IV".
Proof. repeat split; vm_compute; discriminate. Qed.

(** C1, amended.  For every [/] the evaluator applies: a right operand 0
    throws the division-by-zero error; otherwise, for operands that fit a
    32-bit [int] together ([|left| + |right| <= INT_MAX]), the result is the
    quotient rounded toward minus infinity (floor division) for every sign
    combination; [Value(-7), Value(2), Operator('/')] evaluates to -4. *)
Theorem division_rounds_down (left_ right_ : Z) (rest stack : list Element) :
  (right_ = 0 ->
   ExpressionSolver.solve_loop (Operator "/" :: rest)
     (Value right_ :: Value left_ :: stack) = Throw DivisionByZero)
  /\ (right_ <> 0 ->
      in_int32 left_ -> in_int32 right_ ->
      Z.abs left_ + Z.abs right_ <= max_int32 ->
      ExpressionSolver.solve_loop (Operator "/" :: rest)
        (Value right_ :: Value left_ :: stack)
      = ExpressionSolver.solve_loop rest (Value (left_ / right_) :: stack))
  /\ ExpressionSolver.evaluate [Value (-7); Value 2; Operator "/"] = Ok (-4).
Proof.
  rewrite solve_loop_divide. split; [|split].
  - intros ->. reflexivity.
  - intros Hr Hl32 Hr32 Hsum.
    destruct (right_ =? 0) eqn:Hz; [apply Z.eqb_eq in Hz; contradiction|].
    rewrite !wrap32_id by assumption.
    rewrite divide_floor by assumption. reflexivity.
  - vm_compute. reflexivity.
Qed.

Lemma division_rounds_down_witness :
  ExpressionSolver.solve_loop (Operator "/" :: []) (Value 2 :: Value (-7) :: [])
  = ExpressionSolver.solve_loop [] (Value (-7 / 2) :: []).
Proof.
  apply (division_rounds_down (-7) 2 [] []).
  - lia.
  - vm_compute. split; discriminate.
  - vm_compute. split; discriminate.
  - vm_compute. discriminate.
Defined.

(** C10.  The evaluator's [/] converts both [int64_t] operands to 32-bit
    [int] before dividing: the converted operand is the 32-bit integer
    congruent to the operand modulo 2^32, and the result is computed from
    the converted operands alone.  When the divisor is not 0 and the
    converted operands fit an [int] together, the result is their quotient
    rounded down; when the divisor is not 0 but a multiple of 2^32, its
    conversion is 0 and the division is refused by the processor, nothing
    being thrown.  So on some operands that fit 64 but not 32 bits the
    result differs from the 64-bit quotient, truncated or rounded down:
    (2^32 + 7) / (2^32 + 2) evaluates to 3.  Such operands are reachable,
    since only the final encoding is bounded: "M*M*M*V/M/M/M" is Z, not
    V. *)
Theorem division_narrows_to_int (left_ right_ : Z) (rest stack : list Element) :
  (in_int32 (wrap32 left_) /\ wrap32 left_ mod 2 ^ 32 = left_ mod 2 ^ 32
   /\ (in_int32 left_ -> wrap32 left_ = left_))
  /\ (right_ <> 0 -> wrap32 right_ <> 0 ->
      Z.abs (wrap32 left_) + Z.abs (wrap32 right_) <= max_int32 ->
      ExpressionSolver.solve_loop (Operator "/" :: rest)
        (Value right_ :: Value left_ :: stack)
      = ExpressionSolver.solve_loop rest
          (Value (wrap32 left_ / wrap32 right_) :: stack))
  /\ (right_ <> 0 -> wrap32 right_ = 0 ->
      ExpressionSolver.solve_loop (Operator "/" :: rest)
        (Value right_ :: Value left_ :: stack) = Trap)
  /\ (exists a b q,
         in_int64 a /\ in_int64 b /\ ~ in_int32 a /\ ~ in_int32 b /\ b <> 0
         /\ ExpressionSolver.evaluate [Value a; Value b; Operator "/"] = Ok q
         /\ q = wrap32 a / wrap32 b /\ q <> a ÷ b /\ q <> a / b)
  /\ ExpressionSolver.parse "M*M*M*V/M" =
       Ok [Value 1000; Value 1000; Operator "*"; Value 1000; Operator "*";
           Value 5; Operator "*"; Value 1000; Operator "/"]
  /\ ExpressionSolver.evaluate
       [Value 1000; Value 1000; Operator "*"; Value 1000; Operator "*";
        Value 5; Operator "*"; Value 1000; Operator "/"]
     = Ok (wrap32 5000000000 / 1000)
  /\ ExpressionSolver.calc "M*M*M*V/M/M/M" = Ok "Z".
Proof.
  split; [split; [apply wrap32_range|split; [apply wrap32_mod|apply wrap32_id]]|].
  rewrite solve_loop_divide.
  split; [|split].
  - intros Hr Hn Hsum.
    destruct (right_ =? 0) eqn:Hz; [apply Z.eqb_eq in Hz; contradiction|].
    rewrite divide_floor; [reflexivity|assumption|apply wrap32_range..|assumption].
  - intros Hr Hn.
    destruct (right_ =? 0) eqn:Hz; [apply Z.eqb_eq in Hz; contradiction|].
    rewrite Hn. unfold Elem.divide.
    change (0 <? 0) with false. change (0 >? 0) with false.
    rewrite !andb_false_r. cbn [orb].
    change (abs32 0) with 0. reflexivity.
  - split; [|split; [|split]];
      [|vm_compute; reflexivity|vm_compute; reflexivity|vm_compute; reflexivity].
    exists (2 ^ 32 + 7), (2 ^ 32 + 2), 3.
    split; [vm_compute; split; discriminate|].
    split; [vm_compute; split; discriminate|].
    split; [vm_compute; intros [_ H]; apply H; reflexivity|].
    split; [vm_compute; intros [_ H]; apply H; reflexivity|].
    split; [vm_compute; discriminate|].
    split; [vm_compute; reflexivity|].
    split; [vm_compute; reflexivity|].
    split; vm_compute; discriminate.
Qed.

Lemma division_narrows_to_int_witness :
  ExpressionSolver.solve_loop (Operator "/" :: []) (Value 2 :: Value (2 ^ 32 + 7) :: [])
  = ExpressionSolver.solve_loop [] (Value (wrap32 (2 ^ 32 + 7) / wrap32 2) :: [])
  /\ ExpressionSolver.solve_loop (Operator "/" :: []) (Value (2 ^ 32) :: Value 1 :: [])
     = Trap.
Proof.
  split.
  - apply (division_narrows_to_int (2 ^ 32 + 7) 2 [] []).
    + lia.
    + vm_compute. discriminate.
    + vm_compute. discriminate.
  - apply (division_narrows_to_int 1 (2 ^ 32) [] []).
    + lia.
    + reflexivity.
Defined.

(** ** C5: the end of the evaluation *)

Lemma solve_loop_values (vs : list Z) (stack : list Element) :
  ExpressionSolver.solve_loop (map Value vs) stack = Ok (rev (map Value vs) ++ stack)%list.
Proof.
  revert stack. induction vs as [|v vs IH]; intros stack; [reflexivity|].
  cbn [map ExpressionSolver.solve_loop rev].
  change (Elem.label (Value v)) with VALUE. cbn [bool_decide decide_rel].
  rewrite IH, <- app_assoc. reflexivity.
Qed.

Lemma solve_loop_nonempty (out stack stack' : list Element) :
  ExpressionSolver.solve_loop out stack = Ok stack' ->
  out <> [] \/ stack <> [] -> stack' <> [].
Proof.
  revert stack. induction out as [|element out IH]; intros stack Hloop Hne.
  - injection Hloop as <-. destruct Hne as [H|H]; [contradiction|exact H].
  - cbn [ExpressionSolver.solve_loop] in Hloop.
    destruct (bool_decide (Elem.label element = BINARY_OPERATION)).
    + destruct stack as [|right_ [|left_ stack]]; try discriminate.
      destruct (_ || _); [discriminate|].
      destruct (Elem.proceed element left_ right_) as [r| | |]; try discriminate.
      cbn in Hloop. apply (IH _ Hloop). right. discriminate.
    + apply (IH _ Hloop). right. discriminate.
Qed.

(** When only values are left, however many, the evaluator returns the
    bottom one ([stack[0]]). *)
Lemma evaluate_returns_bottom_value (v : Z) (vs : list Z) :
  ExpressionSolver.evaluate (Value v :: map Value vs) = Ok v.
Proof.
  unfold ExpressionSolver.evaluate.
  change (Value v :: map Value vs) with (map Value (v :: vs)).
  rewrite solve_loop_values. cbn [map rev mbind outcome_bind].
  rewrite app_nil_r. unfold ExpressionSolver.stack_0. rewrite last_snoc.
  reflexivity.
Qed.

(** C5.  At the end of the scan [solve] does not look at the size of the
    stack: it tests the label of [stack[0]] and encodes its value.  So a
    postfix sequence that leaves two or more values is not refused: a
    sequence of values only, however many, leaves them all on the stack
    and evaluates to the first one.  [Value(2), Value(3)], the postfix
    form of the line "II(III)", leaves two values and is answered with II,
    and "II(III+IV)" leaves 2 and 7 and is answered with II, where the
    claim has the format error. *)
Theorem leftover_values_accepted :
  (forall v vs,
      ExpressionSolver.solve_loop (Value v :: map Value vs) []
      = Ok (rev (map Value vs) ++ [Value v])%list
      /\ ExpressionSolver.evaluate (Value v :: map Value vs) = Ok v)
  /\ ExpressionSolver.parse "II(III)" = Ok [Value 2; Value 3]
  /\ ExpressionSolver.solve_loop [Value 2; Value 3] [] = Ok [Value 3; Value 2]
  /\ ExpressionSolver.evaluate [Value 2; Value 3] = Ok 2
  /\ ExpressionSolver.solve [Value 2; Value 3] = Ok "II"
  /\ ExpressionSolver.solve [Value 2; Value 3] <> Throw MalformedExpression
  /\ ExpressionSolver.calc "II(III)" = Ok "II"
  /\ ExpressionSolver.parse "II(III+IV)"
     = Ok [Value 2; Value 3; Value 4; Operator "+"]
  /\ ExpressionSolver.solve_loop [Value 2; Value 3; Value 4; Operator "+"] []
     = Ok [Value 7; Value 2]
  /\ ExpressionSolver.calc "II(III+IV)" = Ok "II".
Proof.
  split.
  - intros v vs. split; [|apply evaluate_returns_bottom_value].
    change (Value v :: map Value vs) with (map Value (v :: vs)).
    rewrite solve_loop_values. cbn [map rev]. rewrite app_nil_r. reflexivity.
  - repeat split; try (vm_compute; reflexivity). vm_compute. discriminate.
Qed.

(** ** C9: the empty expression *)

Lemma erase_all_spaces (s : string) :
  all_spaces s = true -> ExpressionSolver.erase_spaces s = "".
Proof.
  induction s as [|x s IH]; [reflexivity|].
  cbn [all_spaces ExpressionSolver.erase_spaces]. intros H.
  apply andb_true_iff in H as [Hx Hs]. rewrite Hx. auto.
Qed.

(** C9.  For an expression that is empty or made of whitespace only, the
    parser yields the empty postfix sequence, the evaluator turns it into
    the zero symbol "Z", and no error is thrown. *)
Theorem blank_expression_is_zero (expression : string) :
  all_spaces expression = true ->
  ExpressionSolver.parse expression = Ok []
  /\ ExpressionSolver.solve [] = Ok "Z"
  /\ ExpressionSolver.calc expression = Ok "Z".
Proof.
  intros Hblank.
  assert (Hparse : ExpressionSolver.parse expression = Ok []).
  { unfold ExpressionSolver.parse. rewrite (erase_all_spaces _ Hblank). reflexivity. }
  repeat split; [exact Hparse|].
  unfold ExpressionSolver.calc. rewrite Hparse. reflexivity.
Qed.

Lemma blank_expression_is_zero_witness :
  ExpressionSolver.calc (String " " (String "009" (String "010" ""))) = Ok "Z".
Proof.
  apply (blank_expression_is_zero (String " " (String "009" (String "010" "")))).
  reflexivity.
Defined.

(** ** The scan: cursor lemmas and termination *)

Ltac size_lia := unfold size in *; cbn [String.length] in *; lia.

Lemma char_at_beyond (data_ : string) (i : nat) :
  (size data_ <= i)%nat -> char_at data_ i = NUL.
Proof.
  revert i. induction data_ as [|c data_ IH]; intros i Hi; [reflexivity|].
  destruct i as [|i]; [size_lia|].
  simpl. apply IH. size_lia.
Qed.

Lemma char_at_not_nul (data_ : string) (i : nat) :
  char_at data_ i <> NUL -> (i < size data_)%nat.
Proof.
  intros Hc. destruct (Nat.lt_ge_cases i (size data_)) as [H|H]; [exact H|].
  exfalso. apply Hc, char_at_beyond, H.
Qed.

Lemma is_roman_in_range (data_ : string) (i : nat) :
  ExpressionSolver.is_roman (char_at data_ i) = true -> (i < size data_)%nat.
Proof.
  intros Hr. apply char_at_not_nul. intros Hnul. rewrite Hnul in Hr. discriminate.
Qed.

Lemma drop_char_at (data_ : string) (i : nat) :
  (i < size data_)%nat ->
  ExpressionSolver.drop i data_
  = String (char_at data_ i) (ExpressionSolver.drop (S i) data_).
Proof.
  revert i. induction data_ as [|c data_ IH]; intros i Hi; [size_lia|].
  destruct i as [|i]; [reflexivity|].
  cbn [ExpressionSolver.drop char_at]. apply IH. size_lia.
Qed.

Lemma roman_run_nonempty (data_ : string) (i : nat) :
  ExpressionSolver.is_roman (char_at data_ i) = true ->
  (1 <= size (ExpressionSolver.roman_run (ExpressionSolver.drop i data_)))%nat.
Proof.
  intros Hr. rewrite drop_char_at by (apply is_roman_in_range, Hr).
  cbn [ExpressionSolver.roman_run]. rewrite Hr. size_lia.
Qed.

Lemma step_advances (data_ : string) (st st' : ExpressionSolver.state) :
  ExpressionSolver.step data_ st = Ok st' ->
  (ExpressionSolver.position_ st < ExpressionSolver.position_ st')%nat.
Proof.
  unfold ExpressionSolver.step, ExpressionSolver.read_number.
  destruct (ExpressionSolver.is_roman _) eqn:Hroman.
  { intros [= <-]. cbn [ExpressionSolver.position_].
    pose proof (roman_run_nonempty _ _ Hroman). lia. }
  destruct (eqc _ "("%char); [intros [= <-]; simpl; lia|].
  destruct (eqc _ ")"%char).
  { destruct (ExpressionSolver.pop_to_bracket _ _) as [[|? ?] ?];
      [discriminate|intros [= <-]; simpl; lia]. }
  destruct (ExpressionSolver.is_operation _); [|discriminate].
  destruct (ExpressionSolver.is_unary _ _); [intros [= <-]; simpl; lia|].
  destruct (ExpressionSolver.pop_priority _ _ _). intros [= <-]. simpl. lia.
Qed.

Lemma scan_enough_fuel (fuel : nat) (data_ : string) (st : ExpressionSolver.state) :
  (size data_ - ExpressionSolver.position_ st <= fuel)%nat ->
  ExpressionSolver.scan fuel data_ st <> OutOfFuel.
Proof.
  revert st. induction fuel as [|fuel IH]; intros st Hfuel.
  - cbn [ExpressionSolver.scan].
    destruct (ExpressionSolver.position_ st <? size data_)%nat eqn:Hlt; [|discriminate].
    apply Nat.ltb_lt in Hlt. lia.
  - cbn [ExpressionSolver.scan].
    destruct (ExpressionSolver.position_ st <? size data_)%nat eqn:Hlt; [|discriminate].
    destruct (ExpressionSolver.step data_ st) as [st'| | |] eqn:Hstep.
    + cbn. apply IH. apply step_advances in Hstep. lia.
    + discriminate.
    + discriminate.
    + exfalso. revert Hstep. unfold ExpressionSolver.step, ExpressionSolver.read_number.
      repeat match goal with
             | |- context [if ?b then _ else _] => destruct b
             | |- context [let '(_, _) := ?p in _] => destruct p
             | |- context [match ?l with [] => _ | _ :: _ => _ end] => destruct l
             end; discriminate.
Qed.

Lemma flush_total (stack out : list Element) :
  ExpressionSolver.flush stack out <> OutOfFuel.
Proof.
  revert out. induction stack as [|top rest IH]; intros out; [discriminate|].
  cbn [ExpressionSolver.flush]. destruct (bool_decide _); [discriminate|apply IH].
Qed.

(** The constructor always returns or throws: the fuel of [parse] is enough. *)
Lemma parse_terminates (expression : string) :
  ExpressionSolver.parse expression <> OutOfFuel.
Proof.
  unfold ExpressionSolver.parse.
  destruct (ExpressionSolver.scan _ _ _) as [st| | |] eqn:Hscan.
  - cbn. apply flush_total.
  - discriminate.
  - discriminate.
  - exfalso. revert Hscan. apply scan_enough_fuel. simpl. lia.
Qed.

(** ** The turns of the scan *)

Lemma is_operation_cases (c : ascii) :
  ExpressionSolver.is_operation c = true ->
  c = "+"%char \/ c = "-"%char \/ c = "*"%char \/ c = "/"%char.
Proof.
  unfold ExpressionSolver.is_operation, eqc.
  rewrite !orb_true_iff, !Ascii.eqb_eq. tauto.
Qed.

Lemma step_at_operation (data_ : string) (st : ExpressionSolver.state) :
  ExpressionSolver.is_operation (char_at data_ (ExpressionSolver.position_ st)) = true ->
  ExpressionSolver.step data_ st
  = if ExpressionSolver.is_unary data_ (ExpressionSolver.position_ st) then
      Ok {| ExpressionSolver.position_ := ExpressionSolver.position_ st + 1;
            ExpressionSolver.unarity := -1;
            ExpressionSolver.stack := ExpressionSolver.stack st;
            ExpressionSolver.out := ExpressionSolver.out st |}
    else
      let current := Operator (char_at data_ (ExpressionSolver.position_ st)) in
      let '(stack', out') :=
        ExpressionSolver.pop_priority current (ExpressionSolver.stack st)
          (ExpressionSolver.out st) in
      Ok {| ExpressionSolver.position_ := ExpressionSolver.position_ st + 1;
            ExpressionSolver.unarity := 1;
            ExpressionSolver.stack := current :: stack';
            ExpressionSolver.out := out' |}.
Proof.
  intros Hop. unfold ExpressionSolver.step.
  destruct (is_operation_cases _ Hop) as [H|[H|[H|H]]]; rewrite H; reflexivity.
Qed.

Lemma step_at_roman (data_ : string) (st : ExpressionSolver.state) :
  ExpressionSolver.is_roman (char_at data_ (ExpressionSolver.position_ st)) = true ->
  ExpressionSolver.step data_ st
  = let run := ExpressionSolver.roman_run
                 (ExpressionSolver.drop (ExpressionSolver.position_ st) data_) in
    Ok {| ExpressionSolver.position_ := ExpressionSolver.position_ st + size run;
          ExpressionSolver.unarity := 1;
          ExpressionSolver.stack := ExpressionSolver.stack st;
          ExpressionSolver.out :=
            ExpressionSolver.out st
            ++ [Value (wrap64 (RomanConverter.to_int64 run * ExpressionSolver.unarity st))] |}.
Proof.
  intros Hr. unfold ExpressionSolver.step, ExpressionSolver.read_number.
  rewrite Hr. cbv zeta. pose proof (roman_run_nonempty _ _ Hr) as Hn.
  do 2 f_equal. lia.
Qed.

(** ** C3: the unary minus *)

Lemma is_unary_iff (data_ : string) (current : nat) :
  ExpressionSolver.is_unary data_ current = true <->
  char_at data_ current = "-"%char
  /\ ((current + 1 < size data_)%nat
      /\ (char_at data_ (current + 1) = "("%char
          \/ ExpressionSolver.is_roman (char_at data_ (current + 1)) = true))
  /\ (current = 0%nat
      \/ exists before, current = S before
           /\ (ExpressionSolver.is_operation (char_at data_ before) = true
               \/ char_at data_ before = ")"%char)).
Proof.
  unfold ExpressionSolver.is_unary, eqc.
  rewrite !andb_true_iff, !orb_true_iff, !andb_true_iff, !orb_true_iff.
  rewrite !Ascii.eqb_eq, !Nat.ltb_lt, Nat.eqb_eq.
  split.
  - intros [[Hnext Hminus] Hbefore]. split; [exact Hminus|]. split.
    + destruct Hnext as [[Hlt Hopen]|Hroman]; [tauto|].
      split; [apply is_roman_in_range, Hroman|tauto].
    + destruct Hbefore as [H0|[Hpos Hprev]]; [tauto|]. right.
      destruct current as [|before]; [lia|]. exists before.
      replace (S before - 1)%nat with before in Hprev by lia. tauto.
  - intros (Hminus & [Hlt Hnext] & Hbefore). repeat split.
    + tauto.
    + exact Hminus.
    + destruct Hbefore as [H0|(before & -> & Hprev)]; [tauto|]. right.
      replace (S before - 1)%nat with before by lia. split; [lia|tauto].
Qed.




(** ** C6: operator precedence *)

Lemma pop_priority_spec (current : Element) (stack out : list Element) :
  exists popped rest,
    stack = (popped ++ rest)%list
    /\ Forall (fun e => Elem.priority current <= Elem.priority e) popped
    /\ (forall top rest', rest = top :: rest' -> Elem.priority top < Elem.priority current)
    /\ ExpressionSolver.pop_priority current stack out = (rest, (out ++ popped)%list).
Proof.
  revert out. induction stack as [|top stack IH]; intros out.
  - exists [], []. rewrite (app_nil_r out).
    split; [reflexivity|]. split; [constructor|]. split; [discriminate|reflexivity].
  - cbn [ExpressionSolver.pop_priority].
    destruct (Elem.priority top >=? Elem.priority current) eqn:Hge.
    + destruct (IH (out ++ [top])%list) as (popped & rest & -> & Hall & Hrest & Hpop).
      exists (top :: popped), rest. rewrite Hpop, <- app_assoc.
      split; [reflexivity|]. split; [|split; [exact Hrest|reflexivity]].
      constructor; [|exact Hall]. rewrite Z.geb_leb in Hge. apply Z.leb_le, Hge.
    + exists [], (top :: stack). rewrite (app_nil_r out).
      split; [reflexivity|]. split; [constructor|]. split; [|reflexivity].
      intros top' rest' [= <- <-]. rewrite Z.geb_leb in Hge. apply Z.leb_gt, Hge.
Qed.

(** C6.  When the scan meets an operator character that is not a unary
    minus, it moves to the output, in popping order, the longest run of
    stack tops whose rank is at least the new operator's, and then pushes
    the new operator; [+] and [-] have rank 0, [*] and [/] rank 1, brackets
    rank -1.  So "II+III*II" is II III II * + in postfix and evaluates to
    VIII. *)
Theorem operator_precedence (data_ : string) (st : ExpressionSolver.state) :
  let c := char_at data_ (ExpressionSolver.position_ st) in
  (ExpressionSolver.is_operation c = true ->
   ExpressionSolver.is_unary data_ (ExpressionSolver.position_ st) = false ->
   exists popped rest,
     ExpressionSolver.stack st = (popped ++ rest)%list
     /\ Forall (fun e => Elem.priority (Operator c) <= Elem.priority e) popped
     /\ (forall top rest', rest = top :: rest' ->
           Elem.priority top < Elem.priority (Operator c))
     /\ ExpressionSolver.step data_ st
        = Ok {| ExpressionSolver.position_ := ExpressionSolver.position_ st + 1;
                ExpressionSolver.unarity := 1;
                ExpressionSolver.stack := Operator c :: rest;
                ExpressionSolver.out := ExpressionSolver.out st ++ popped |})
  /\ (Elem.priority (Operator "+") = 0 /\ Elem.priority (Operator "-") = 0
      /\ Elem.priority (Operator "*") = 1 /\ Elem.priority (Operator "/") = 1
      /\ Elem.priority (Bracket "(") = -1 /\ Elem.priority (Bracket ")") = -1)
  /\ ExpressionSolver.parse "II+III*II"
     = Ok [Value 2; Value 3; Value 2; Operator "*"; Operator "+"]
  /\ ExpressionSolver.calc "II+III*II" = Ok "VIII".
Proof.
  intros c. split; [|repeat split; vm_compute; reflexivity].
  intros Hop Hbinary. rewrite step_at_operation by exact Hop.
  rewrite Hbinary. fold c. cbv zeta.
  destruct (pop_priority_spec (Operator c) (ExpressionSolver.stack st)
              (ExpressionSolver.out st)) as (popped & rest & Hstack & Hall & Hrest & Hpop).
  exists popped, rest. rewrite Hpop. auto.
Qed.

Lemma operator_precedence_witness :
  exists popped rest,
    [Operator "*"; Operator "+"; Bracket "("; Operator "-"] = (popped ++ rest)%list
    /\ Forall (fun e => Elem.priority (Operator "+") <= Elem.priority e) popped
    /\ (forall top rest', rest = top :: rest' ->
          Elem.priority top < Elem.priority (Operator "+"))
    /\ ExpressionSolver.step "I-(I+I*I+I)"
         (ExpressionSolver.mkState 8 1
            [Operator "*"; Operator "+"; Bracket "("; Operator "-"]
            [Value 1; Value 1; Value 1; Value 1])
       = Ok (ExpressionSolver.mkState 9 1 (Operator "+" :: rest)
               ([Value 1; Value 1; Value 1; Value 1] ++ popped)).
Proof.
  apply (operator_precedence "I-(I+I*I+I)"
           (ExpressionSolver.mkState 8 1
              [Operator "*"; Operator "+"; Bracket "("; Operator "-"]
              [Value 1; Value 1; Value 1; Value 1])); reflexivity.
Defined.

(** ** C8: unbalanced brackets *)

Lemma pop_to_bracket_empty_iff (stack out : list Element) :
  fst (ExpressionSolver.pop_to_bracket stack out) = []
  <-> Forall (fun e => ~ is_bracket e) stack.
Proof.
  revert out. induction stack as [|top stack IH]; intros out.
  - split; [constructor|reflexivity].
  - cbn [ExpressionSolver.pop_to_bracket]. unfold is_bracket at 1.
    destruct (bool_decide (Elem.label top ≠ BRACKET)) eqn:Htop.
    + apply bool_decide_eq_true in Htop. rewrite IH. split.
      * intros Hall. constructor; assumption.
      * intros Hall. inversion Hall; assumption.
    + apply bool_decide_eq_false in Htop. split; [discriminate|].
      intros Hall. inversion Hall; subst. contradiction.
Qed.

Lemma pop_to_bracket_suffix (P : Element -> Prop) (stack out : list Element) :
  Forall P stack -> Forall P (fst (ExpressionSolver.pop_to_bracket stack out)).
Proof.
  revert out. induction stack as [|top stack IH]; intros out Hall; [constructor|].
  cbn [ExpressionSolver.pop_to_bracket].
  destruct (bool_decide _); [|exact Hall].
  apply IH. inversion Hall; assumption.
Qed.

Lemma pop_priority_suffix (P : Element -> Prop) (current : Element)
    (stack out : list Element) :
  Forall P stack -> Forall P (fst (ExpressionSolver.pop_priority current stack out)).
Proof.
  revert out. induction stack as [|top stack IH]; intros out Hall; [constructor|].
  cbn [ExpressionSolver.pop_priority].
  destruct (_ >=? _); [|exact Hall].
  apply IH. inversion Hall; assumption.
Qed.

(** The only throws of a turn: the close bracket without an open one, and
    the unknown character. *)
Lemma step_throws (data_ : string) (st : ExpressionSolver.state) (e : logic_error) :
  ExpressionSolver.step data_ st = Throw e ->
  (e = UnbalancedBrackets
   /\ char_at data_ (ExpressionSolver.position_ st) = ")"%char
   /\ Forall (fun e => ~ is_bracket e) (ExpressionSolver.stack st))
  \/ e = BadSymbol (ExpressionSolver.position_ st + 1).
Proof.
  unfold ExpressionSolver.step, ExpressionSolver.read_number.
  destruct (ExpressionSolver.is_roman _); [discriminate|].
  destruct (eqc _ "("%char); [discriminate|].
  destruct (eqc _ ")"%char) eqn:Hclose.
  { apply Ascii.eqb_eq in Hclose.
    destruct (ExpressionSolver.pop_to_bracket _ _) as [stack' out'] eqn:Hpop.
    destruct stack' as [|? ?]; [|discriminate].
    intros [= <-]. left. repeat split; [exact Hclose|].
    apply (pop_to_bracket_empty_iff _ (ExpressionSolver.out st)).
    rewrite Hpop. reflexivity. }
  destruct (ExpressionSolver.is_operation _).
  { destruct (ExpressionSolver.is_unary _ _); [discriminate|].
    destruct (ExpressionSolver.pop_priority _ _ _). discriminate. }
  intros [= <-]. right. reflexivity.
Qed.

Lemma step_close_unbalanced (data_ : string) (st : ExpressionSolver.state) :
  char_at data_ (ExpressionSolver.position_ st) = ")"%char ->
  Forall (fun e => ~ is_bracket e) (ExpressionSolver.stack st) ->
  ExpressionSolver.step data_ st = Throw UnbalancedBrackets.
Proof.
  intros Hclose Hnone. unfold ExpressionSolver.step. rewrite Hclose.
  change (ExpressionSolver.is_roman ")"%char) with false.
  change (eqc ")"%char "("%char) with false.
  change (eqc ")"%char ")"%char) with true. cbv iota.
  apply (pop_to_bracket_empty_iff _ (ExpressionSolver.out st)) in Hnone.
  destruct (ExpressionSolver.pop_to_bracket _ _) as [stack' out'].
  simpl in Hnone. subst stack'. reflexivity.
Qed.

Lemma step_stack_ok (data_ : string) (st st' : ExpressionSolver.state) :
  stack_ok (ExpressionSolver.stack st) ->
  ExpressionSolver.step data_ st = Ok st' ->
  stack_ok (ExpressionSolver.stack st').
Proof.
  unfold stack_ok. intros Hok.
  unfold ExpressionSolver.step, ExpressionSolver.read_number.
  destruct (ExpressionSolver.is_roman _); [intros [= <-]; exact Hok|].
  destruct (eqc _ "("%char).
  { intros [= <-]. constructor; [left; reflexivity|exact Hok]. }
  destruct (eqc _ ")"%char).
  { pose proof (pop_to_bracket_suffix _ _ (ExpressionSolver.out st) Hok) as Hsuffix.
    destruct (ExpressionSolver.pop_to_bracket _ _) as [stack' out'].
    destruct stack' as [|top stack'']; [discriminate|].
    intros [= <-]. simpl in Hsuffix. inversion Hsuffix; assumption. }
  destruct (ExpressionSolver.is_operation _); [|discriminate].
  destruct (ExpressionSolver.is_unary _ _); [intros [= <-]; exact Hok|].
  match goal with
  | |- context [ExpressionSolver.pop_priority ?c _ _] =>
      pose proof (pop_priority_suffix _ c _ (ExpressionSolver.out st) Hok) as Hsuffix
  end.
  destruct (ExpressionSolver.pop_priority _ _ _) as [stack' out'].
  intros [= <-]. constructor; [right; reflexivity|exact Hsuffix].
Qed.

Lemma reaches_stack_ok (data_ : string) (st st' : ExpressionSolver.state) :
  reaches data_ st st' ->
  stack_ok (ExpressionSolver.stack st) -> stack_ok (ExpressionSolver.stack st').
Proof.
  induction 1 as [st|st st1 st2 Hlt Hstep Hreach IH]; [auto|].
  intros Hok. apply IH. eapply step_stack_ok; eassumption.
Qed.

Lemma flush_throws_iff (stack out : list Element) (e : logic_error) :
  ExpressionSolver.flush stack out = Throw e
  <-> e = UnbalancedBrackets /\ Exists (fun e => ~ is_operator e) stack.
Proof.
  revert out. induction stack as [|top stack IH]; intros out.
  - split; [discriminate|]. intros [_ Hex]. inversion Hex.
  - cbn [ExpressionSolver.flush]. unfold is_operator at 1.
    destruct (bool_decide (Elem.label top ≠ BINARY_OPERATION)) eqn:Htop.
    + apply bool_decide_eq_true in Htop. split.
      * intros [= <-]. split; [reflexivity|]. constructor. exact Htop.
      * intros [-> _]. reflexivity.
    + apply bool_decide_eq_false in Htop. rewrite IH. split.
      * intros [-> Hex]. split; [reflexivity|]. apply Exists_cons_tl, Hex.
      * intros [-> Hex]. split; [reflexivity|].
        inversion Hex; subst; [contradiction|assumption].
Qed.

Lemma stack_ok_bracket (stack : list Element) :
  stack_ok stack ->
  Exists (fun e => ~ is_operator e) stack <-> Exists is_bracket stack.
Proof.
  unfold stack_ok, is_operator, is_bracket. intros Hok.
  rewrite !Exists_exists. rewrite Forall_forall in Hok.
  split; intros (e & Hin & He); exists e; (split; [exact Hin|]).
  - destruct (Hok e Hin) as [H|H]; [exact H|contradiction].
  - rewrite He. discriminate.
Qed.

Lemma scan_returns (fuel : nat) (data_ : string) (st st' : ExpressionSolver.state) :
  ExpressionSolver.scan fuel data_ st = Ok st' ->
  reaches data_ st st' /\ (size data_ <= ExpressionSolver.position_ st')%nat.
Proof.
  revert st. induction fuel as [|fuel IH]; intros st; cbn [ExpressionSolver.scan];
    destruct (ExpressionSolver.position_ st <? size data_)%nat eqn:Hlt;
    try discriminate;
    try (intros [= <-]; apply Nat.ltb_ge in Hlt; split; [constructor|exact Hlt]).
  apply Nat.ltb_lt in Hlt.
  destruct (ExpressionSolver.step data_ st) as [st1| | |] eqn:Hstep; try discriminate.
  cbn. intros Hscan. destruct (IH _ Hscan) as [Hreach Hend].
  split; [|exact Hend]. econstructor; eassumption.
Qed.

Lemma scan_throws (fuel : nat) (data_ : string) (st : ExpressionSolver.state)
    (e : logic_error) :
  ExpressionSolver.scan fuel data_ st = Throw e ->
  exists st', reaches data_ st st'
              /\ (ExpressionSolver.position_ st' < size data_)%nat
              /\ ExpressionSolver.step data_ st' = Throw e.
Proof.
  revert st. induction fuel as [|fuel IH]; intros st; cbn [ExpressionSolver.scan];
    destruct (ExpressionSolver.position_ st <? size data_)%nat eqn:Hlt;
    try discriminate.
  apply Nat.ltb_lt in Hlt.
  destruct (ExpressionSolver.step data_ st) as [st1| | |] eqn:Hstep; try discriminate.
  - cbn. intros Hscan. destruct (IH _ Hscan) as (st' & Hreach & Hpos & Hthrow).
    exists st'. split; [econstructor; eassumption|auto].
  - cbn. intros [= <-]. exists st. split; [constructor|auto].
Qed.

Lemma reaches_scan_end (data_ : string) (st st' : ExpressionSolver.state) :
  reaches data_ st st' ->
  (size data_ <= ExpressionSolver.position_ st')%nat ->
  forall fuel, (size data_ - ExpressionSolver.position_ st <= fuel)%nat ->
  ExpressionSolver.scan fuel data_ st = Ok st'.
Proof.
  induction 1 as [st|st st1 st2 Hlt Hstep Hreach IH]; intros Hend fuel Hfuel.
  - apply Nat.ltb_ge in Hend. destruct fuel; cbn [ExpressionSolver.scan];
      rewrite Hend; reflexivity.
  - destruct fuel as [|fuel]; [lia|].
    cbn [ExpressionSolver.scan].
    apply Nat.ltb_lt in Hlt as Hlt'. rewrite Hlt', Hstep.
    pose proof (step_advances _ _ _ Hstep) as Hadv.
    apply IH; [exact Hend|lia].
Qed.

Lemma reaches_scan_throw (data_ : string) (st st' : ExpressionSolver.state)
    (e : logic_error) :
  reaches data_ st st' ->
  (ExpressionSolver.position_ st' < size data_)%nat ->
  ExpressionSolver.step data_ st' = Throw e ->
  forall fuel, (size data_ - ExpressionSolver.position_ st <= fuel)%nat ->
  ExpressionSolver.scan fuel data_ st = Throw e.
Proof.
  induction 1 as [st|st st1 st2 Hlt Hstep Hreach IH]; intros Hpos Hthrow fuel Hfuel.
  - destruct fuel as [|fuel]; [lia|].
    cbn [ExpressionSolver.scan].
    apply Nat.ltb_lt in Hpos. rewrite Hpos, Hthrow. reflexivity.
  - destruct fuel as [|fuel]; [lia|].
    cbn [ExpressionSolver.scan].
    apply Nat.ltb_lt in Hlt as Hlt'. rewrite Hlt', Hstep.
    pose proof (step_advances _ _ _ Hstep) as Hadv.
    apply IH; [exact Hpos|exact Hthrow|lia].
Qed.

(** C8.  Parsing throws the bracket error in exactly two situations: the
    scan reaches a close bracket while the operator stack holds no open
    bracket (popping empties it), or the scan reaches the end of the text
    while a bracket is still on the operator stack.  "(II+III" and
    "II+III)" both throw it. *)
Theorem unbalanced_brackets_iff (expression : string) :
  let data_ := ExpressionSolver.erase_spaces expression in
  (ExpressionSolver.parse expression = Throw UnbalancedBrackets
   <-> exists st,
         reaches data_ ExpressionSolver.initial st
         /\ (((ExpressionSolver.position_ st < size data_)%nat
              /\ char_at data_ (ExpressionSolver.position_ st) = ")"%char
              /\ Forall (fun e => ~ is_bracket e) (ExpressionSolver.stack st))
             \/ ((size data_ <= ExpressionSolver.position_ st)%nat
                 /\ Exists is_bracket (ExpressionSolver.stack st))))
  /\ ExpressionSolver.parse "(II+III" = Throw UnbalancedBrackets
  /\ ExpressionSolver.parse "II+III)" = Throw UnbalancedBrackets.
Proof.
  intros data_. split; [|split; vm_compute; reflexivity].
  unfold ExpressionSolver.parse. fold data_.
  assert (Hinit : stack_ok (ExpressionSolver.stack ExpressionSolver.initial))
    by constructor.
  split.
  - destruct (ExpressionSolver.scan (size data_) data_ ExpressionSolver.initial)
      as [st|e| |] eqn:Hscan; cbn; [| |discriminate|discriminate].
    + intros Hflush. apply flush_throws_iff in Hflush as [_ Hex].
      apply scan_returns in Hscan as [Hreach Hend].
      exists st. split; [exact Hreach|]. right. split; [exact Hend|].
      apply stack_ok_bracket; [|exact Hex].
      eapply reaches_stack_ok; eassumption.
    + intros [= ->]. apply scan_throws in Hscan as (st & Hreach & Hpos & Hthrow).
      exists st. split; [exact Hreach|]. left.
      apply step_throws in Hthrow as [(_ & Hclose & Hnone)|Hbad]; [auto|discriminate].
  - intros (st & Hreach & [(Hpos & Hclose & Hnone)|(Hend & Hex)]).
    + rewrite (reaches_scan_throw data_ _ st UnbalancedBrackets Hreach Hpos);
        [reflexivity| |simpl; lia].
      apply step_close_unbalanced; assumption.
    + rewrite (reaches_scan_end data_ _ st Hreach Hend) by (simpl; lia).
      cbn. apply flush_throws_iff. split; [reflexivity|].
      apply stack_ok_bracket; [|exact Hex].
      eapply reaches_stack_ok; eassumption.
Qed.


(** ** Termination of the whole pipeline *)

Lemma to_roman_terminates (v : Z) :
  in_int64 v -> RomanConverter.to_roman v <> OutOfFuel.
Proof.
  intros Hv. destruct (Z.eq_dec v min_int64) as [->|Hmin]; [vm_compute; discriminate|].
  destruct (Z.le_gt_cases (Z.abs v) 3999) as [Hle|Hgt].
  - destruct (to_roman_in_bound v Hle) as [s Hs]. rewrite Hs. discriminate.
  - assert (Hthrow : RomanConverter.to_roman v = Throw Overflow).
    { apply to_roman_overflow_iff; [unfold in_int64 in Hv|]; lia. }
    rewrite Hthrow. discriminate.
Qed.

Lemma in_int32_int64 (z : Z) : in_int32 z -> in_int64 z.
Proof.
  unfold in_int32, in_int64, min_int32, max_int32, min_int64, max_int64.
  change (2 ^ 31) with 2147483648. change (2 ^ 63) with 9223372036854775808. lia.
Qed.

Lemma code_range (c : ascii) : in_int64 (code c).
Proof.
  unfold code, in_int64, min_int64, max_int64.
  change (2 ^ 63) with 9223372036854775808.
  pose proof (N_ascii_bounded c).
  destruct (Z.of_N (N_of_ascii c) <? 128); lia.
Qed.

Lemma divide_range (left_ right_ q : Z) :
  Elem.divide left_ right_ = Ok q -> in_int64 q.
Proof.
  unfold Elem.divide, Elem.int_div.
  repeat match goal with
         | |- context [if ?b then _ else _] => destruct b
         end; try discriminate; intros [= <-]; apply in_int32_int64, wrap32_range.
Qed.

(** [divide] returns or is refused by the processor; it throws nothing. *)
Lemma divide_cases (left_ right_ : Z) :
  (exists q, Elem.divide left_ right_ = Ok q) \/ Elem.divide left_ right_ = Trap.
Proof.
  unfold Elem.divide, Elem.int_div.
  repeat match goal with
         | |- context [if ?b then _ else _] => destruct b
         end; eauto.
Qed.

Lemma proceed_value_ok (self left_ right_ r : Element) :
  Elem.proceed self left_ right_ = Ok r -> value_ok r.
Proof.
  unfold Elem.proceed, value_ok.
  destruct (value_ self =? code "+");
    [cbn; intros [= <-]; cbn; apply wrap64_range|].
  destruct (value_ self =? code "-");
    [cbn; intros [= <-]; cbn; apply wrap64_range|].
  destruct (value_ self =? code "*");
    [cbn; intros [= <-]; cbn; apply wrap64_range|].
  destruct (value_ self =? code "/").
  - destruct (Elem.value right_ =? 0); [discriminate|].
    destruct (Elem.divide _ _) as [q| | |] eqn:Hq; cbn; try discriminate.
    intros [= <-]. cbn. exact (divide_range _ _ _ Hq).
  - cbn. intros [= <-]. cbn.
    unfold in_int64. vm_compute. split; discriminate.
Qed.

Lemma pop_to_bracket_split (stack out : list Element) :
  exists popped,
    stack = (popped ++ fst (ExpressionSolver.pop_to_bracket stack out))%list
    /\ snd (ExpressionSolver.pop_to_bracket stack out) = (out ++ popped)%list.
Proof.
  revert out. induction stack as [|top stack IH]; intros out.
  - exists []. rewrite (app_nil_r out). split; reflexivity.
  - cbn [ExpressionSolver.pop_to_bracket]. destruct (bool_decide _).
    + destruct (IH (out ++ [top])%list) as (popped & Hstack & Hout).
      exists (top :: popped). rewrite Hout, <- app_assoc.
      split; [|reflexivity]. cbn [app]. f_equal. exact Hstack.
    + exists []. rewrite (app_nil_r out). split; reflexivity.
Qed.

Lemma step_values_ok (data_ : string) (st st' : ExpressionSolver.state) :
  Forall value_ok (ExpressionSolver.stack st) ->
  Forall value_ok (ExpressionSolver.out st) ->
  ExpressionSolver.step data_ st = Ok st' ->
  Forall value_ok (ExpressionSolver.stack st')
  /\ Forall value_ok (ExpressionSolver.out st').
Proof.
  intros Hstack Hout.
  destruct (ExpressionSolver.is_roman (char_at data_ (ExpressionSolver.position_ st)))
    eqn:Hroman.
  { rewrite step_at_roman by exact Hroman. intros [= <-]. cbn. split; [exact Hstack|].
    apply Forall_app. split; [exact Hout|].
    constructor; [apply wrap64_range|constructor]. }
  destruct (ExpressionSolver.is_operation (char_at data_ (ExpressionSolver.position_ st)))
    eqn:Hop.
  { rewrite step_at_operation by exact Hop.
    destruct (ExpressionSolver.is_unary _ _); [intros [= <-]; split; assumption|].
    cbv zeta.
    match goal with
    | |- context [ExpressionSolver.pop_priority ?c ?s ?o] =>
        destruct (pop_priority_spec c s o) as (popped & rest & Hsplit & _ & _ & Hpop)
    end.
    rewrite Hpop. intros [= <-]. cbn. rewrite Hsplit in Hstack.
    apply Forall_app in Hstack as [Hpopped Hrest]. split.
    - constructor; [apply code_range|exact Hrest].
    - apply Forall_app. split; assumption. }
  unfold ExpressionSolver.step. rewrite Hroman, Hop.
  destruct (eqc _ "("%char).
  { intros [= <-]. cbn. split; [|exact Hout].
    constructor; [apply code_range|exact Hstack]. }
  destruct (eqc _ ")"%char); [|discriminate].
  destruct (pop_to_bracket_split (ExpressionSolver.stack st) (ExpressionSolver.out st))
    as (popped & Hsplit & Hpopped).
  destruct (ExpressionSolver.pop_to_bracket _ _) as [stack' out'].
  cbn [fst snd] in Hsplit, Hpopped. subst out'.
  destruct stack' as [|top stack'']; [discriminate|]. intros [= <-]. cbn.
  rewrite Hsplit in Hstack. apply Forall_app in Hstack as [Hp Hrest].
  split; [inversion Hrest; assumption|].
  apply Forall_app. split; assumption.
Qed.

Lemma reaches_values_ok (data_ : string) (st st' : ExpressionSolver.state) :
  reaches data_ st st' ->
  Forall value_ok (ExpressionSolver.stack st) ->
  Forall value_ok (ExpressionSolver.out st) ->
  Forall value_ok (ExpressionSolver.stack st')
  /\ Forall value_ok (ExpressionSolver.out st').
Proof.
  induction 1 as [st|st st1 st2 Hlt Hstep Hreach IH]; [auto|].
  intros Hstack Hout.
  destruct (step_values_ok _ _ _ Hstack Hout Hstep). auto.
Qed.

Lemma flush_values_ok (stack out out' : list Element) :
  Forall value_ok stack -> Forall value_ok out ->
  ExpressionSolver.flush stack out = Ok out' -> Forall value_ok out'.
Proof.
  revert out. induction stack as [|top stack IH]; intros out Hstack Hout.
  - intros [= <-]. exact Hout.
  - cbn [ExpressionSolver.flush]. destruct (bool_decide _); [discriminate|].
    inversion Hstack; subst. apply IH; [assumption|].
    apply Forall_app. split; [exact Hout|]. constructor; [assumption|constructor].
Qed.

Lemma parse_values_ok (expression : string) (out : list Element) :
  ExpressionSolver.parse expression = Ok out -> Forall value_ok out.
Proof.
  unfold ExpressionSolver.parse.
  destruct (ExpressionSolver.scan _ _ _) as [st| | |] eqn:Hscan; try discriminate.
  cbn. apply scan_returns in Hscan as [Hreach _].
  destruct (reaches_values_ok _ _ _ Hreach) as [Hstack Hout]; try constructor.
  apply flush_values_ok; assumption.
Qed.

Lemma solve_loop_values_ok (out stack stack' : list Element) :
  Forall value_ok out -> Forall value_ok stack ->
  ExpressionSolver.solve_loop out stack = Ok stack' -> Forall value_ok stack'.
Proof.
  revert stack. induction out as [|element out IH]; intros stack Hout Hstack.
  - intros [= <-]. exact Hstack.
  - inversion Hout; subst. cbn [ExpressionSolver.solve_loop].
    destruct (bool_decide (Elem.label element = BINARY_OPERATION)).
    + destruct stack as [|right_ [|left_ stack]]; try discriminate.
      destruct (_ || _); [discriminate|].
      destruct (Elem.proceed element left_ right_) as [r| | |] eqn:Hproceed;
        try discriminate.
      cbn. apply IH; [assumption|].
      constructor; [eapply proceed_value_ok; eassumption|].
      inversion Hstack as [|? ? ? Hrest]; subst. inversion Hrest; assumption.
    + apply IH; [assumption|]. constructor; assumption.
Qed.

(** [proceed] returns, throws or is refused by the processor. *)
Lemma proceed_total (self left_ right_ : Element) :
  Elem.proceed self left_ right_ <> OutOfFuel.
Proof.
  unfold Elem.proceed, Elem.divide, Elem.int_div.
  repeat match goal with
         | |- context [if ?b then _ else _] => destruct b
         end; discriminate.
Qed.

Lemma solve_loop_total (out stack : list Element) :
  ExpressionSolver.solve_loop out stack <> OutOfFuel.
Proof.
  revert stack. induction out as [|element out IH]; intros stack; [discriminate|].
  cbn [ExpressionSolver.solve_loop].
  destruct (bool_decide _); [|apply IH].
  destruct stack as [|right_ [|left_ stack]]; try discriminate.
  destruct (_ || _); [discriminate|].
  destruct (Elem.proceed element left_ right_) as [r| | |] eqn:Hproceed;
    [cbn; apply IH|discriminate|discriminate|].
  exfalso. revert Hproceed. apply proceed_total.
Qed.

(** ** Where the processor refuses a division *)

Lemma abs32_cases (z : Z) :
  in_int32 z -> (abs32 z = Z.abs z /\ z <> min_int32) \/ (abs32 z = min_int32 /\ z = min_int32).
Proof.
  intros Hz. destruct (Z.eq_dec z min_int32) as [->|Hmin].
  - right. split; reflexivity.
  - left. split; [|assumption]. apply abs32_id.
    unfold in_int32, min_int32, max_int32 in *. lia.
Qed.

Lemma int_div_trap_iff (a b : Z) :
  Elem.int_div a b = Trap <-> b = 0 \/ (a = min_int32 /\ b = -1).
Proof.
  unfold Elem.int_div.
  destruct (b =? 0) eqn:Hz; cbn [orb].
  - apply Z.eqb_eq in Hz. tauto.
  - apply Z.eqb_neq in Hz.
    destruct (a =? min_int32) eqn:Ha; cbn [andb].
    + apply Z.eqb_eq in Ha. destruct (b =? -1) eqn:Hm.
      * apply Z.eqb_eq in Hm. tauto.
      * apply Z.eqb_neq in Hm. split; [discriminate|tauto].
    + apply Z.eqb_neq in Ha. split; [discriminate|tauto].
Qed.

Lemma divide_trap_iff (left_ right_ : Z) :
  in_int32 left_ -> in_int32 right_ ->
  Elem.divide left_ right_ = Trap
  <-> right_ = 0 \/ (left_ = min_int32 /\ right_ = -1).
Proof.
  intros Hl Hr. unfold Elem.divide.
  assert (Hmin : min_int32 = -2147483648) by reflexivity.
  destruct (((left_ <=? 0) && (right_ <? 0)) || ((left_ >=? 0) && (right_ >? 0))) eqn:Hsame.
  - apply int_div_trap_iff.
  - rewrite int_div_trap_iff.
    assert (Hdiff : ~ (left_ <= 0 /\ right_ < 0) /\ ~ (0 <= left_ /\ 0 < right_)).
    { apply orb_false_iff in Hsame as [H1 H2].
      apply andb_false_iff in H1. apply andb_false_iff in H2.
      rewrite Z.leb_gt, Z.ltb_ge in H1.
      rewrite Z.geb_leb, Z.leb_gt, Z.gtb_ltb, Z.ltb_ge in H2. lia. }
    destruct (abs32_cases right_ Hr) as [[Habs Hn]|[Habs ->]]; rewrite Habs; lia.
Qed.

Lemma proceed_trap_iff (self left_ right_ : Element) :
  Elem.proceed self left_ right_ = Trap
  <-> Elem.value self = code "/" /\ Elem.value right_ <> 0
      /\ (wrap32 (Elem.value right_) = 0
          \/ (wrap32 (Elem.value left_) = min_int32
              /\ wrap32 (Elem.value right_) = -1)).
Proof.
  pose proof (divide_trap_iff (wrap32 (Elem.value left_)) (wrap32 (Elem.value right_))
                (wrap32_range _) (wrap32_range _)) as Hdiv.
  unfold Elem.proceed. change (value_ self) with (Elem.value self).
  assert (Hplus : code "/" <> code "+") by (vm_compute; discriminate).
  assert (Hminus : code "/" <> code "-") by (vm_compute; discriminate).
  assert (Htimes : code "/" <> code "*") by (vm_compute; discriminate).
  destruct (Elem.value self =? code "+") eqn:H1;
    [apply Z.eqb_eq in H1; cbn; split; [discriminate|intros [H _]; congruence]|].
  destruct (Elem.value self =? code "-") eqn:H2;
    [apply Z.eqb_eq in H2; cbn; split; [discriminate|intros [H _]; congruence]|].
  destruct (Elem.value self =? code "*") eqn:H3;
    [apply Z.eqb_eq in H3; cbn; split; [discriminate|intros [H _]; congruence]|].
  destruct (Elem.value self =? code "/") eqn:H4.
  - apply Z.eqb_eq in H4.
    destruct (Elem.value right_ =? 0) eqn:Hz.
    + apply Z.eqb_eq in Hz. cbn. split; [discriminate|tauto].
    + apply Z.eqb_neq in Hz.
      destruct (Elem.divide _ _) as [q| | |]; cbn.
      * split; [discriminate|]. intros (_ & _ & H). apply Hdiv in H. discriminate.
      * split; [discriminate|]. intros (_ & _ & H). apply Hdiv in H. discriminate.
      * split; [|reflexivity]. intros _.
        split; [assumption|]. split; [assumption|]. apply Hdiv. reflexivity.
      * split; [discriminate|]. intros (_ & _ & H). apply Hdiv in H. discriminate.
  - apply Z.eqb_neq in H4. cbn. split; [discriminate|tauto].
Qed.

Lemma solve_loop_trap (out stack : list Element) :
  ExpressionSolver.solve_loop out stack = Trap -> Exists is_division out.
Proof.
  revert stack. induction out as [|element out IH]; intros stack; [discriminate|].
  cbn [ExpressionSolver.solve_loop].
  destruct (bool_decide (Elem.label element = BINARY_OPERATION)) eqn:Hop.
  - apply bool_decide_eq_true in Hop.
    destruct stack as [|right_ [|left_ stack]]; try discriminate.
    destruct (_ || _); [discriminate|].
    destruct (Elem.proceed element left_ right_) as [r|e| |] eqn:Hp; cbn [mbind outcome_bind].
    + intros Hloop. apply Exists_cons_tl, (IH _ Hloop).
    + discriminate.
    + intros _. apply proceed_trap_iff in Hp as (Hdiv & _).
      apply Exists_cons_hd. split; assumption.
    + discriminate.
  - intros Hloop. apply Exists_cons_tl, (IH _ Hloop).
Qed.

Lemma to_roman_loop_no_trap (fuel : nat) (value : Z) (result : string) :
  RomanConverter.to_roman_loop fuel value result <> Trap.
Proof.
  revert value result. induction fuel as [|fuel IH]; intros value result;
    cbn [RomanConverter.to_roman_loop]; destruct (value >? 0); try discriminate.
  destruct (RomanConverter.scan_weight _ _ _). apply IH.
Qed.

Lemma to_roman_no_trap (v : Z) : RomanConverter.to_roman v <> Trap.
Proof.
  unfold RomanConverter.to_roman.
  destruct (v =? 0); [discriminate|].
  destruct (_ >? _); [discriminate|]. apply to_roman_loop_no_trap.
Qed.

Lemma step_no_trap (data_ : string) (st : ExpressionSolver.state) :
  ExpressionSolver.step data_ st <> Trap.
Proof.
  unfold ExpressionSolver.step, ExpressionSolver.read_number.
  repeat match goal with
         | |- context [if ?b then _ else _] => destruct b
         | |- context [let '(_, _) := ?p in _] => destruct p
         | |- context [match ?l with [] => _ | _ :: _ => _ end] => destruct l
         end; discriminate.
Qed.

Lemma scan_no_trap (fuel : nat) (data_ : string) (st : ExpressionSolver.state) :
  ExpressionSolver.scan fuel data_ st <> Trap.
Proof.
  revert st. induction fuel as [|fuel IH]; intros st; cbn [ExpressionSolver.scan];
    destruct (_ <? _)%nat; try discriminate.
  destruct (ExpressionSolver.step data_ st) as [st'| | |] eqn:Hstep;
    [cbn; apply IH|discriminate| |discriminate].
  exfalso. revert Hstep. apply step_no_trap.
Qed.

Lemma flush_no_trap (stack out : list Element) :
  ExpressionSolver.flush stack out <> Trap.
Proof.
  revert out. induction stack as [|top rest IH]; intros out; [discriminate|].
  cbn [ExpressionSolver.flush]. destruct (bool_decide _); [discriminate|apply IH].
Qed.

(** The constructor divides nothing. *)
Lemma parse_no_trap (expression : string) :
  ExpressionSolver.parse expression <> Trap.
Proof.
  unfold ExpressionSolver.parse.
  destruct (ExpressionSolver.scan _ _ _) as [st| | |] eqn:Hscan;
    [cbn; apply flush_no_trap|discriminate| |discriminate].
  exfalso. revert Hscan. apply scan_no_trap.
Qed.

Lemma solve_trap (out : list Element) :
  ExpressionSolver.solve out = Trap -> Exists is_division out.
Proof.
  unfold ExpressionSolver.solve. destruct out as [|element out]; [discriminate|].
  destruct (ExpressionSolver.solve_loop (element :: out) []) as [stack| | |] eqn:Hloop;
    cbn; try discriminate.
  - destruct (ExpressionSolver.stack_0 stack) as [bottom|]; [|discriminate].
    destruct (bool_decide _); [discriminate|].
    intros H. exfalso. revert H. apply to_roman_no_trap.
  - intros _. exact (solve_loop_trap _ _ Hloop).
Qed.

Lemma calc_total (expression : string) :
  ExpressionSolver.calc expression <> OutOfFuel.
Proof.
  unfold ExpressionSolver.calc.
  destruct (ExpressionSolver.parse expression) as [out| | |] eqn:Hparse;
    [|discriminate|discriminate|exfalso; revert Hparse; apply parse_terminates].
  cbn. apply parse_values_ok in Hparse. unfold ExpressionSolver.solve.
  destruct out as [|element out]; [discriminate|].
  destruct (ExpressionSolver.solve_loop (element :: out) []) as [stack| | |] eqn:Hloop;
    [|discriminate|discriminate|exfalso; revert Hloop; apply solve_loop_total].
  cbn. apply solve_loop_values_ok in Hloop; [|assumption|constructor].
  unfold ExpressionSolver.stack_0.
  destruct (last stack) as [bottom|] eqn:Hlast; [|discriminate].
  destruct (bool_decide _); [discriminate|].
  apply to_roman_terminates.
  apply last_Some_elem_of in Hlast. rewrite Forall_forall in Hloop.
  apply Hloop, Hlast.
Qed.

(** Every line comes to an end.  The scan of the constructor, the loop of
    the evaluator and the loop of [to_roman] all terminate, so one turn of
    [main]'s loop ends in one of three ways: it returns a text; it throws
    an error; or the process is killed by the processor's divide error
    inside [Element::divide], nothing being thrown.  The last happens only
    after the constructor has accepted the line, and only when the postfix
    sequence holds a [/] operator; "I/(MMXLVIII*MMXLVIII*MXXIV)", whose
    divisor 2^32 is 0 as an [int], ends so. *)
Theorem calc_terminates (expression : string) :
  ((exists text, ExpressionSolver.calc expression = Ok text)
   \/ (exists e, ExpressionSolver.calc expression = Throw e)
   \/ (ExpressionSolver.calc expression = Trap
       /\ exists out, ExpressionSolver.parse expression = Ok out
                      /\ ExpressionSolver.solve out = Trap
                      /\ Exists is_division out))
  /\ ExpressionSolver.calc "I/(MMXLVIII*MMXLVIII*MXXIV)" = Trap.
Proof.
  split; [|vm_compute; reflexivity].
  pose proof (calc_total expression) as Htotal.
  unfold ExpressionSolver.calc in *.
  destruct (ExpressionSolver.parse expression) as [out|e| |] eqn:Hparse;
    cbn [mbind outcome_bind] in *.
  - destruct (ExpressionSolver.solve out) as [text|e| |] eqn:Hsolve.
    + left. exists text. reflexivity.
    + right. left. exists e. reflexivity.
    + right. right. split; [reflexivity|]. exists out.
      split; [reflexivity|]. split; [exact Hsolve|]. apply solve_trap, Hsolve.
    + contradiction.
  - right. left. exists e. reflexivity.
  - exfalso. revert Hparse. apply parse_no_trap.
  - contradiction.
Qed.

(** ** The scenarios of the specification, evaluated *)

Example zero_identity :
  RomanConverter.to_roman 0 = Ok "Z" /\ RomanConverter.to_int64 "Z" = 0.
Proof. split; reflexivity. Qed.

Example division_by_zero :
  ExpressionSolver.evaluate [Value 5; Value 0; Operator "/"] = Throw DivisionByZero.
Proof. vm_compute. reflexivity. Qed.

Example minus_after_open_bracket :
  ExpressionSolver.calc "(-V)" = Throw MalformedExpression.
Proof. vm_compute. reflexivity. Qed.

Example to_int64_MCMXCIV : RomanConverter.to_int64 "MCMXCIV" = 1994.
Proof. vm_compute. reflexivity. Qed.

Example to_roman_1994 : RomanConverter.to_roman 1994 = Ok "MCMXCIV".
Proof. vm_compute. reflexivity. Qed.

Example to_roman_m5 : RomanConverter.to_roman (-5) = Ok "-V".
Proof. vm_compute. reflexivity. Qed.



Example calc_brackets : ExpressionSolver.calc "(II+III)*II" = Ok "X".
Proof. vm_compute. reflexivity. Qed.

Example calc_bad : ExpressionSolver.calc "II+@" = Throw (BadSymbol 4).
Proof. vm_compute. reflexivity. Qed.

(** * Further properties of the code *)

(** ** The codec and the parser together *)

Lemma pipeline_check_3999 : all_upto pipeline_check 3999 = true.
Proof. vm_cast_no_check (eq_refl true). Qed.

Lemma pipeline_checked (v : Z) :
  0 < v <= 3999 ->
  exists s s',
    RomanConverter.to_roman v = Ok s
    /\ RomanConverter.to_roman (- v) = Ok s'
    /\ ExpressionSolver.parse s = Ok [Value v]
    /\ ExpressionSolver.parse s' = Ok [Value (- v)]
    /\ string_forallb numeral_letter s = true
    /\ (1 <= size s <= 15)%nat.
Proof.
  intros Hv.
  assert (Hcheck : pipeline_check v = true).
  { apply (all_upto_spec pipeline_check 3999 pipeline_check_3999). simpl. lia. }
  unfold pipeline_check in Hcheck.
  destruct (RomanConverter.to_roman v) as [s| | |]; try discriminate.
  destruct (RomanConverter.to_roman (- v)) as [s'| | |]; try discriminate.
  repeat (apply andb_true_iff in Hcheck as [Hcheck ?]).
  exists s, s'.
  repeat match goal with
         | H : bool_decide _ = true |- _ => apply bool_decide_eq_true in H
         | H : (_ <=? _)%nat = true |- _ => apply Nat.leb_le in H
         end.
  auto 10.
Qed.

Lemma solve_single_value (v : Z) :
  ExpressionSolver.solve [Value v] = RomanConverter.to_roman v.
Proof. reflexivity. Qed.

Lemma to_roman_parse (v : Z) (s : string) :
  Z.abs v <= 3999 ->
  RomanConverter.to_roman v = Ok s ->
  ExpressionSolver.parse s = Ok [Value v].
Proof.
  intros Hv Hs. destruct (Z.lt_trichotomy v 0) as [Hneg|[->|Hpos]].
  - destruct (pipeline_checked (- v)) as (t & t' & _ & Ht' & _ & Hp & _); [lia|].
    rewrite Z.opp_involutive in Ht', Hp. congruence.
  - injection Hs as <-. reflexivity.
  - destruct (pipeline_checked v) as (t & t' & Ht & _ & Hp & _); [lia|]. congruence.
Qed.

(** The text [to_roman] gives for a value within the bound is an
    expression the program reads back as that single value, and whose
    answer is the same text. *)
Theorem to_roman_parses_back (v : Z) :
  Z.abs v <= 3999 ->
  exists s, RomanConverter.to_roman v = Ok s
            /\ ExpressionSolver.parse s = Ok [Value v]
            /\ ExpressionSolver.calc s = Ok s.
Proof.
  intros Hv. destruct (to_roman_in_bound v Hv) as [s Hs]. exists s.
  pose proof (to_roman_parse v s Hv Hs) as Hparse.
  split; [exact Hs|]. split; [exact Hparse|].
  unfold ExpressionSolver.calc. rewrite Hparse. cbn [mbind outcome_bind].
  rewrite solve_single_value. exact Hs.
Qed.

Lemma to_roman_parses_back_witness :
  exists s, RomanConverter.to_roman (-1994) = Ok s
            /\ ExpressionSolver.parse s = Ok [Value (-1994)]
            /\ ExpressionSolver.calc s = Ok s.
Proof. apply (to_roman_parses_back (-1994)). simpl. lia. Defined.

(** Within the bound, different values have different texts. *)
Theorem to_roman_injective (v w : Z) :
  Z.abs v <= 3999 -> Z.abs w <= 3999 ->
  RomanConverter.to_roman v = RomanConverter.to_roman w -> v = w.
Proof.
  intros Hv Hw Heq. destruct (to_roman_in_bound v Hv) as [s Hs].
  pose proof (to_roman_parse v s Hv Hs) as Hpv.
  rewrite Heq in Hs. pose proof (to_roman_parse w s Hw Hs) as Hpw.
  rewrite Hpv in Hpw. injection Hpw as Hvw. exact Hvw.
Qed.

Lemma to_roman_injective_witness : (2 + 2) = 4.
Proof. apply (to_roman_injective (2 + 2) 4); [simpl; lia|simpl; lia|reflexivity]. Defined.

(** The text of a positive value within the bound is made of 1 to 15 of
    the seven value letters: no sign, no zero symbol. *)
Theorem to_roman_letters (v : Z) :
  0 < v <= 3999 ->
  exists s, RomanConverter.to_roman v = Ok s
            /\ string_forallb numeral_letter s = true
            /\ (1 <= size s <= 15)%nat.
Proof.
  intros Hv. destruct (pipeline_checked v Hv) as (s & s' & Hs & _ & _ & _ & Hl & Hn).
  exists s. auto.
Qed.

Lemma to_roman_letters_witness :
  exists s, RomanConverter.to_roman 3888 = Ok s
            /\ string_forallb numeral_letter s = true
            /\ (1 <= size s <= 15)%nat.
Proof. apply (to_roman_letters 3888). lia. Defined.

(** ** The decoder on arbitrary letters *)

Lemma to_int64_loop_bounds (text : string) (result : Z) (prev_literal : ascii) :
  0 <= result ->
  result + 1000 * Z.of_nat (size text) <= max_int64 ->
  result <= RomanConverter.to_int64_loop text result prev_literal
         <= result + 1000 * Z.of_nat (size text).
Proof.
  revert result prev_literal.
  induction text as [|c rest IH]; intros result prev_literal Hres Hmax.
  - simpl. lia.
  - cbn [size String.length] in *. fold (size rest) in *.
    cbn [RomanConverter.to_int64_loop].
    rewrite !rule_add_at_addend, rule_div_at_stored.
    pose proof (addend_bounds c). pose proof (stored_pair_bounds prev_literal c).
    assert (Hmax64 : max_int64 = 9223372036854775807) by reflexivity.
    assert (Hmin64 : min_int64 = -9223372036854775808) by reflexivity.
    destruct (negb (eqc prev_literal NUL)
              && (Words.addend prev_literal <? Words.addend c)).
    + rewrite wrap64_id by (unfold in_int64; lia).
      specialize (IH (result + Words.stored_pair prev_literal c) c). lia.
    + rewrite wrap64_id by (unfold in_int64; lia).
      specialize (IH (result + Words.addend c) c). lia.
Qed.

(** Whatever the letters, [to_int64] never fails and its result lies
    between 0 and 1000 times the length of the text. *)
Theorem to_int64_bounds (text : string) :
  Z.of_nat (size text) <= 2 ^ 50 ->
  0 <= RomanConverter.to_int64 text <= 1000 * Z.of_nat (size text).
Proof.
  intros Hlen. unfold RomanConverter.to_int64.
  destruct ((size text =? 1)%nat && eqc (char_at text 0) "Z"%char); [lia|].
  apply (to_int64_loop_bounds text 0 NUL); [lia|].
  unfold max_int64. change (2 ^ 63) with 9223372036854775808.
  change (2 ^ 50) with 1125899906842624 in Hlen. lia.
Qed.

Lemma to_int64_bounds_witness :
  0 <= RomanConverter.to_int64 "IIIM?" <= 1000 * Z.of_nat (size "IIIM?").
Proof. apply (to_int64_bounds "IIIM?"). vm_compute. discriminate. Defined.

Lemma to_int64_loop_sum (text : string) (result : Z) (prev_literal : ascii) :
  0 <= result ->
  result + 1000 * Z.of_nat (size text) <= max_int64 ->
  eqc prev_literal NUL = true
  \/ non_increasing_from (RomanConverter.rule_add_at prev_literal) text = true ->
  (eqc prev_literal NUL = true -> non_increasing text = true) ->
  RomanConverter.to_int64_loop text result prev_literal = result + sum_addends text.
Proof.
  revert result prev_literal.
  induction text as [|c rest IH]; intros result prev_literal Hres Hmax Hprev Hfirst.
  - simpl. lia.
  - cbn [size String.length] in *. fold (size rest) in *.
    cbn [RomanConverter.to_int64_loop sum_addends].
    assert (Hrest : non_increasing_from (RomanConverter.rule_add_at c) rest = true).
    { destruct Hprev as [Hnul|Hfrom].
      - apply Hfirst in Hnul. exact Hnul.
      - cbn [non_increasing_from] in Hfrom. apply andb_true_iff in Hfrom. tauto. }
    assert (Hplain : negb (eqc prev_literal NUL)
                     && (RomanConverter.rule_add_at prev_literal
                         <? RomanConverter.rule_add_at c) = false).
    { destruct (eqc prev_literal NUL) eqn:Hnul; [reflexivity|]. simpl.
      destruct Hprev as [?|Hfrom]; [discriminate|].
      cbn [non_increasing_from] in Hfrom. apply andb_true_iff in Hfrom as [Hle _].
      apply Z.leb_le in Hle. apply Z.ltb_ge. exact Hle. }
    rewrite Hplain.
    pose proof (addend_bounds c) as Hc. rewrite <- rule_add_at_addend in Hc.
    assert (Hmax64 : max_int64 = 9223372036854775807) by reflexivity.
    assert (Hmin64 : min_int64 = -9223372036854775808) by reflexivity.
    rewrite wrap64_id by (unfold in_int64; lia).
    rewrite IH; [lia|lia|lia|right; exact Hrest|].
    intros Hnul. destruct rest as [|c' rest']; [reflexivity|].
    cbn [non_increasing]. cbn [non_increasing_from] in Hrest.
    apply andb_true_iff in Hrest. tauto.
Qed.

(** On a text whose letters never grow in value from left to right,
    [to_int64] is the plain sum of the letters' values: repetitions such as
    IIII or VV are accepted and added up. *)
Theorem to_int64_additive (text : string) :
  non_increasing text = true ->
  Z.of_nat (size text) <= 2 ^ 50 ->
  RomanConverter.to_int64 text = sum_addends text.
Proof.
  intros Hmono Hlen. unfold RomanConverter.to_int64.
  destruct ((size text =? 1)%nat && eqc (char_at text 0) "Z"%char) eqn:Hz.
  - apply andb_true_iff in Hz as [Hsize Hchar].
    destruct text as [|c [|c' rest]]; try discriminate.
    simpl in Hchar. apply Ascii.eqb_eq in Hchar. subst c. reflexivity.
  - rewrite to_int64_loop_sum; [lia|lia| |left; reflexivity|intros _; exact Hmono].
    unfold max_int64. change (2 ^ 63) with 9223372036854775808.
    change (2 ^ 50) with 1125899906842624 in Hlen. lia.
Qed.

Lemma to_int64_additive_witness :
  RomanConverter.to_int64 "MMVVIIII" = sum_addends "MMVVIIII".
Proof.
  apply (to_int64_additive "MMVVIIII"); [reflexivity|vm_compute; discriminate].
Defined.

(** ** The arithmetic of [Element] *)

(** [proceed] throws in one case only: the operator is [/] and the right
    operand is 0; every other call returns a value element. *)
Theorem proceed_throws_iff (self left_ right_ : Element) (e : logic_error) :
  Elem.proceed self left_ right_ = Throw e
  <-> e = DivisionByZero /\ Elem.value self = code "/" /\ Elem.value right_ = 0.
Proof.
  unfold Elem.proceed, Elem.value.
  change (code "+") with 43. change (code "-") with 45.
  change (code "*") with 42. change (code "/") with 47.
  destruct (value_ self =? 43) eqn:H1;
    [apply Z.eqb_eq in H1; cbn; split; [discriminate|lia]|].
  destruct (value_ self =? 45) eqn:H2;
    [apply Z.eqb_eq in H2; cbn; split; [discriminate|lia]|].
  destruct (value_ self =? 42) eqn:H3;
    [apply Z.eqb_eq in H3; cbn; split; [discriminate|lia]|].
  destruct (value_ self =? 47) eqn:H4.
  - apply Z.eqb_eq in H4. destruct (value_ right_ =? 0) eqn:H0; cbn.
    + apply Z.eqb_eq in H0. split; [intros [= <-]; auto|intros (-> & _); reflexivity].
    + apply Z.eqb_neq in H0.
      destruct (divide_cases (wrap32 (value_ left_)) (wrap32 (value_ right_)))
        as [[q Hq]|Hq]; rewrite Hq; cbn; split; first [discriminate|lia].
  - apply Z.eqb_neq in H4. cbn. split; [discriminate|lia].
Qed.

(** The division the processor refuses.  [proceed] ends the process,
    nothing being thrown, in these cases only: the operator is [/], the
    right operand is not 0 as an [int64_t], and as [int]s the divisor is 0
    (the right operand is a multiple of 2^32) or the operands are [INT_MIN]
    and -1.  A line reaches either case: 2048 * 2048 * 1024 is 2^32, and
    2^31 - 2^32 is [INT_MIN]. *)
Theorem division_is_refused_iff (self left_ right_ : Element) :
  (Elem.proceed self left_ right_ = Trap
   <-> Elem.value self = code "/" /\ Elem.value right_ <> 0
       /\ (wrap32 (Elem.value right_) = 0
           \/ (wrap32 (Elem.value left_) = min_int32
               /\ wrap32 (Elem.value right_) = -1)))
  /\ (wrap32 (Elem.value right_) = 0 <-> Elem.value right_ mod 2 ^ 32 = 0)
  /\ ExpressionSolver.calc "I/(MMXLVIII*MMXLVIII*MXXIV)" = Trap
  /\ ExpressionSolver.calc "(MMXLVIII*MXXIV*MXXIV-MMXLVIII*MMXLVIII*MXXIV)/-I" = Trap.
Proof.
  split; [apply proceed_trap_iff|].
  split; [|split; vm_compute; reflexivity].
  pose proof (wrap32_mod (Elem.value right_)) as Hmod.
  pose proof (wrap32_range (Elem.value right_)) as Hrange.
  unfold in_int32, min_int32, max_int32 in Hrange.
  change (2 ^ 31) with 2147483648 in Hrange.
  change (2 ^ 32) with 4294967296 in *.
  split.
  - intros H0. rewrite H0 in Hmod. rewrite <- Hmod. reflexivity.
  - intros H0. rewrite H0 in Hmod.
    pose proof (Z.div_mod (wrap32 (Elem.value right_)) 4294967296 ltac:(lia)). lia.
Qed.

Lemma proceed_throw_division (self left_ right_ : Element) (e : logic_error) :
  Elem.proceed self left_ right_ = Throw e ->
  e = DivisionByZero /\ Elem.value self = code "/".
Proof.
  unfold Elem.proceed, Elem.divide, Elem.int_div, Elem.value.
  repeat match goal with
         | |- context [if ?b then _ else _] => destruct b eqn:?
         end; cbn; try discriminate.
  intros [= <-]. split; [reflexivity|].
  match goal with H : (value_ self =? code "/") = true |- _ => apply Z.eqb_eq in H; exact H end.
Qed.

Lemma proceed_returns_value (self left_ right_ r : Element) :
  Elem.proceed self left_ right_ = Ok r -> r = Value (Elem.value r).
Proof.
  unfold Elem.proceed.
  match goal with
  | |- mbind _ ?m = _ -> _ => destruct m as [q| | |]
  end; cbn [mbind outcome_bind]; try discriminate.
  intros [= <-]. reflexivity.
Qed.

(** Where [divide] parts from the built-in division: the results agree
    when the built-in remainder is 0 or the operands have the same sign,
    and otherwise [divide] is one less. *)
Theorem divide_versus_builtin (left_ right_ : Z) :
  right_ <> 0 ->
  in_int32 left_ -> in_int32 right_ ->
  Z.abs left_ + Z.abs right_ <= max_int32 ->
  Elem.divide left_ right_
  = Ok (if (Z.rem left_ right_ =? 0) || (0 <? left_ * right_)
        then left_ ÷ right_
        else left_ ÷ right_ - 1).
Proof.
  intros Hr Hl32 Hr32 Hsum. rewrite divide_floor by assumption. f_equal.
  pose proof (Z.quot_rem' left_ right_) as Hqr.
  pose proof (Z.rem_bound_abs left_ right_ Hr) as Habs.
  pose proof (Z.rem_sign_mul left_ right_ Hr) as Hsign.
  set (q := left_ ÷ right_) in *. set (m := Z.rem left_ right_) in *.
  destruct (m =? 0) eqn:Hm0; cbn [orb].
  - apply Z.eqb_eq in Hm0. symmetry.
    apply (Z.div_unique_exact left_ right_ q); lia.
  - apply Z.eqb_neq in Hm0.
    destruct (0 <? left_ * right_) eqn:Hprod.
    + apply Z.ltb_lt in Hprod. symmetry.
      apply (Z.div_unique left_ right_ q m); [|lia]. nia.
    + apply Z.ltb_ge in Hprod. symmetry.
      assert (Hl0 : left_ <> 0).
      { intros ->. unfold m in Hm0. rewrite Z.rem_0_l in Hm0 by exact Hr. lia. }
      apply (Z.div_unique left_ right_ (q - 1) (m + right_)); [|nia].
      destruct (Z.lt_trichotomy right_ 0) as [Hneg|[H0|Hpos]]; [|lia|].
      * right. assert (0 < left_) by nia. assert (0 < m) by nia. lia.
      * left. assert (left_ < 0) by nia. assert (m < 0) by nia. lia.
Qed.

Lemma divide_versus_builtin_witness :
  Elem.divide (-7) 2
  = Ok (if (Z.rem (-7) 2 =? 0) || (0 <? -7 * 2) then -7 ÷ 2 else -7 ÷ 2 - 1).
Proof.
  apply (divide_versus_builtin (-7) 2); vm_compute;
    first [discriminate | split; discriminate].
Defined.

(** ** The evaluator on postfix sequences *)

Lemma solve_loop_operator (op : ascii) (a b : Z) (rest stack : list Element) :
  ExpressionSolver.solve_loop (Operator op :: rest) (Value b :: Value a :: stack)
  = (v ← apply_op op a b; ExpressionSolver.solve_loop rest (Value v :: stack)).
Proof.
  cbn [ExpressionSolver.solve_loop].
  change (Elem.label (Operator op)) with BINARY_OPERATION.
  change (Elem.label (Value a)) with VALUE.
  change (Elem.label (Value b)) with VALUE.
  cbn [bool_decide decide_rel orb]. unfold apply_op.
  destruct (Elem.proceed (Operator op) (Value a) (Value b)) as [r| | |] eqn:Hp;
    try reflexivity.
  cbn. rewrite <- (proceed_returns_value _ _ _ _ Hp). reflexivity.
Qed.

Lemma solve_loop_postfix (e : expr) (rest stack : list Element) :
  ExpressionSolver.solve_loop (postfix e ++ rest) stack
  = (v ← eval e; ExpressionSolver.solve_loop rest (Value v :: stack)).
Proof.
  revert rest stack. induction e as [n|op lhs IHl rhs IHr]; intros rest stack.
  - reflexivity.
  - cbn [postfix eval]. rewrite <- !app_assoc. rewrite IHl.
    destruct (eval lhs) as [a| | |]; try reflexivity. cbn [mbind outcome_bind].
    rewrite IHr. destruct (eval rhs) as [b| | |]; try reflexivity.
    cbn [mbind outcome_bind app]. apply solve_loop_operator.
Qed.

Lemma postfix_nonempty (e : expr) : postfix e <> [].
Proof.
  destruct e as [n|op lhs rhs]; [discriminate|].
  cbn [postfix]. intros H. apply app_eq_nil in H as [_ H].
  apply app_eq_nil in H as [_ H]. discriminate.
Qed.

(** The evaluator computes expression trees: on the postfix form of a tree,
    followed by anything, it leaves the tree's value on top of the stack and
    goes on; alone, the postfix form evaluates to the tree's value, the
    operands being taken left before right and any division by zero inside
    being the error of the whole. *)
Theorem evaluator_computes_trees (e : expr) :
  (forall rest stack,
      ExpressionSolver.solve_loop (postfix e ++ rest) stack
      = (v ← eval e; ExpressionSolver.solve_loop rest (Value v :: stack)))
  /\ ExpressionSolver.evaluate (postfix e) = eval e
  /\ ExpressionSolver.solve (postfix e) = (v ← eval e; RomanConverter.to_roman v).
Proof.
  split; [apply solve_loop_postfix|].
  assert (Heval : ExpressionSolver.evaluate (postfix e) = eval e).
  { unfold ExpressionSolver.evaluate.
    pose proof (postfix_nonempty e) as Hne.
    destruct (postfix e) as [|element out] eqn:Hpost; [contradiction|].
    rewrite <- Hpost, <- (app_nil_r (postfix e)), solve_loop_postfix.
    destruct (eval e) as [v| | |]; reflexivity. }
  split; [exact Heval|]. rewrite solve_evaluate, Heval. reflexivity.
Qed.

Lemma solve_loop_height (out stack stack' : list Element) :
  ExpressionSolver.solve_loop out stack = Ok stack' ->
  (length stack' + count_ops out = length stack + count_operands out)%nat.
Proof.
  revert stack. induction out as [|element out IH]; intros stack.
  - intros [= <-]. simpl. lia.
  - cbn [ExpressionSolver.solve_loop count_ops count_operands]. unfold is_op.
    destruct (bool_decide (Elem.label element = BINARY_OPERATION)).
    + destruct stack as [|right_ [|left_ stack]]; try discriminate.
      destruct (_ || _); [discriminate|].
      destruct (Elem.proceed element left_ right_) as [r| | |]; try discriminate.
      cbn [mbind outcome_bind]. intros Hloop. apply IH in Hloop.
      cbn [length] in *. lia.
    + intros Hloop. apply IH in Hloop. cbn [length] in *. lia.
Qed.

(** The evaluator keeps count: when the scan of a postfix sequence ends
    without an error, the stack has grown by the number of operands and
    shrunk by the number of operators.  So a sequence that evaluates has more
    operands than operators, and leaves exactly one value precisely when it
    has one operand more than operators. *)
Theorem evaluator_stack_height (out stack' : list Element) :
  ExpressionSolver.solve_loop out [] = Ok stack' ->
  (length stack' + count_ops out = count_operands out)%nat
  /\ (out <> [] -> (count_ops out < count_operands out)%nat)
  /\ (length stack' = 1%nat <-> count_operands out = S (count_ops out)).
Proof.
  intros Hloop. pose proof (solve_loop_height _ _ _ Hloop) as Hh.
  cbn [length] in Hh. split; [lia|]. split; [|lia].
  intros Hne. pose proof (solve_loop_nonempty _ _ _ Hloop (or_introl Hne)) as Hs.
  destruct stack'; [contradiction|]. cbn [length] in Hh. lia.
Qed.

Lemma evaluator_stack_height_witness :
  (length [Value 3; Value 2] + count_ops [Value 2; Value 1; Value 2; Operator "+"]
   = count_operands [Value 2; Value 1; Value 2; Operator "+"])%nat.
Proof.
  apply (evaluator_stack_height [Value 2; Value 1; Value 2; Operator "+"]
           [Value 3; Value 2]).
  reflexivity.
Defined.

(** ** What the parser emits *)

Lemma pop_to_bracket_spec (stack out : list Element) :
  exists popped rest,
    stack = (popped ++ rest)%list
    /\ Forall (fun e => ~ is_bracket e) popped
    /\ (forall top rest', rest = top :: rest' -> is_bracket top)
    /\ ExpressionSolver.pop_to_bracket stack out = (rest, (out ++ popped)%list).
Proof.
  revert out. induction stack as [|top stack IH]; intros out.
  - exists [], []. rewrite (app_nil_r out).
    split; [reflexivity|]. split; [constructor|]. split; [discriminate|reflexivity].
  - cbn [ExpressionSolver.pop_to_bracket].
    destruct (bool_decide (Elem.label top ≠ BRACKET)) eqn:Htop.
    + apply bool_decide_eq_true in Htop.
      destruct (IH (out ++ [top])%list) as (popped & rest & -> & Hall & Hrest & Hpop).
      exists (top :: popped), rest. rewrite Hpop, <- app_assoc.
      split; [reflexivity|]. split; [|split; [exact Hrest|reflexivity]].
      constructor; [exact Htop|exact Hall].
    + apply bool_decide_eq_false in Htop.
      exists [], (top :: stack). rewrite (app_nil_r out).
      split; [reflexivity|]. split; [constructor|]. split; [|reflexivity].
      intros top' rest' [= <- <-]. unfold is_bracket.
      destruct (decide (Elem.label top = BRACKET)) as [H|H]; [exact H|contradiction].
Qed.

Lemma stack_token_operator (e : Element) :
  stack_token e -> ~ is_bracket e -> out_token e.
Proof.
  intros [ -> | Hop ] Hnb; [exfalso; apply Hnb; reflexivity|]. right. exact Hop.
Qed.

Lemma operator_priority (c : ascii) :
  ExpressionSolver.is_operation c = true -> 0 <= Elem.priority (Operator c).
Proof.
  intros Hop. destruct (is_operation_cases c Hop) as [ -> | [ -> | [ -> | -> ] ] ];
    vm_compute; discriminate.
Qed.

Lemma stack_token_popped (c : ascii) (e : Element) :
  ExpressionSolver.is_operation c = true ->
  stack_token e -> Elem.priority (Operator c) <= Elem.priority e ->
  out_token e /\ ~ is_bracket e.
Proof.
  intros Hop [ -> | (c' & Hc' & ->) ] Hprio.
  - pose proof (operator_priority c Hop) as H0.
    change (Elem.priority (Bracket "(")) with (-1) in Hprio. lia.
  - split; [right; eauto|]. discriminate.
Qed.

Lemma step_tokens (data_ : string) (st st' : ExpressionSolver.state) :
  Forall stack_token (ExpressionSolver.stack st) ->
  Forall out_token (ExpressionSolver.out st) ->
  ExpressionSolver.step data_ st = Ok st' ->
  Forall stack_token (ExpressionSolver.stack st')
  /\ Forall out_token (ExpressionSolver.out st').
Proof.
  intros Hstack Hout.
  destruct (ExpressionSolver.is_roman (char_at data_ (ExpressionSolver.position_ st)))
    eqn:Hroman.
  { rewrite step_at_roman by exact Hroman. intros [= <-]. cbn. split; [exact Hstack|].
    apply Forall_app. split; [exact Hout|].
    constructor; [|constructor]. left. eexists. split; [apply wrap64_range|reflexivity]. }
  destruct (ExpressionSolver.is_operation (char_at data_ (ExpressionSolver.position_ st)))
    eqn:Hop.
  { rewrite step_at_operation by exact Hop.
    destruct (ExpressionSolver.is_unary _ _); [intros [= <-]; split; assumption|].
    cbv zeta.
    match goal with
    | |- context [ExpressionSolver.pop_priority ?c ?s ?o] =>
        destruct (pop_priority_spec c s o) as (popped & rest & Hsplit & Hprio & _ & Hpop)
    end.
    rewrite Hpop. intros [= <-]. cbn. rewrite Hsplit in Hstack.
    apply Forall_app in Hstack as [Hpopped Hrest]. split.
    - constructor; [right; eauto|exact Hrest].
    - apply Forall_app. split; [exact Hout|].
      rewrite Forall_forall in *. intros e He.
      apply (stack_token_popped _ e Hop); auto. }
  unfold ExpressionSolver.step. rewrite Hroman, Hop.
  destruct (eqc _ "("%char).
  { intros [= <-]. cbn. split; [|exact Hout].
    constructor; [left; reflexivity|exact Hstack]. }
  destruct (eqc _ ")"%char); [|discriminate].
  destruct (pop_to_bracket_spec (ExpressionSolver.stack st) (ExpressionSolver.out st))
    as (popped & rest & Hsplit & Hnb & _ & Hpop).
  rewrite Hpop. destruct rest as [|top rest']; [discriminate|]. intros [= <-]. cbn.
  rewrite Hsplit in Hstack. apply Forall_app in Hstack as [Hp Hrest].
  split; [inversion Hrest; assumption|].
  apply Forall_app. split; [exact Hout|].
  rewrite Forall_forall in *. intros e He. apply stack_token_operator; auto.
Qed.

Lemma reaches_tokens (data_ : string) (st st' : ExpressionSolver.state) :
  reaches data_ st st' ->
  Forall stack_token (ExpressionSolver.stack st) ->
  Forall out_token (ExpressionSolver.out st) ->
  Forall stack_token (ExpressionSolver.stack st')
  /\ Forall out_token (ExpressionSolver.out st').
Proof.
  induction 1 as [st|st st1 st2 Hlt Hstep Hreach IH]; [auto|].
  intros Hstack Hout.
  destruct (step_tokens _ _ _ Hstack Hout Hstep). auto.
Qed.

Lemma flush_tokens (stack out out' : list Element) :
  Forall stack_token stack -> Forall out_token out ->
  ExpressionSolver.flush stack out = Ok out' -> Forall out_token out'.
Proof.
  revert out. induction stack as [|top stack IH]; intros out Hstack Hout.
  - intros [= <-]. exact Hout.
  - cbn [ExpressionSolver.flush].
    destruct (bool_decide (Elem.label top ≠ BINARY_OPERATION)) eqn:Htop; [discriminate|].
    apply bool_decide_eq_false in Htop.
    inversion Hstack as [|? ? Htok Hrest]; subst. apply IH; [exact Hrest|].
    apply Forall_app. split; [exact Hout|]. constructor; [|constructor].
    apply stack_token_operator; [exact Htok|].
    intros Hb. apply Htop. unfold is_bracket in Hb. rewrite Hb. discriminate.
Qed.

(** The postfix sequence the constructor builds holds only 64-bit value
    elements and elements of the four operators; a bracket is never
    emitted. *)
Theorem parse_emits_tokens (expression : string) (out : list Element) :
  ExpressionSolver.parse expression = Ok out ->
  Forall out_token out
  /\ Forall (fun e => Elem.label e <> BRACKET) out.
Proof.
  intros Hparse.
  assert (Htok : Forall out_token out).
  { revert Hparse. unfold ExpressionSolver.parse.
    destruct (ExpressionSolver.scan _ _ _) as [st| | |] eqn:Hscan; try discriminate.
    cbn. apply scan_returns in Hscan as [Hreach _].
    destruct (reaches_tokens _ _ _ Hreach) as [Hstack Hout]; try constructor.
    apply flush_tokens; assumption. }
  split; [exact Htok|].
  rewrite Forall_forall in *. intros e He.
  destruct (Htok e He) as [ (n & _ & ->) | (c & _ & ->) ]; discriminate.
Qed.

Lemma parse_emits_tokens_witness :
  Forall out_token [Value 2; Value 3; Value 2; Operator "*"; Operator "+"]
  /\ Forall (fun e => Elem.label e <> BRACKET)
       [Value 2; Value 3; Value 2; Operator "*"; Operator "+"].
Proof. apply (parse_emits_tokens "II+(III*II)"). reflexivity. Defined.

(** ** Which errors the parser throws *)

Lemma char_at_drop (data_ : string) (p i : nat) :
  char_at (ExpressionSolver.drop p data_) i = char_at data_ (p + i).
Proof.
  revert data_. induction p as [|p IH]; intros data_; [reflexivity|].
  destruct data_ as [|c data_]; [destruct i; reflexivity|].
  cbn [ExpressionSolver.drop Nat.add char_at]. apply IH.
Qed.

Lemma roman_run_letters (s : string) (i : nat) :
  (i < size (ExpressionSolver.roman_run s))%nat ->
  ExpressionSolver.is_roman (char_at s i) = true.
Proof.
  revert i. induction s as [|c s IH]; intros i; [cbn; lia|].
  cbn [ExpressionSolver.roman_run].
  destruct (ExpressionSolver.is_roman c) eqn:Hc; [|cbn; lia].
  destruct i as [|i]; [intros _; exact Hc|].
  intros Hi. cbn [char_at]. apply IH. size_lia.
Qed.

Lemma string_forallb_char_at (f : ascii -> bool) (s : string) :
  string_forallb f s = true
  <-> forall i, (i < size s)%nat -> f (char_at s i) = true.
Proof.
  induction s as [|c s IH]; cbn [string_forallb].
  - split; [intros _ i Hi; size_lia|reflexivity].
  - rewrite andb_true_iff, IH. split.
    + intros [Hc Hs] [|i] Hi; [exact Hc|]. cbn [char_at]. apply Hs. size_lia.
    + intros H. split; [apply (H 0%nat); size_lia|].
      intros i Hi. apply (H (S i)). size_lia.
Qed.

Lemma step_bad_symbol (data_ : string) (st : ExpressionSolver.state) (p : nat) :
  ExpressionSolver.step data_ st = Throw (BadSymbol p) ->
  p = (ExpressionSolver.position_ st + 1)%nat
  /\ valid_symbol (char_at data_ (ExpressionSolver.position_ st)) = false.
Proof.
  unfold ExpressionSolver.step, ExpressionSolver.read_number, valid_symbol.
  destruct (ExpressionSolver.is_roman _); [discriminate|].
  destruct (eqc _ "("%char); [discriminate|].
  destruct (eqc _ ")"%char).
  { destruct (ExpressionSolver.pop_to_bracket _ _) as [[|? ?] ?]; discriminate. }
  destruct (ExpressionSolver.is_operation _).
  { destruct (ExpressionSolver.is_unary _ _); [discriminate|].
    destruct (ExpressionSolver.pop_priority _ _ _). discriminate. }
  intros [= <-]. split; reflexivity.
Qed.

Lemma step_valid_symbol (data_ : string) (st st' : ExpressionSolver.state) :
  ExpressionSolver.step data_ st = Ok st' ->
  valid_symbol (char_at data_ (ExpressionSolver.position_ st)) = true.
Proof.
  unfold ExpressionSolver.step, valid_symbol.
  destruct (ExpressionSolver.is_roman _); [reflexivity|].
  destruct (eqc _ "("%char); [intros _; apply orb_true_iff; left; apply orb_true_r|].
  destruct (eqc _ ")"%char); [intros _; apply orb_true_r|].
  destruct (ExpressionSolver.is_operation _); [reflexivity|discriminate].
Qed.

(** The scan has looked at every character before the cursor, or skipped it
    inside a run of letters. *)
Lemma step_prefix_valid (data_ : string) (st st' : ExpressionSolver.state) :
  (forall i, (i < ExpressionSolver.position_ st)%nat -> valid_symbol (char_at data_ i) = true) ->
  ExpressionSolver.step data_ st = Ok st' ->
  forall i, (i < ExpressionSolver.position_ st')%nat -> valid_symbol (char_at data_ i) = true.
Proof.
  intros Hprefix Hstep i Hi.
  destruct (Nat.lt_ge_cases i (ExpressionSolver.position_ st)) as [Hlt|Hge];
    [apply Hprefix, Hlt|].
  destruct (ExpressionSolver.is_roman (char_at data_ (ExpressionSolver.position_ st)))
    eqn:Hroman.
  - rewrite step_at_roman in Hstep by exact Hroman. injection Hstep as <-.
    cbn [ExpressionSolver.position_] in Hi. unfold valid_symbol.
    replace i with (ExpressionSolver.position_ st + (i - ExpressionSolver.position_ st))%nat
      by lia.
    rewrite <- char_at_drop, roman_run_letters by lia. reflexivity.
  - assert (Hone : ExpressionSolver.position_ st' = (ExpressionSolver.position_ st + 1)%nat).
    { revert Hstep. unfold ExpressionSolver.step. rewrite Hroman.
      destruct (eqc _ "("%char); [intros [= <-]; reflexivity|].
      destruct (eqc _ ")"%char).
      { destruct (ExpressionSolver.pop_to_bracket _ _) as [[|? ?] ?];
          [discriminate|intros [= <-]; reflexivity]. }
      destruct (ExpressionSolver.is_operation _); [|discriminate].
      destruct (ExpressionSolver.is_unary _ _); [intros [= <-]; reflexivity|].
      destruct (ExpressionSolver.pop_priority _ _ _). intros [= <-]. reflexivity. }
    replace i with (ExpressionSolver.position_ st) by lia.
    eapply step_valid_symbol, Hstep.
Qed.

Lemma reaches_prefix_valid (data_ : string) (st st' : ExpressionSolver.state) :
  reaches data_ st st' ->
  (forall i, (i < ExpressionSolver.position_ st)%nat -> valid_symbol (char_at data_ i) = true) ->
  forall i, (i < ExpressionSolver.position_ st')%nat -> valid_symbol (char_at data_ i) = true.
Proof.
  induction 1 as [st|st st1 st2 Hlt Hstep Hreach IH]; [auto|].
  intros Hprefix. apply IH. eapply step_prefix_valid; eassumption.
Qed.

Lemma scan_bad_symbol (fuel : nat) (data_ : string) (p : nat) :
  ExpressionSolver.scan fuel data_ ExpressionSolver.initial = Throw (BadSymbol p) ->
  exists st, reaches data_ ExpressionSolver.initial st
             /\ p = (ExpressionSolver.position_ st + 1)%nat
             /\ (ExpressionSolver.position_ st < size data_)%nat
             /\ valid_symbol (char_at data_ (ExpressionSolver.position_ st)) = false.
Proof.
  intros Hscan. apply scan_throws in Hscan as (st & Hreach & Hpos & Hthrow).
  apply step_bad_symbol in Hthrow as [-> Hbad]. eauto.
Qed.

(** The position of a bad-symbol error is, counted from 1 in the text
    without its whitespace, that of the first character that is neither a
    letter, an operator nor a bracket. *)
Theorem bad_symbol_is_first (expression : string) (p : nat) :
  let data_ := ExpressionSolver.erase_spaces expression in
  ExpressionSolver.parse expression = Throw (BadSymbol p) ->
  (1 <= p <= size data_)%nat
  /\ valid_symbol (char_at data_ (p - 1)) = false
  /\ forall i, (i < p - 1)%nat -> valid_symbol (char_at data_ i) = true.
Proof.
  intros data_. unfold ExpressionSolver.parse. fold data_.
  destruct (ExpressionSolver.scan (size data_) data_ ExpressionSolver.initial)
    as [st|e| |] eqn:Hscan; cbn; [| |discriminate|discriminate].
  { intros Hflush. apply flush_throws_iff in Hflush as [Hbad _]. discriminate. }
  intros [= ->]. apply scan_bad_symbol in Hscan as (st & Hreach & -> & Hpos & Hbad).
  replace (ExpressionSolver.position_ st + 1 - 1)%nat
    with (ExpressionSolver.position_ st) by lia.
  split; [lia|]. split; [exact Hbad|].
  apply (reaches_prefix_valid data_ _ st Hreach). cbn. intros i Hi. lia.
Qed.

Lemma bad_symbol_is_first_witness :
  (1 <= 6 <= size "II+(V@I)?")%nat
  /\ valid_symbol (char_at "II+(V@I)?" (6 - 1)) = false
  /\ forall i, (i < 6 - 1)%nat -> valid_symbol (char_at "II+(V@I)?" i) = true.
Proof. apply (bad_symbol_is_first "II + (V@I)?" 6). reflexivity. Defined.

(** The constructor throws nothing but the bracket error and the
    bad-symbol error, and on a text made of letters, operators, brackets
    and whitespace only the bracket error. *)
Theorem parse_error_kinds (expression : string) (e : logic_error) :
  ExpressionSolver.parse expression = Throw e ->
  e = UnbalancedBrackets
  \/ (exists p, e = BadSymbol p)
     /\ string_forallb valid_symbol (ExpressionSolver.erase_spaces expression) = false.
Proof.
  unfold ExpressionSolver.parse.
  set (data_ := ExpressionSolver.erase_spaces expression).
  destruct (ExpressionSolver.scan (size data_) data_ ExpressionSolver.initial)
    as [st|e'| |] eqn:Hscan; cbn; [| |discriminate|discriminate].
  { intros Hflush. apply flush_throws_iff in Hflush as [-> _]. left. reflexivity. }
  intros [= ->].
  pose proof Hscan as Hthrow. apply scan_throws in Hthrow as (st & _ & _ & Hthrow).
  apply step_throws in Hthrow as [ (-> & _) | -> ]; [left; reflexivity|].
  right. split; [eauto|].
  apply scan_bad_symbol in Hscan as (st' & _ & _ & Hpos & Hbad).
  destruct (string_forallb valid_symbol data_) eqn:Hall; [|reflexivity].
  rewrite string_forallb_char_at in Hall. rewrite Hall in Hbad by exact Hpos.
  discriminate.
Qed.

Lemma parse_error_kinds_witness :
  UnbalancedBrackets = UnbalancedBrackets
  \/ (exists p, UnbalancedBrackets = BadSymbol p)
     /\ string_forallb valid_symbol (ExpressionSolver.erase_spaces "II+III)") = false.
Proof. apply (parse_error_kinds "II+III)" UnbalancedBrackets). reflexivity. Defined.

(** ** Whitespace *)

Lemma erase_spaces_app (a b : string) :
  ExpressionSolver.erase_spaces (a +:+ b)
  = ExpressionSolver.erase_spaces a +:+ ExpressionSolver.erase_spaces b.
Proof.
  induction a as [|x a IH]; [reflexivity|].
  change (String x a +:+ b) with (String x (a +:+ b)).
  cbn [ExpressionSolver.erase_spaces]. rewrite IH.
  destruct (ExpressionSolver.isspace x); reflexivity.
Qed.

(** Whitespace never matters, wherever it stands, even inside a numeral:
    removing a stretch of whitespace from an expression changes neither
    its postfix form nor its answer. *)
Theorem whitespace_is_ignored (a ws b : string) :
  all_spaces ws = true ->
  ExpressionSolver.parse (a +:+ ws +:+ b) = ExpressionSolver.parse (a +:+ b)
  /\ ExpressionSolver.calc (a +:+ ws +:+ b) = ExpressionSolver.calc (a +:+ b).
Proof.
  intros Hws.
  assert (Hparse : ExpressionSolver.parse (a +:+ ws +:+ b) = ExpressionSolver.parse (a +:+ b)).
  { unfold ExpressionSolver.parse.
    rewrite !erase_spaces_app, (erase_all_spaces ws Hws). reflexivity. }
  split; [exact Hparse|]. unfold ExpressionSolver.calc. rewrite Hparse. reflexivity.
Qed.

Lemma whitespace_is_ignored_witness :
  ExpressionSolver.calc ("X" +:+ "  " +:+ "I+I") = ExpressionSolver.calc ("X" +:+ "I+I").
Proof. apply (whitespace_is_ignored "X" "  " "I+I"). reflexivity. Defined.

(** ** Which texts the parser accepts *)

Lemma drop_beyond (data_ : string) (p : nat) :
  (size data_ <= p)%nat -> ExpressionSolver.drop p data_ = "".
Proof.
  revert data_. induction p as [|p IH]; intros data_ Hp.
  - destruct data_; [reflexivity|size_lia].
  - destruct data_ as [|c data_]; [reflexivity|].
    cbn [ExpressionSolver.drop]. apply IH. size_lia.
Qed.

Lemma drop_drop (data_ : string) (p n : nat) :
  ExpressionSolver.drop n (ExpressionSolver.drop p data_) = ExpressionSolver.drop (p + n) data_.
Proof.
  revert data_. induction p as [|p IH]; intros data_; [reflexivity|].
  destruct data_ as [|c data_]; [destruct n; reflexivity|].
  cbn [ExpressionSolver.drop Nat.add]. apply IH.
Qed.

Lemma is_roman_not_bracket (c : ascii) :
  ExpressionSolver.is_roman c = true -> eqc c "("%char = false /\ eqc c ")"%char = false.
Proof.
  unfold ExpressionSolver.is_roman, ExpressionSolver.available_symbols, eqc.
  cbn [existsb]. rewrite !orb_true_iff, !Ascii.eqb_eq.
  intros [ -> | [ -> | [ -> | [ -> | [ -> | [ -> | [ -> | [ -> | H ] ] ] ] ] ] ] ];
    [split; reflexivity..|discriminate].
Qed.

Lemma is_operation_not_bracket (c : ascii) :
  ExpressionSolver.is_operation c = true -> eqc c "("%char = false /\ eqc c ")"%char = false.
Proof.
  intros Hop. destruct (is_operation_cases c Hop) as [ -> | [ -> | [ -> | -> ] ] ];
    split; reflexivity.
Qed.

(** A run of letters weighs nothing in the two tests below. *)
Lemma roman_run_skip (s : string) (k : nat) :
  string_forallb valid_symbol s
  = string_forallb valid_symbol (ExpressionSolver.drop (size (ExpressionSolver.roman_run s)) s)
  /\ bracket_depth s k
     = bracket_depth (ExpressionSolver.drop (size (ExpressionSolver.roman_run s)) s) k.
Proof.
  induction s as [|c s IH]; [split; reflexivity|].
  cbn [ExpressionSolver.roman_run].
  destruct (ExpressionSolver.is_roman c) eqn:Hc; [|split; reflexivity].
  change (size (String c (ExpressionSolver.roman_run s)))
    with (S (size (ExpressionSolver.roman_run s))).
  cbn [ExpressionSolver.drop string_forallb bracket_depth].
  destruct (is_roman_not_bracket c Hc) as [-> ->].
  unfold valid_symbol at 1. rewrite Hc. cbn [orb andb]. exact IH.
Qed.

Lemma count_brackets_app (a b : list Element) :
  count_brackets (a ++ b) = (count_brackets a + count_brackets b)%nat.
Proof. induction a as [|e a IH]; [reflexivity|]. cbn [app count_brackets]. lia. Qed.

Lemma count_brackets_none (a : list Element) :
  Forall (fun e => ~ is_bracket e) a -> count_brackets a = 0%nat.
Proof.
  induction 1 as [|e a He Ha IH]; [reflexivity|]. cbn [count_brackets].
  rewrite bool_decide_eq_false_2 by exact He. exact IH.
Qed.

(** One turn of the scan against the two tests: on the rest of the text
    they give the same answers before and after the turn, and a throw means
    that one of them fails. *)
Lemma step_accepts (data_ : string) (st : ExpressionSolver.state) :
  (ExpressionSolver.position_ st < size data_)%nat ->
  Forall stack_token (ExpressionSolver.stack st) ->
  let s := ExpressionSolver.drop (ExpressionSolver.position_ st) data_ in
  let k := count_brackets (ExpressionSolver.stack st) in
  match ExpressionSolver.step data_ st with
  | Ok st1 =>
      string_forallb valid_symbol s
      = string_forallb valid_symbol (ExpressionSolver.drop (ExpressionSolver.position_ st1) data_)
      /\ bracket_depth s k
         = bracket_depth (ExpressionSolver.drop (ExpressionSolver.position_ st1) data_)
             (count_brackets (ExpressionSolver.stack st1))
  | Throw _ => string_forallb valid_symbol s = false \/ bracket_depth s k = None
  | Trap => False
  | OutOfFuel => False
  end.
Proof.
  intros Hpos Hstack s k.
  destruct (ExpressionSolver.is_roman (char_at data_ (ExpressionSolver.position_ st)))
    eqn:Hroman.
  { rewrite step_at_roman by exact Hroman. cbv zeta.
    cbn [ExpressionSolver.position_ ExpressionSolver.stack].
    rewrite <- drop_drop. apply roman_run_skip. }
  assert (Hs : s = String (char_at data_ (ExpressionSolver.position_ st))
                     (ExpressionSolver.drop (ExpressionSolver.position_ st + 1) data_)).
  { unfold s. rewrite (drop_char_at _ _ Hpos). do 2 f_equal. lia. }
  destruct (ExpressionSolver.is_operation (char_at data_ (ExpressionSolver.position_ st)))
    eqn:Hop.
  { destruct (is_operation_not_bracket _ Hop) as [Hopen Hclose].
    assert (Hvalid : string_forallb valid_symbol s
                     = string_forallb valid_symbol
                         (ExpressionSolver.drop (ExpressionSolver.position_ st + 1) data_)).
    { rewrite Hs. cbn [string_forallb]. unfold valid_symbol at 1.
      rewrite Hop, orb_true_r. reflexivity. }
    assert (Hdepth : forall d, bracket_depth s d
                     = bracket_depth
                         (ExpressionSolver.drop (ExpressionSolver.position_ st + 1) data_) d).
    { intros d. rewrite Hs. cbn [bracket_depth]. rewrite Hopen, Hclose. reflexivity. }
    rewrite step_at_operation by exact Hop.
    destruct (ExpressionSolver.is_unary _ _); [split; [exact Hvalid|apply Hdepth]|].
    cbv zeta.
    match goal with
    | |- context [ExpressionSolver.pop_priority ?c ?t ?o] =>
        destruct (pop_priority_spec c t o) as (popped & rest & Hsplit & Hprio & _ & Hpop)
    end.
    rewrite Hpop. cbn [ExpressionSolver.position_ ExpressionSolver.stack].
    split; [exact Hvalid|]. rewrite Hdepth. f_equal.
    unfold k. rewrite Hsplit, count_brackets_app. cbn [count_brackets].
    change (Elem.label (Operator (char_at data_ (ExpressionSolver.position_ st))))
      with BINARY_OPERATION.
    rewrite bool_decide_eq_false_2 by discriminate.
    rewrite count_brackets_none; [reflexivity|].
    rewrite Hsplit in Hstack. apply Forall_app in Hstack as [Hpopped _].
    rewrite Forall_forall in *. intros e He.
    apply (stack_token_popped _ e Hop); auto. }
  unfold ExpressionSolver.step. rewrite Hroman, Hop.
  destruct (eqc (char_at data_ (ExpressionSolver.position_ st)) "("%char) eqn:Hopen.
  { cbn [ExpressionSolver.position_ ExpressionSolver.stack].
    rewrite Hs. cbn [string_forallb bracket_depth count_brackets].
    unfold valid_symbol at 1. rewrite Hroman, Hop, Hopen. cbn [orb andb].
    change (Elem.label (Elem.of_char (code "(") BRACKET)) with BRACKET.
    rewrite bool_decide_eq_true_2 by reflexivity. split; reflexivity. }
  destruct (eqc (char_at data_ (ExpressionSolver.position_ st)) ")"%char) eqn:Hclose.
  { destruct (pop_to_bracket_spec (ExpressionSolver.stack st) (ExpressionSolver.out st))
      as (popped & rest & Hsplit & Hnb & Htop & Hpop).
    rewrite Hpop.
    assert (Hk : k = count_brackets rest).
    { unfold k. rewrite Hsplit, count_brackets_app, count_brackets_none by exact Hnb.
      reflexivity. }
    destruct rest as [|top rest'].
    - right. rewrite Hs, Hk. cbn [bracket_depth count_brackets].
      rewrite Hopen, Hclose. reflexivity.
    - cbn [ExpressionSolver.position_ ExpressionSolver.stack].
      rewrite Hs, Hk. cbn [string_forallb bracket_depth count_brackets].
      unfold valid_symbol at 1. rewrite Hroman, Hop, Hopen, Hclose. cbn [orb andb].
      rewrite bool_decide_eq_true_2 by (apply (Htop top rest'); reflexivity).
      split; reflexivity. }
  left. rewrite Hs. cbn [string_forallb]. unfold valid_symbol at 1.
  rewrite Hroman, Hop, Hopen, Hclose. reflexivity.
Qed.

Lemma flush_accepts (stack out : list Element) :
  Forall stack_token stack ->
  (exists out', ExpressionSolver.flush stack out = Ok out') <-> count_brackets stack = 0%nat.
Proof.
  revert out. induction stack as [|top stack IH]; intros out Hstack.
  - cbn. split; [reflexivity|eauto].
  - inversion Hstack as [|? ? Htok Hrest]; subst.
    cbn [ExpressionSolver.flush count_brackets].
    destruct Htok as [ -> | (c & Hc & ->) ].
    + change (Elem.label (Bracket "(")) with BRACKET.
      rewrite bool_decide_eq_true_2 by discriminate.
      rewrite bool_decide_eq_true_2 by reflexivity.
      split; [intros [out' H]; discriminate|lia].
    + change (Elem.label (Operator c)) with BINARY_OPERATION.
      rewrite bool_decide_eq_false_2 by (intros H; apply H; reflexivity).
      rewrite bool_decide_eq_false_2 by discriminate.
      apply IH, Hrest.
Qed.

Lemma scan_accepts (fuel : nat) (data_ : string) (st : ExpressionSolver.state) :
  (size data_ - ExpressionSolver.position_ st <= fuel)%nat ->
  Forall stack_token (ExpressionSolver.stack st) ->
  Forall out_token (ExpressionSolver.out st) ->
  (exists out',
      (st' ← ExpressionSolver.scan fuel data_ st;
       ExpressionSolver.flush (ExpressionSolver.stack st') (ExpressionSolver.out st'))
      = Ok out')
  <-> string_forallb valid_symbol (ExpressionSolver.drop (ExpressionSolver.position_ st) data_)
      = true
      /\ bracket_depth (ExpressionSolver.drop (ExpressionSolver.position_ st) data_)
           (count_brackets (ExpressionSolver.stack st)) = Some 0%nat.
Proof.
  revert st. induction fuel as [|fuel IH]; intros st Hfuel Hstack Hout;
    cbn [ExpressionSolver.scan];
    destruct (ExpressionSolver.position_ st <? size data_)%nat eqn:Hlt;
    try (apply Nat.ltb_lt in Hlt; lia);
    try (apply Nat.ltb_ge in Hlt; rewrite (drop_beyond _ _ Hlt);
         cbn [mbind outcome_bind string_forallb bracket_depth];
         rewrite (flush_accepts _ _ Hstack);
         split; [intros ->; auto|intros [_ [= ->]]; reflexivity]).
  apply Nat.ltb_lt in Hlt.
  pose proof (step_accepts data_ st Hlt Hstack) as Hstep. cbv zeta in Hstep.
  destruct (ExpressionSolver.step data_ st) as [st1|e| |] eqn:Hst; [| |contradiction|contradiction].
  - cbn [mbind outcome_bind]. destruct Hstep as [Hvalid Hdepth].
    rewrite Hvalid, Hdepth.
    destruct (step_tokens _ _ _ Hstack Hout Hst) as [Hstack1 Hout1].
    apply IH; [|assumption|assumption].
    apply step_advances in Hst. lia.
  - cbn [mbind outcome_bind]. split; [intros [out' H]; discriminate|].
    intros [Hvalid Hdepth]. destruct Hstep as [H|H]; congruence.
Qed.

(** The constructor accepts exactly the texts that, whitespace removed,
    are made of letters, operators and brackets with the brackets balanced;
    nothing else about the order of the symbols is checked. *)
Theorem parse_accepts_iff (expression : string) :
  let data_ := ExpressionSolver.erase_spaces expression in
  (exists out, ExpressionSolver.parse expression = Ok out)
  <-> string_forallb valid_symbol data_ = true /\ bracket_depth data_ 0 = Some 0%nat.
Proof.
  intros data_. unfold ExpressionSolver.parse. fold data_.
  apply (scan_accepts (size data_) data_ ExpressionSolver.initial);
    [cbn; lia|constructor|constructor].
Qed.

(** ** Expressions without brackets: precedence and associativity *)

Lemma operator_rank (c : ascii) :
  ExpressionSolver.is_operation c = true ->
  Elem.priority (Operator c) = if is_multiplicative c then 1 else 0.
Proof.
  intros Hop. destruct (is_operation_cases c Hop) as [ -> | [ -> | [ -> | -> ] ] ];
    reflexivity.
Qed.

Lemma build_push (s : pending) (c : ascii) (nt : bool * string)
    (rest : list (ascii * (bool * string))) :
  pending_ok s ->
  build (pending_sum s) (pending_term s) ((c, nt) :: rest)
  = build (pending_sum (push_pending s c (Num (operand nt))))
          (pending_term (push_pending s c (Num (operand nt)))) rest.
Proof.
  intros Hok. cbn [build]. destruct s as [e|a o b|a p b m c']; cbn [push_pending].
  - cbn [pending_sum pending_term]. destruct (is_multiplicative c); reflexivity.
  - cbn [pending_sum pending_term].
    destruct (is_multiplicative c) eqn:Hc, (is_multiplicative o) eqn:Ho;
      cbn [andb negb pending_sum pending_term close]; rewrite ?Hc, ?Ho; reflexivity.
  - destruct Hok as (_ & Hp & _ & Hm). cbn [pending_sum pending_term].
    destruct (is_multiplicative c) eqn:Hc;
      cbn [pending_sum pending_term close]; rewrite ?Hc, ?Hm; reflexivity.
Qed.

Lemma push_pending_ok (s : pending) (c : ascii) (n : expr) :
  pending_ok s -> ExpressionSolver.is_operation c = true ->
  pending_ok (push_pending s c n).
Proof.
  intros Hok Hc. destruct s as [e|a o b|a p b m c']; cbn [push_pending pending_ok] in *.
  - exact Hc.
  - destruct (is_multiplicative c) eqn:Hmc, (is_multiplicative o) eqn:Hmo;
      cbn [andb negb pending_ok]; auto.
  - destruct Hok as (Hp & Hpm & Hm & Hmm).
    destruct (is_multiplicative c) eqn:Hmc; cbn [pending_ok]; auto.
Qed.

Lemma flush_pending (s : pending) :
  pending_ok s ->
  ExpressionSolver.flush (pending_stack s) (pending_out s)
  = Ok (postfix (close (pending_sum s) (pending_term s))).
Proof.
  intros Hok. destruct s as [e|a o b|a p b m c'];
    cbn [pending_stack pending_out pending_sum pending_term ExpressionSolver.flush].
  - reflexivity.
  - change (Elem.label (Operator o)) with BINARY_OPERATION.
    rewrite bool_decide_eq_false_2 by (intros H; apply H; reflexivity).
    destruct (is_multiplicative o); cbn [close postfix]; rewrite <- ?app_assoc; reflexivity.
  - change (Elem.label (Operator m)) with BINARY_OPERATION.
    change (Elem.label (Operator p)) with BINARY_OPERATION.
    rewrite !bool_decide_eq_false_2 by (intros H; apply H; reflexivity).
    cbn [close postfix]. rewrite <- !app_assoc. reflexivity.
Qed.

(** The operator turn on a pending state. *)
Lemma pop_priority_pending (s : pending) (c : ascii) (v : Z) :
  pending_ok s -> ExpressionSolver.is_operation c = true ->
  exists stack' out',
    ExpressionSolver.pop_priority (Operator c) (pending_stack s) (pending_out s)
    = (stack', out')
    /\ Operator c :: stack' = pending_stack (push_pending s c (Num v))
    /\ (out' ++ [Value v])%list = pending_out (push_pending s c (Num v)).
Proof.
  intros Hok Hc. pose proof (operator_rank c Hc) as Hrc.
  destruct s as [e|a o b|a p b m c'];
    cbn [pending_stack pending_out push_pending ExpressionSolver.pop_priority].
  - eexists _, _. split; [reflexivity|]. split; reflexivity.
  - cbn [pending_ok] in Hok. rewrite (operator_rank o Hok), Hrc.
    destruct (is_multiplicative c), (is_multiplicative o); cbn [andb negb Z.geb Z.compare];
      eexists _, _; (split; [reflexivity|]);
      cbn [pending_stack pending_out postfix]; rewrite <- ?app_assoc; split; reflexivity.
  - destruct Hok as (Hp & Hpm & Hm & Hmm).
    rewrite (operator_rank m Hm), (operator_rank p Hp), Hrc, Hpm, Hmm.
    destruct (is_multiplicative c); cbn [andb negb Z.geb Z.compare];
      eexists _, _; (split; [reflexivity|]);
      cbn [pending_stack pending_out postfix]; rewrite <- ?app_assoc; split; reflexivity.
Qed.

Lemma to_int64_loop_range (text : string) (result : Z) (prev_literal : ascii) :
  in_int64 result -> in_int64 (RomanConverter.to_int64_loop text result prev_literal).
Proof.
  revert result prev_literal. induction text as [|c rest IH]; intros result prev Hres;
    [exact Hres|].
  cbn [RomanConverter.to_int64_loop]. apply IH.
  destruct (_ && _); apply wrap64_range.
Qed.

Lemma to_int64_range (text : string) : in_int64 (RomanConverter.to_int64 text).
Proof.
  unfold RomanConverter.to_int64.
  destruct (_ && _); [|apply to_int64_loop_range];
    unfold in_int64; vm_compute; split; discriminate.
Qed.

Lemma numeral_text_spec (t : string) :
  numeral_text t = true ->
  (0 < size t)%nat /\ string_forallb ExpressionSolver.is_roman t = true.
Proof.
  unfold numeral_text. rewrite andb_true_iff, negb_true_iff, Nat.eqb_neq. intros [? ?].
  split; [lia|assumption].
Qed.

Lemma size_app (a b : string) : size (a +:+ b) = (size a + size b)%nat.
Proof.
  induction a as [|c a IH]; [reflexivity|].
  change (String c a +:+ b) with (String c (a +:+ b)).
  unfold size in *. cbn [String.length]. rewrite IH. reflexivity.
Qed.

Lemma drop_app (a b : string) : ExpressionSolver.drop (size a) (a +:+ b) = b.
Proof.
  induction a as [|c a IH]; [reflexivity|].
  change (String c a +:+ b) with (String c (a +:+ b)).
  change (size (String c a)) with (S (size a)). exact IH.
Qed.

Lemma roman_run_app (t rest : string) :
  string_forallb ExpressionSolver.is_roman t = true ->
  ExpressionSolver.is_roman (char_at rest 0) = false ->
  ExpressionSolver.roman_run (t +:+ rest) = t.
Proof.
  intros Ht Hrest. induction t as [|c t IH].
  - change ("" +:+ rest) with rest.
    destruct rest as [|c rest]; [reflexivity|].
    cbn [char_at] in Hrest. cbn [ExpressionSolver.roman_run]. rewrite Hrest. reflexivity.
  - cbn [string_forallb] in Ht. apply andb_true_iff in Ht as [Hc Ht].
    change (String c t +:+ rest) with (String c (t +:+ rest)).
    cbn [ExpressionSolver.roman_run]. rewrite Hc, IH by exact Ht. reflexivity.
Qed.

Lemma render_rest_head (rest : list (ascii * (bool * string))) :
  flat_rest_ok rest ->
  ExpressionSolver.is_roman (char_at (render_rest rest) 0) = false.
Proof.
  intros Hrest. destruct Hrest as [|[c nt] rest [Hc _] _]; [reflexivity|].
  cbn [render_rest char_at fst] in *.
  destruct (is_operation_cases c Hc) as [ -> | [ -> | [ -> | -> ] ] ]; reflexivity.
Qed.

Lemma drop_empty_end (data_ : string) (p : nat) :
  ExpressionSolver.drop p data_ = "" -> (size data_ <= p)%nat.
Proof.
  intros Hdrop. destruct (Nat.lt_ge_cases p (size data_)) as [Hlt|Hge]; [|exact Hge].
  rewrite (drop_char_at _ _ Hlt) in Hdrop. discriminate.
Qed.

Lemma is_roman_not_operation (c : ascii) :
  ExpressionSolver.is_roman c = true -> ExpressionSolver.is_operation c = false.
Proof.
  unfold ExpressionSolver.is_roman, ExpressionSolver.available_symbols, eqc.
  cbn [existsb]. rewrite !orb_true_iff, !Ascii.eqb_eq.
  intros [ -> | [ -> | [ -> | [ -> | [ -> | [ -> | [ -> | [ -> | H ] ] ] ] ] ] ] ];
    [reflexivity..|discriminate].
Qed.

(** An operator that follows a letter is binary. *)
Lemma not_unary_after_letter (data_ : string) (p : nat) :
  (0 < p)%nat ->
  ExpressionSolver.is_roman (char_at data_ (p - 1)) = true ->
  ExpressionSolver.is_unary data_ p = false.
Proof.
  intros Hp Hprev. destruct (ExpressionSolver.is_unary data_ p) eqn:Hu; [|reflexivity].
  apply is_unary_iff in Hu as (_ & _ & [H0|(before & -> & Hbefore)]); [lia|].
  replace (S before - 1)%nat with before in Hprev by lia.
  rewrite (is_roman_not_operation _ Hprev) in Hbefore.
  destruct (is_roman_not_bracket _ Hprev) as [_ Hclose].
  destruct Hbefore as [H|H]; [discriminate|].
  rewrite H in Hclose. discriminate.
Qed.

Lemma reaches_trans (data_ : string) (a b c : ExpressionSolver.state) :
  reaches data_ a b -> reaches data_ b c -> reaches data_ a c.
Proof.
  induction 1 as [st|st st1 st2 Hlt Hstep Hreach IH]; [auto|].
  intros Hbc. eapply reaches_turn; eauto.
Qed.

Lemma drop_nonempty (data_ : string) (p : nat) (c : ascii) (s : string) :
  ExpressionSolver.drop p data_ = String c s ->
  (p < size data_)%nat /\ char_at data_ p = c /\ ExpressionSolver.drop (S p) data_ = s.
Proof.
  intros Hdrop.
  assert (Hlt : (p < size data_)%nat).
  { destruct (Nat.lt_ge_cases p (size data_)) as [H|H]; [exact H|].
    rewrite (drop_beyond _ _ H) in Hdrop. discriminate. }
  pose proof (drop_char_at _ _ Hlt) as Hhead. rewrite Hdrop in Hhead.
  split; [exact Hlt|]. split; congruence.
Qed.

Lemma step_numeral (data_ : string) (st : ExpressionSolver.state) (t rest : string) :
  numeral_text t = true ->
  ExpressionSolver.is_roman (char_at rest 0) = false ->
  ExpressionSolver.drop (ExpressionSolver.position_ st) data_ = t +:+ rest ->
  (ExpressionSolver.position_ st < size data_)%nat
  /\ ExpressionSolver.step data_ st
     = Ok {| ExpressionSolver.position_ := ExpressionSolver.position_ st + size t;
             ExpressionSolver.unarity := 1;
             ExpressionSolver.stack := ExpressionSolver.stack st;
             ExpressionSolver.out :=
               ExpressionSolver.out st
               ++ [Value (wrap64 (RomanConverter.to_int64 t * ExpressionSolver.unarity st))] |}
  /\ ExpressionSolver.drop (ExpressionSolver.position_ st + size t) data_ = rest
  /\ ExpressionSolver.is_roman
       (char_at data_ (ExpressionSolver.position_ st + size t - 1)) = true.
Proof.
  intros Ht Hrest Hdrop.
  destruct (numeral_text_spec t Ht) as [Hlen Hletters].
  assert (Hrun : ExpressionSolver.roman_run
                   (ExpressionSolver.drop (ExpressionSolver.position_ st) data_) = t).
  { rewrite Hdrop. apply roman_run_app; assumption. }
  assert (Hletter : forall i, (i < size t)%nat ->
            ExpressionSolver.is_roman (char_at data_ (ExpressionSolver.position_ st + i)) = true).
  { intros i Hi. rewrite <- char_at_drop. apply roman_run_letters. rewrite Hrun. exact Hi. }
  assert (Hfirst : ExpressionSolver.is_roman
                     (char_at data_ (ExpressionSolver.position_ st)) = true).
  { rewrite <- (Nat.add_0_r (ExpressionSolver.position_ st)). apply Hletter. exact Hlen. }
  split; [apply is_roman_in_range, Hfirst|]. split; [|split].
  - rewrite step_at_roman by exact Hfirst. cbv zeta. rewrite Hrun. reflexivity.
  - rewrite <- drop_drop, Hdrop. apply drop_app.
  - replace (ExpressionSolver.position_ st + size t - 1)%nat
      with (ExpressionSolver.position_ st + (size t - 1))%nat by lia.
    apply Hletter. lia.
Qed.

(** A minus in front of a numeral, at the start or after an operator, only
    sets the sign. *)
Lemma step_sign (data_ : string) (st : ExpressionSolver.state) (t rest : string) :
  numeral_text t = true ->
  ExpressionSolver.drop (ExpressionSolver.position_ st) data_ = String "-" (t +:+ rest) ->
  ExpressionSolver.position_ st = 0%nat
  \/ ((0 < ExpressionSolver.position_ st)%nat
      /\ ExpressionSolver.is_operation
           (char_at data_ (ExpressionSolver.position_ st - 1)) = true) ->
  (ExpressionSolver.position_ st < size data_)%nat
  /\ ExpressionSolver.step data_ st
     = Ok {| ExpressionSolver.position_ := ExpressionSolver.position_ st + 1;
             ExpressionSolver.unarity := -1;
             ExpressionSolver.stack := ExpressionSolver.stack st;
             ExpressionSolver.out := ExpressionSolver.out st |}.
Proof.
  intros Ht Hdrop Hbefore.
  destruct (drop_nonempty _ _ _ _ Hdrop) as (Hlt & Hchar & Hnext).
  destruct (numeral_text_spec t Ht) as [Hlen Hletters].
  destruct t as [|c t]; [size_lia|].
  change (String c t +:+ rest) with (String c (t +:+ rest)) in Hnext.
  destruct (drop_nonempty _ _ _ _ Hnext) as (Hlt1 & Hchar1 & _).
  cbn [string_forallb] in Hletters. apply andb_true_iff in Hletters as [Hc _].
  split; [exact Hlt|].
  rewrite step_at_operation by (rewrite Hchar; reflexivity).
  assert (Hunary : ExpressionSolver.is_unary data_ (ExpressionSolver.position_ st) = true).
  { apply is_unary_iff. split; [exact Hchar|].
    replace (ExpressionSolver.position_ st + 1)%nat with (S (ExpressionSolver.position_ st))
      by lia.
    split; [split; [exact Hlt1|right; rewrite Hchar1; exact Hc]|].
    destruct Hbefore as [H0|[Hpos Hop]]; [left; exact H0|]. right.
    exists (ExpressionSolver.position_ st - 1)%nat. split; [lia|left; exact Hop]. }
  rewrite Hunary. reflexivity.
Qed.

(** Reading one operand, signed or not. *)
Lemma step_operand (data_ : string) (st : ExpressionSolver.state)
    (nt : bool * string) (rest : string) :
  numeral_text (snd nt) = true ->
  ExpressionSolver.is_roman (char_at rest 0) = false ->
  ExpressionSolver.drop (ExpressionSolver.position_ st) data_ = render_operand nt +:+ rest ->
  ExpressionSolver.unarity st = 1 ->
  (fst nt = true ->
   ExpressionSolver.position_ st = 0%nat
   \/ ((0 < ExpressionSolver.position_ st)%nat
       /\ ExpressionSolver.is_operation
            (char_at data_ (ExpressionSolver.position_ st - 1)) = true)) ->
  exists st',
    (ExpressionSolver.position_ st < size data_)%nat
    /\ reaches data_ st st'
    /\ ExpressionSolver.stack st' = ExpressionSolver.stack st
    /\ ExpressionSolver.out st' = (ExpressionSolver.out st ++ [Value (operand nt)])%list
    /\ ExpressionSolver.drop (ExpressionSolver.position_ st') data_ = rest
    /\ (0 < ExpressionSolver.position_ st')%nat
    /\ ExpressionSolver.is_roman (char_at data_ (ExpressionSolver.position_ st' - 1)) = true.
Proof.
  destruct nt as [negative t]. cbn [fst snd]. intros Ht Hrest Hdrop Hone Hbefore.
  destruct (numeral_text_spec t Ht) as [Hlen _].
  destruct negative; unfold render_operand in Hdrop; cbn [fst snd] in Hdrop.
  - change (String "-" t +:+ rest) with (String "-" (t +:+ rest)) in Hdrop.
    destruct (step_sign data_ st t rest Ht Hdrop (Hbefore eq_refl)) as [Hlt Hstep1].
    destruct (drop_nonempty _ _ _ _ Hdrop) as (_ & _ & Hnext).
    match type of Hstep1 with _ = Ok ?s1 => set (st1 := s1) in * end.
    destruct (step_numeral data_ st1 t rest Ht Hrest) as (Hlt1 & Hstep2 & Hdrop2 & Hprev2).
    { cbn [ExpressionSolver.position_ st1].
      replace (ExpressionSolver.position_ st + 1)%nat with (S (ExpressionSolver.position_ st))
        by lia.
      exact Hnext. }
    cbn [ExpressionSolver.position_ ExpressionSolver.stack ExpressionSolver.out
         ExpressionSolver.unarity st1] in Hstep2, Hdrop2, Hprev2.
    eexists. split; [exact Hlt|]. split.
    { eapply reaches_turn; [exact Hlt|exact Hstep1|].
      eapply reaches_turn; [exact Hlt1|exact Hstep2|apply reaches_here]. }
    cbn [ExpressionSolver.position_ ExpressionSolver.stack ExpressionSolver.out].
    repeat split; try assumption; lia.
  - destruct (step_numeral data_ st t rest Ht Hrest Hdrop) as (Hlt & Hstep & Hdrop2 & Hprev2).
    rewrite Hone in Hstep.
    eexists. split; [exact Hlt|]. split.
    { eapply reaches_turn; [exact Hlt|exact Hstep|apply reaches_here]. }
    cbn [ExpressionSolver.position_ ExpressionSolver.stack ExpressionSolver.out].
    repeat split; try assumption; lia.
Qed.

Lemma flat_turn (data_ : string) (st : ExpressionSolver.state) (s : pending)
    (c : ascii) (nt : bool * string) (rest : list (ascii * (bool * string))) :
  flat_state data_ st s ((c, nt) :: rest) ->
  ExpressionSolver.is_operation c = true -> numeral_text (snd nt) = true ->
  flat_rest_ok rest ->
  exists st', reaches data_ st st'
              /\ flat_state data_ st' (push_pending s c (Num (operand nt))) rest.
Proof.
  intros (Hstack & Hout & Hdrop & Hpos & Hprev & Hok) Hc Ht Hrest.
  set (p := ExpressionSolver.position_ st) in *.
  cbn [render_rest] in Hdrop.
  destruct (drop_nonempty _ _ _ _ Hdrop) as (Hlt & Hchar & Hdrop1).
  destruct (pop_priority_pending s c (operand nt) Hok Hc)
    as (stack' & out' & Hpop & Hstack' & Hout').
  set (st1 := {| ExpressionSolver.position_ := p + 1; ExpressionSolver.unarity := 1;
                 ExpressionSolver.stack := Operator c :: stack';
                 ExpressionSolver.out := out' |}).
  assert (Hstep1 : ExpressionSolver.step data_ st = Ok st1).
  { rewrite step_at_operation by (fold p; rewrite Hchar; exact Hc).
    fold p. rewrite (not_unary_after_letter data_ p Hpos Hprev). cbv zeta.
    rewrite Hchar, Hstack, Hout, Hpop. reflexivity. }
  destruct (step_operand data_ st1 nt (render_rest rest) Ht (render_rest_head rest Hrest))
    as (st2 & _ & Hreach & Hstack2 & Hout2 & Hdrop2 & Hpos2 & Hprev2).
  { cbn [ExpressionSolver.position_ st1]. replace (p + 1)%nat with (S p) by lia.
    exact Hdrop1. }
  { reflexivity. }
  { intros _. right. cbn [ExpressionSolver.position_ st1].
    replace (p + 1 - 1)%nat with p by lia. rewrite Hchar. split; [lia|exact Hc]. }
  exists st2. split.
  - eapply reaches_turn; [exact Hlt|exact Hstep1|exact Hreach].
  - unfold flat_state. rewrite Hstack2, Hout2.
    cbn [ExpressionSolver.stack ExpressionSolver.out st1].
    repeat split; try assumption.
    apply push_pending_ok; assumption.
Qed.

Lemma flat_scan (data_ : string) (rest : list (ascii * (bool * string))) :
  flat_rest_ok rest ->
  forall st s,
    flat_state data_ st s rest ->
    exists st', reaches data_ st st'
                /\ (size data_ <= ExpressionSolver.position_ st')%nat
                /\ ExpressionSolver.flush (ExpressionSolver.stack st') (ExpressionSolver.out st')
                   = Ok (postfix (build (pending_sum s) (pending_term s) rest)).
Proof.
  induction 1 as [|[c nt] rest [Hc Ht] Hrest IH]; intros st s Hstate.
  - destruct Hstate as (Hstack & Hout & Hdrop & _ & _ & Hok).
    exists st. split; [constructor|]. split; [apply drop_empty_end, Hdrop|].
    rewrite Hstack, Hout. apply flush_pending, Hok.
  - cbn [fst snd] in Hc, Ht.
    pose proof Hstate as (_ & _ & _ & _ & _ & Hok).
    destruct (flat_turn data_ st s c nt rest Hstate Hc Ht Hrest) as (st1 & Hreach1 & Hstate1).
    destruct (IH st1 _ Hstate1) as (st' & Hreach & Hend & Hflush).
    exists st'. split; [eapply reaches_trans; eassumption|]. split; [exact Hend|].
    rewrite (build_push s c nt rest Hok). exact Hflush.
Qed.

Lemma valid_symbol_not_space (c : ascii) :
  valid_symbol c = true -> ExpressionSolver.isspace c = false.
Proof.
  unfold valid_symbol, ExpressionSolver.is_roman, ExpressionSolver.is_operation,
    ExpressionSolver.available_symbols, eqc.
  cbn [existsb]. rewrite !orb_true_iff, !Ascii.eqb_eq. intros H.
  repeat match goal with
         | H : _ \/ _ |- _ => destruct H as [H|H]
         | H : false = true |- _ => discriminate H
         | H : c = _ |- _ => rewrite H; reflexivity
         end.
Qed.

Lemma erase_spaces_valid (s : string) :
  string_forallb valid_symbol s = true -> ExpressionSolver.erase_spaces s = s.
Proof.
  induction s as [|c s IH]; [reflexivity|]. cbn [string_forallb ExpressionSolver.erase_spaces].
  intros H. apply andb_true_iff in H as [Hc Hs].
  rewrite (valid_symbol_not_space c Hc), IH by exact Hs. reflexivity.
Qed.

Lemma string_forallb_app (f : ascii -> bool) (a b : string) :
  string_forallb f (a +:+ b) = string_forallb f a && string_forallb f b.
Proof.
  induction a as [|c a IH]; [reflexivity|].
  change (String c a +:+ b) with (String c (a +:+ b)).
  cbn [string_forallb]. rewrite IH, andb_assoc. reflexivity.
Qed.

Lemma numeral_text_valid (t : string) :
  numeral_text t = true -> string_forallb valid_symbol t = true.
Proof.
  intros Ht. destruct (numeral_text_spec t Ht) as [_ Hl]. clear Ht.
  induction t as [|c t IH]; [reflexivity|]. cbn [string_forallb] in *.
  apply andb_true_iff in Hl as [Hc Hl]. rewrite IH by exact Hl.
  unfold valid_symbol. rewrite Hc. reflexivity.
Qed.

Lemma render_operand_valid (nt : bool * string) :
  numeral_text (snd nt) = true -> string_forallb valid_symbol (render_operand nt) = true.
Proof.
  intros Ht. destruct nt as [[|] t]; unfold render_operand; cbn [fst snd] in *;
    [cbn [string_forallb]|]; rewrite (numeral_text_valid t Ht); reflexivity.
Qed.

Lemma render_valid (first : bool * string) (rest : list (ascii * (bool * string))) :
  flat_ok first rest -> string_forallb valid_symbol (render first rest) = true.
Proof.
  intros [Hfirst Hrest]. unfold render.
  rewrite string_forallb_app, (render_operand_valid first Hfirst). cbn [andb].
  induction Hrest as [|[c nt] rest [Hc Ht] Hrest IH]; [reflexivity|].
  cbn [fst snd render_rest string_forallb] in *.
  rewrite string_forallb_app, (render_operand_valid nt Ht), IH.
  unfold valid_symbol. rewrite Hc, orb_true_r. reflexivity.
Qed.

Lemma parse_flat (first : bool * string) (rest : list (ascii * (bool * string))) :
  flat_ok first rest ->
  ExpressionSolver.parse (render first rest) = Ok (postfix (precedence_tree first rest)).
Proof.
  intros Hflat. pose proof Hflat as [Hfirst Hrest].
  unfold ExpressionSolver.parse.
  rewrite (erase_spaces_valid _ (render_valid first rest Hflat)).
  set (data_ := render first rest).
  destruct (step_operand data_ ExpressionSolver.initial first (render_rest rest)
              Hfirst (render_rest_head rest Hrest) eq_refl eq_refl
              (fun _ => or_introl eq_refl))
    as (st1 & _ & Hreach1 & Hstack1 & Hout1 & Hdrop1 & Hpos1 & Hprev1).
  destruct (flat_scan data_ rest Hrest st1 (P0 (Num (operand first))))
    as (st' & Hreach & Hend & Hflush).
  { unfold flat_state. rewrite Hstack1, Hout1. cbn. repeat split; assumption. }
  rewrite (reaches_scan_end data_ _ st' (reaches_trans _ _ _ _ Hreach1 Hreach) Hend)
    by (cbn; lia).
  exact Hflush.
Qed.

Lemma solve_postfix (e : expr) :
  ExpressionSolver.solve (postfix e) = (v ← eval e; RomanConverter.to_roman v).
Proof.
  rewrite solve_evaluate. f_equal. unfold ExpressionSolver.evaluate.
  pose proof (postfix_nonempty e) as Hne.
  destruct (postfix e) as [|element out] eqn:Hpost; [contradiction|].
  rewrite <- Hpost, <- (app_nil_r (postfix e)), solve_loop_postfix.
  destruct (eval e) as [v| | |]; reflexivity.
Qed.

Lemma operand_value (nt : bool * string) :
  Z.of_nat (size (snd nt)) <= 2 ^ 50 ->
  operand nt = sign_of (fst nt) * RomanConverter.to_int64 (snd nt).
Proof.
  intros Hlen. unfold operand.
  pose proof (to_int64_loop_bounds (snd nt) 0 NUL) as Hloop.
  assert (Hb : 0 <= RomanConverter.to_int64 (snd nt) <= 1000 * Z.of_nat (size (snd nt))).
  { unfold RomanConverter.to_int64. destruct (_ && _); [lia|]. apply Hloop; [lia|].
    unfold max_int64. change (2 ^ 63) with 9223372036854775808.
    change (2 ^ 50) with 1125899906842624 in Hlen. lia. }
  change (2 ^ 50) with 1125899906842624 in Hlen.
  rewrite wrap64_id; [lia|].
  unfold in_int64, min_int64, max_int64. change (2 ^ 63) with 9223372036854775808.
  destruct (fst nt); cbn [sign_of]; lia.
Qed.

(** An expression without brackets, an operand followed by operators and
    operands, each operand a numeral with or without a minus sign in front,
    is read with [*] and [/] binding tighter than [+] and [-] and with
    operators of equal rank associating to the left: its postfix form is
    that of its precedence tree, and its answer is the text of the tree's
    value.  The leaves are the numerals' values, negated under a sign. *)
Theorem flat_expression_precedence (first : bool * string)
    (rest : list (ascii * (bool * string))) :
  flat_ok first rest ->
  ExpressionSolver.parse (render first rest) = Ok (postfix (precedence_tree first rest))
  /\ ExpressionSolver.calc (render first rest)
     = (v ← eval (precedence_tree first rest); RomanConverter.to_roman v)
  /\ (forall nt, Z.of_nat (size (snd nt)) <= 2 ^ 50 ->
        operand nt = sign_of (fst nt) * RomanConverter.to_int64 (snd nt)).
Proof.
  intros Hflat. pose proof (parse_flat first rest Hflat) as Hparse.
  split; [exact Hparse|]. split; [|apply operand_value].
  unfold ExpressionSolver.calc. rewrite Hparse. cbn [mbind outcome_bind].
  apply solve_postfix.
Qed.

Lemma flat_expression_precedence_witness :
  ExpressionSolver.calc
    (render (true, "X") [("-"%char, (true, "II")); ("*"%char, (false, "III"));
                         ("-"%char, (false, "I"))])
  = (v ← eval (precedence_tree (true, "X")
                 [("-"%char, (true, "II")); ("*"%char, (false, "III"));
                  ("-"%char, (false, "I"))]);
     RomanConverter.to_roman v).
Proof.
  apply (flat_expression_precedence (true, "X")
           [("-"%char, (true, "II")); ("*"%char, (false, "III"));
            ("-"%char, (false, "I"))]).
  split; [reflexivity|]. repeat constructor.
Defined.

(** ** The errors of the evaluator *)

(** The scan of the evaluator throws two errors only: the format error,
    and the division by zero, the latter only when the sequence holds a
    [/] operator. *)
Theorem evaluator_error_kinds (out stack : list Element) (e : logic_error) :
  ExpressionSolver.solve_loop out stack = Throw e ->
  e = MalformedExpression
  \/ (e = DivisionByZero
      /\ Exists (fun element => Elem.label element = BINARY_OPERATION
                                /\ Elem.value element = code "/") out).
Proof.
  revert stack. induction out as [|element out IH]; intros stack; [discriminate|].
  cbn [ExpressionSolver.solve_loop].
  destruct (bool_decide (Elem.label element = BINARY_OPERATION)) eqn:Hop.
  - apply bool_decide_eq_true in Hop.
    destruct stack as [|right_ [|left_ stack]]; try (intros [= <-]; left; reflexivity).
    destruct (_ || _); [intros [= <-]; left; reflexivity|].
    destruct (Elem.proceed element left_ right_) as [r|e'| |] eqn:Hp; cbn [mbind outcome_bind].
    + intros Hloop. destruct (IH _ Hloop) as [H|[H1 H2]]; [left; exact H|].
      right. split; [exact H1|apply Exists_cons_tl, H2].
    + intros [= ->]. apply proceed_throw_division in Hp as (-> & Hdiv).
      right. split; [reflexivity|]. apply Exists_cons_hd. split; assumption.
    + discriminate.
    + discriminate.
  - intros Hloop. destruct (IH _ Hloop) as [H|[H1 H2]]; [left; exact H|].
    right. split; [exact H1|apply Exists_cons_tl, H2].
Qed.

Lemma evaluator_error_kinds_witness :
  DivisionByZero = MalformedExpression
  \/ (DivisionByZero = DivisionByZero
      /\ Exists (fun element => Elem.label element = BINARY_OPERATION
                                /\ Elem.value element = code "/")
           [Value 5; Value 0; Operator "/"]).
Proof.
  apply (evaluator_error_kinds [Value 5; Value 0; Operator "/"] [] DivisionByZero).
  reflexivity.
Defined.

(** ** Expressions with brackets *)

Lemma string_app_assoc (a b c : string) : (a +:+ b) +:+ c = a +:+ (b +:+ c).
Proof.
  induction a as [|x a IH]; [reflexivity|].
  change ((String x a +:+ b) +:+ c) with (String x ((a +:+ b) +:+ c)).
  rewrite IH. reflexivity.
Qed.

Lemma not_unary_other (data_ : string) (p : nat) :
  char_at data_ p <> "-"%char -> ExpressionSolver.is_unary data_ p = false.
Proof.
  intros Hc. destruct (ExpressionSolver.is_unary data_ p) eqn:Hu; [|reflexivity].
  apply is_unary_iff in Hu as (Hminus & _). contradiction.
Qed.

Lemma build_ops_push (s : pending) (c : ascii) (i : item) (rest : ops) :
  pending_ok s ->
  build_ops (pending_sum s) (pending_term s) (OCons c i rest)
  = build_ops (pending_sum (push_pending s c (tree_item i)))
              (pending_term (push_pending s c (tree_item i))) rest.
Proof.
  intros Hok. cbn [build_ops]. destruct s as [e|a o b|a p b m c']; cbn [push_pending].
  - cbn [pending_sum pending_term]. destruct (is_multiplicative c); reflexivity.
  - cbn [pending_sum pending_term].
    destruct (is_multiplicative c) eqn:Hc, (is_multiplicative o) eqn:Ho;
      cbn [andb negb pending_sum pending_term close]; rewrite ?Hc, ?Ho; reflexivity.
  - destruct Hok as (_ & Hp & _ & Hm). cbn [pending_sum pending_term].
    destruct (is_multiplicative c) eqn:Hc;
      cbn [pending_sum pending_term close]; rewrite ?Hc, ?Hm; reflexivity.
Qed.

(** The operator turn inside a bracket: what lies at and below the open
    bracket stays where it is. *)
Lemma pop_priority_frame (s : pending) (c : ascii) (n : expr)
    (base base_out : list Element) :
  pending_ok s -> ExpressionSolver.is_operation c = true -> base_ok base ->
  exists stack' out',
    ExpressionSolver.pop_priority (Operator c) (pending_stack s ++ base)
      (base_out ++ pending_out s)
    = (stack', out')
    /\ Operator c :: stack' = (pending_stack (push_pending s c n) ++ base)%list
    /\ (out' ++ postfix n)%list = (base_out ++ pending_out (push_pending s c n))%list.
Proof.
  intros Hok Hc Hbase. pose proof (operator_rank c Hc) as Hrc.
  assert (Hstop : forall out,
             ExpressionSolver.pop_priority (Operator c) base out = (base, out)).
  { intros out. destruct Hbase as [ -> | [below ->] ]; [reflexivity|].
    cbn [ExpressionSolver.pop_priority].
    change (Elem.priority (Bracket "(")) with (-1). rewrite Hrc.
    destruct (is_multiplicative c); reflexivity. }
  destruct s as [e|a o b|a p b m c'];
    cbn [pending_stack pending_out push_pending app ExpressionSolver.pop_priority].
  - rewrite Hstop. eexists _, _. split; [reflexivity|].
    cbn [pending_stack pending_out app]. rewrite <- !app_assoc. split; reflexivity.
  - cbn [pending_ok] in Hok. rewrite (operator_rank o Hok), Hrc.
    destruct (is_multiplicative c), (is_multiplicative o); cbn [andb negb Z.geb Z.compare];
      rewrite ?Hstop; eexists _, _; (split; [reflexivity|]);
      cbn [pending_stack pending_out postfix app]; rewrite <- ?app_assoc;
      split; reflexivity.
  - destruct Hok as (Hp & Hpm & Hm & Hmm).
    rewrite (operator_rank m Hm), Hrc, Hmm.
    destruct (is_multiplicative c); cbn [andb negb Z.geb Z.compare];
      cbn [ExpressionSolver.pop_priority];
      rewrite (operator_rank p Hp), ?Hrc, Hpm; cbn [Z.geb Z.compare];
      rewrite ?Hstop; eexists _, _; (split; [reflexivity|]);
      cbn [pending_stack pending_out postfix app]; rewrite <- ?app_assoc;
      split; reflexivity.
Qed.

(** The close bracket: the pending operators go to the output, the open
    bracket goes away. *)
Lemma pop_to_bracket_frame (s : pending) (below base_out : list Element) :
  pending_ok s ->
  ExpressionSolver.pop_to_bracket (pending_stack s ++ Bracket "(" :: below)
    (base_out ++ pending_out s)
  = (Bracket "(" :: below,
     (base_out ++ postfix (close (pending_sum s) (pending_term s)))%list).
Proof.
  intros Hok. destruct s as [e|a o b|a p b m c'];
    cbn [pending_stack pending_out pending_sum pending_term app
         ExpressionSolver.pop_to_bracket].
  - change (Elem.label (Bracket "(")) with BRACKET.
    rewrite bool_decide_eq_false_2 by (intros H; apply H; reflexivity). reflexivity.
  - change (Elem.label (Operator o)) with BINARY_OPERATION.
    change (Elem.label (Bracket "(")) with BRACKET.
    rewrite bool_decide_eq_true_2 by discriminate.
    rewrite bool_decide_eq_false_2 by (intros H; apply H; reflexivity).
    destruct (is_multiplicative o); cbn [close postfix]; rewrite <- ?app_assoc; reflexivity.
  - change (Elem.label (Operator m)) with BINARY_OPERATION.
    change (Elem.label (Operator p)) with BINARY_OPERATION.
    change (Elem.label (Bracket "(")) with BRACKET.
    rewrite !bool_decide_eq_true_2 by discriminate.
    rewrite bool_decide_eq_false_2 by (intros H; apply H; reflexivity).
    cbn [close postfix]. rewrite <- !app_assoc. reflexivity.
Qed.

Lemma ops_head (after_group : bool) (r : ops) (suffix : string) :
  ops_ok after_group r ->
  ExpressionSolver.is_roman (char_at suffix 0) = false ->
  ExpressionSolver.is_roman (char_at (render_ops r +:+ suffix) 0) = false.
Proof.
  intros Hok Hsuffix. destruct r as [|c i rest]; [exact Hsuffix|].
  destruct Hok as (Hc & _).
  change (render_ops (OCons c i rest)) with (String c (render_item i +:+ render_ops rest)).
  change (char_at (String c (render_item i +:+ render_ops rest) +:+ suffix) 0) with c.
  destruct (is_operation_cases c Hc) as [ -> | [ -> | [ -> | -> ] ] ]; reflexivity.
Qed.

Lemma step_open_bracket (data_ : string) (st : ExpressionSolver.state) :
  char_at data_ (ExpressionSolver.position_ st) = "("%char ->
  ExpressionSolver.step data_ st
  = Ok {| ExpressionSolver.position_ := ExpressionSolver.position_ st + 1;
          ExpressionSolver.unarity := 1;
          ExpressionSolver.stack := Bracket "(" :: ExpressionSolver.stack st;
          ExpressionSolver.out := ExpressionSolver.out st |}.
Proof. intros Hc. unfold ExpressionSolver.step. rewrite Hc. reflexivity. Qed.

Lemma step_close_bracket (data_ : string) (st : ExpressionSolver.state)
    (s : pending) (below base_out : list Element) :
  char_at data_ (ExpressionSolver.position_ st) = ")"%char ->
  pending_ok s ->
  ExpressionSolver.stack st = (pending_stack s ++ Bracket "(" :: below)%list ->
  ExpressionSolver.out st = (base_out ++ pending_out s)%list ->
  ExpressionSolver.step data_ st
  = Ok {| ExpressionSolver.position_ := ExpressionSolver.position_ st + 1;
          ExpressionSolver.unarity := 1;
          ExpressionSolver.stack := below;
          ExpressionSolver.out :=
            base_out ++ postfix (close (pending_sum s) (pending_term s)) |}.
Proof.
  intros Hc Hok Hstack Hout. unfold ExpressionSolver.step.
  rewrite Hc, Hstack, Hout.
  change (ExpressionSolver.is_roman ")"%char) with false.
  change (eqc ")"%char "("%char) with false.
  change (eqc ")"%char ")"%char) with true. cbv iota.
  rewrite (pop_to_bracket_frame s below base_out Hok). reflexivity.
Qed.

(** Reading one item leaves the operator stack as it was and appends the
    item's postfix form; reading operators and items carries the pending
    state along. *)
Lemma grouped_scan :
  (forall i : item,
      forall (data_ : string) (st : ExpressionSolver.state) (leading : bool)
             (suffix : string),
        item_ok leading i ->
        ExpressionSolver.drop (ExpressionSolver.position_ st) data_
        = render_item i +:+ suffix ->
        ExpressionSolver.is_roman (char_at suffix 0) = false ->
        (is_group i = false -> ExpressionSolver.unarity st = 1) ->
        (leading = false ->
         ExpressionSolver.position_ st = 0%nat
         \/ ((0 < ExpressionSolver.position_ st)%nat
             /\ ExpressionSolver.is_operation
                  (char_at data_ (ExpressionSolver.position_ st - 1)) = true)) ->
        exists st',
          reaches data_ st st'
          /\ ExpressionSolver.stack st' = ExpressionSolver.stack st
          /\ ExpressionSolver.out st'
             = (ExpressionSolver.out st ++ postfix (tree_item i))%list
          /\ ExpressionSolver.drop (ExpressionSolver.position_ st') data_ = suffix
          /\ after_item data_ (ExpressionSolver.position_ st') (is_group i))
  /\ (forall r : ops,
         forall (data_ : string) (st : ExpressionSolver.state) (s : pending)
                (base base_out : list Element) (after_group : bool) (suffix : string),
           ops_ok after_group r -> pending_ok s -> base_ok base ->
           ExpressionSolver.stack st = (pending_stack s ++ base)%list ->
           ExpressionSolver.out st = (base_out ++ pending_out s)%list ->
           ExpressionSolver.drop (ExpressionSolver.position_ st) data_
           = render_ops r +:+ suffix ->
           ExpressionSolver.is_roman (char_at suffix 0) = false ->
           after_item data_ (ExpressionSolver.position_ st) after_group ->
           exists st' s',
             reaches data_ st st'
             /\ pending_ok s'
             /\ ExpressionSolver.stack st' = (pending_stack s' ++ base)%list
             /\ ExpressionSolver.out st' = (base_out ++ pending_out s')%list
             /\ ExpressionSolver.drop (ExpressionSolver.position_ st') data_ = suffix
             /\ close (pending_sum s') (pending_term s')
                = build_ops (pending_sum s) (pending_term s) r).
Proof.
  apply item_ops_mutind.
  - (* a numeral *)
    intros nt data_ st leading suffix [Ht Hlead] Hdrop Hsuffix Hone Hbefore.
    destruct (step_operand data_ st nt suffix Ht Hsuffix Hdrop (Hone eq_refl))
      as (st' & _ & Hreach & Hstack & Hout & Hdrop' & Hpos & Hprev).
    { intros Hneg. apply Hbefore. destruct leading; [|reflexivity].
      rewrite Hlead in Hneg by reflexivity. discriminate. }
    exists st'. repeat split; assumption.
  - (* a group *)
    intros first IHfirst rest IHrest data_ st leading suffix [Hfirst Hrest]
      Hdrop Hsuffix Hone _.
    change (render_item (Group first rest))
      with (String "(" (render_item first +:+ render_ops rest +:+ ")")) in Hdrop.
    change (String "(" (render_item first +:+ render_ops rest +:+ ")") +:+ suffix)
      with (String "(" ((render_item first +:+ render_ops rest +:+ ")") +:+ suffix))
      in Hdrop.
    rewrite !string_app_assoc in Hdrop.
    change (")" +:+ suffix) with (String ")" suffix) in Hdrop.
    destruct (drop_nonempty _ _ _ _ Hdrop) as (Hlt & Hchar & Hdrop1).
    set (st1 := {| ExpressionSolver.position_ := ExpressionSolver.position_ st + 1;
                   ExpressionSolver.unarity := 1;
                   ExpressionSolver.stack := Bracket "(" :: ExpressionSolver.stack st;
                   ExpressionSolver.out := ExpressionSolver.out st |}).
    assert (Hstep1 : ExpressionSolver.step data_ st = Ok st1)
      by (apply step_open_bracket, Hchar).
    assert (Hclose : ExpressionSolver.is_roman (char_at (String ")" suffix) 0) = false)
      by reflexivity.
    destruct (IHfirst data_ st1 true (render_ops rest +:+ String ")" suffix) Hfirst)
      as (st2 & Hreach2 & Hstack2 & Hout2 & Hdrop2 & Hafter2).
    { cbn [ExpressionSolver.position_ st1].
      replace (ExpressionSolver.position_ st + 1)%nat
        with (S (ExpressionSolver.position_ st)) by lia.
      exact Hdrop1. }
    { exact (ops_head _ rest _ Hrest Hclose). }
    { reflexivity. }
    { discriminate. }
    cbn [ExpressionSolver.stack ExpressionSolver.out st1] in Hstack2, Hout2.
    destruct (IHrest data_ st2 (P0 (tree_item first))
                (Bracket "(" :: ExpressionSolver.stack st) (ExpressionSolver.out st)
                (is_group first) (String ")" suffix) Hrest I)
      as (st3 & s3 & Hreach3 & Hok3 & Hstack3 & Hout3 & Hdrop3 & Htree3);
      [right; eauto|exact Hstack2|exact Hout2|exact Hdrop2|exact Hclose|exact Hafter2|].
    destruct (drop_nonempty _ _ _ _ Hdrop3) as (Hlt3 & Hchar3 & Hdrop4).
    pose proof (step_close_bracket data_ st3 s3 _ _ Hchar3 Hok3 Hstack3 Hout3) as Hstep4.
    eexists. split.
    { eapply reaches_turn; [exact Hlt|exact Hstep1|].
      eapply reaches_trans; [exact Hreach2|].
      eapply reaches_trans; [exact Hreach3|].
      eapply reaches_turn; [exact Hlt3|exact Hstep4|apply reaches_here]. }
    cbn [ExpressionSolver.position_ ExpressionSolver.stack ExpressionSolver.out].
    split; [reflexivity|]. split.
    { rewrite Htree3. reflexivity. }
    split.
    { replace (ExpressionSolver.position_ st3 + 1)%nat
        with (S (ExpressionSolver.position_ st3)) by lia.
      exact Hdrop4. }
    split; [lia|]. cbn [is_group].
    replace (ExpressionSolver.position_ st3 + 1 - 1)%nat
      with (ExpressionSolver.position_ st3) by lia.
    exact Hchar3.
  - (* no more operators *)
    intros data_ st s base base_out after_group suffix _ Hok _ Hstack Hout Hdrop _ _.
    exists st, s. split; [constructor|]. repeat split; assumption.
  - (* an operator and an item *)
    intros c i IHitem rest IHrest data_ st s base base_out after_group suffix
      (Hc & Hminus & Hitem & Hrest) Hok Hbase Hstack Hout Hdrop Hsuffix [Hpos Hprev].
    change (render_ops (OCons c i rest))
      with (String c (render_item i +:+ render_ops rest)) in Hdrop.
    change (String c (render_item i +:+ render_ops rest) +:+ suffix)
      with (String c ((render_item i +:+ render_ops rest) +:+ suffix)) in Hdrop.
    rewrite string_app_assoc in Hdrop.
    destruct (drop_nonempty _ _ _ _ Hdrop) as (Hlt & Hchar & Hdrop1).
    assert (Hbinary : ExpressionSolver.is_unary data_ (ExpressionSolver.position_ st) = false).
    { destruct after_group.
      - apply not_unary_other. rewrite Hchar. apply Hminus. reflexivity.
      - apply not_unary_after_letter; assumption. }
    destruct (pop_priority_frame s c (tree_item i) base base_out Hok Hc Hbase)
      as (stack' & out' & Hpop & Hstack' & Hout').
    set (st1 := {| ExpressionSolver.position_ := ExpressionSolver.position_ st + 1;
                   ExpressionSolver.unarity := 1;
                   ExpressionSolver.stack := Operator c :: stack';
                   ExpressionSolver.out := out' |}).
    assert (Hstep1 : ExpressionSolver.step data_ st = Ok st1).
    { rewrite step_at_operation by (rewrite Hchar; exact Hc).
      rewrite Hbinary. cbv zeta. rewrite Hchar, Hstack, Hout, Hpop. reflexivity. }
    destruct (IHitem data_ st1 false (render_ops rest +:+ suffix) Hitem)
      as (st2 & Hreach2 & Hstack2 & Hout2 & Hdrop2 & Hafter2).
    { cbn [ExpressionSolver.position_ st1].
      replace (ExpressionSolver.position_ st + 1)%nat
        with (S (ExpressionSolver.position_ st)) by lia.
      exact Hdrop1. }
    { exact (ops_head _ rest _ Hrest Hsuffix). }
    { reflexivity. }
    { intros _. right. cbn [ExpressionSolver.position_ st1].
      replace (ExpressionSolver.position_ st + 1 - 1)%nat
        with (ExpressionSolver.position_ st) by lia.
      rewrite Hchar. split; [lia|exact Hc]. }
    cbn [ExpressionSolver.stack ExpressionSolver.out st1] in Hstack2, Hout2.
    destruct (IHrest data_ st2 (push_pending s c (tree_item i)) base base_out
                (is_group i) suffix Hrest (push_pending_ok s c _ Hok Hc) Hbase)
      as (st3 & s3 & Hreach3 & Hok3 & Hstack3 & Hout3 & Hdrop3 & Htree3);
      [rewrite Hstack2; exact Hstack'|rewrite Hout2; exact Hout'|exact Hdrop2
      |exact Hsuffix|exact Hafter2|].
    exists st3, s3. split.
    { eapply reaches_turn; [exact Hlt|exact Hstep1|].
      eapply reaches_trans; eassumption. }
    repeat split; try assumption.
    rewrite Htree3. symmetry. apply build_ops_push, Hok.
Qed.

Lemma render_grouped_valid :
  (forall i leading, item_ok leading i -> string_forallb valid_symbol (render_item i) = true)
  /\ (forall r after_group, ops_ok after_group r ->
        string_forallb valid_symbol (render_ops r) = true).
Proof.
  apply item_ops_mutind.
  - intros nt leading [Ht _]. apply render_operand_valid, Ht.
  - intros first IHfirst rest IHrest leading [Hfirst Hrest].
    change (render_item (Group first rest))
      with (String "(" (render_item first +:+ render_ops rest +:+ ")")).
    cbn [string_forallb]. rewrite !string_forallb_app.
    rewrite (IHfirst _ Hfirst), (IHrest _ Hrest). reflexivity.
  - reflexivity.
  - intros c i IHitem rest IHrest after_group (Hc & _ & Hitem & Hrest).
    change (render_ops (OCons c i rest))
      with (String c (render_item i +:+ render_ops rest)).
    cbn [string_forallb]. rewrite string_forallb_app.
    rewrite (IHitem _ Hitem), (IHrest _ Hrest).
    unfold valid_symbol. rewrite Hc, orb_true_r. reflexivity.
Qed.

Lemma string_app_nil_r (a : string) : a +:+ "" = a.
Proof.
  induction a as [|x a IH]; [reflexivity|].
  change (String x a +:+ "") with (String x (a +:+ "")). rewrite IH. reflexivity.
Qed.

Lemma parse_grouped (first : item) (rest : ops) :
  item_ok false first -> ops_ok (is_group first) rest ->
  ExpressionSolver.parse (render_item first +:+ render_ops rest)
  = Ok (postfix (build_ops None (tree_item first) rest)).
Proof.
  intros Hfirst Hrest. unfold ExpressionSolver.parse.
  destruct render_grouped_valid as [Hvi Hvr].
  rewrite erase_spaces_valid
    by (rewrite string_forallb_app, (Hvi _ _ Hfirst), (Hvr _ _ Hrest); reflexivity).
  set (data_ := render_item first +:+ render_ops rest).
  destruct grouped_scan as [Hitems Hops].
  assert (Hhead : ExpressionSolver.is_roman (char_at (render_ops rest) 0) = false).
  { rewrite <- (string_app_nil_r (render_ops rest)).
    exact (ops_head _ rest "" Hrest eq_refl). }
  destruct (Hitems first data_ ExpressionSolver.initial false (render_ops rest) Hfirst)
    as (st1 & Hreach1 & Hstack1 & Hout1 & Hdrop1 & Hafter1);
    [reflexivity|exact Hhead|reflexivity|intros _; left; reflexivity|].
  cbn [ExpressionSolver.stack ExpressionSolver.out ExpressionSolver.initial app]
    in Hstack1, Hout1.
  destruct (Hops rest data_ st1 (P0 (tree_item first)) [] [] (is_group first) ""
              Hrest I (or_introl eq_refl))
    as (st2 & s2 & Hreach2 & Hok2 & Hstack2 & Hout2 & Hdrop2 & Htree2);
    [exact Hstack1|exact Hout1
     |rewrite string_app_nil_r; exact Hdrop1|reflexivity|exact Hafter1|].
  rewrite (reaches_scan_end data_ _ st2 (reaches_trans _ _ _ _ Hreach1 Hreach2)
             (drop_empty_end _ _ Hdrop2)) by (cbn; lia).
  cbn [mbind outcome_bind]. rewrite Hstack2, Hout2, app_nil_r. cbn [app].
  rewrite (flush_pending s2 Hok2), Htree2. reflexivity.
Qed.

(** Brackets group, and the rest is as without them: for a line of items
    and operators, an item being a numeral, signed or not, or such a line in
    brackets, the constructor yields the postfix form of the line's tree and
    the program answers with the text of the tree's value.  The lines are
    those where a sign stands only in front of a numeral that starts the
    text or follows an operator, and where no [-] follows a close
    bracket. *)
Theorem grouped_expression (first : item) (rest : ops) :
  item_ok false first -> ops_ok (is_group first) rest ->
  ExpressionSolver.parse (render_item first +:+ render_ops rest)
  = Ok (postfix (build_ops None (tree_item first) rest))
  /\ ExpressionSolver.calc (render_item first +:+ render_ops rest)
     = (v ← eval (build_ops None (tree_item first) rest); RomanConverter.to_roman v).
Proof.
  intros Hfirst Hrest. pose proof (parse_grouped first rest Hfirst Hrest) as Hparse.
  split; [exact Hparse|].
  unfold ExpressionSolver.calc. rewrite Hparse. cbn [mbind outcome_bind].
  apply solve_postfix.
Qed.

Lemma grouped_expression_witness :
  ExpressionSolver.calc
    (render_item (Group (Numeral (false, "II")) (OCons "+" (Numeral (true, "III")) ONil))
     +:+ render_ops
           (OCons "*" (Group (Group (Numeral (false, "X")) ONil)
                         (OCons "/" (Numeral (false, "IV")) ONil)) ONil))
  = (v ← eval (build_ops None
                 (tree_item (Group (Numeral (false, "II"))
                               (OCons "+" (Numeral (true, "III")) ONil)))
                 (OCons "*" (Group (Group (Numeral (false, "X")) ONil)
                               (OCons "/" (Numeral (false, "IV")) ONil)) ONil));
     RomanConverter.to_roman v).
Proof.
  apply (grouped_expression
           (Group (Numeral (false, "II")) (OCons "+" (Numeral (true, "III")) ONil))
           (OCons "*" (Group (Group (Numeral (false, "X")) ONil)
                         (OCons "/" (Numeral (false, "IV")) ONil)) ONil)).
  - cbn. repeat split; discriminate.
  - cbn. repeat split; discriminate.
Defined.

(** ** Where the minus is taken the other way *)

Lemma not_unary_other_before (data_ : string) (p : nat) :
  (0 < p)%nat ->
  ExpressionSolver.is_operation (char_at data_ (p - 1)) = false ->
  char_at data_ (p - 1) <> ")"%char ->
  ExpressionSolver.is_unary data_ p = false.
Proof.
  intros Hp Hop Hclose. destruct (ExpressionSolver.is_unary data_ p) eqn:Hu; [|reflexivity].
  apply is_unary_iff in Hu as (_ & _ & [H0|(before & -> & Hbefore)]); [lia|].
  replace (S before - 1)%nat with before in * by lia.
  destruct Hbefore as [H|H]; [congruence|contradiction].
Qed.

Lemma step_sign_any (data_ : string) (st : ExpressionSolver.state) :
  char_at data_ (ExpressionSolver.position_ st) = "-"%char ->
  ExpressionSolver.is_unary data_ (ExpressionSolver.position_ st) = true ->
  ExpressionSolver.step data_ st
  = Ok {| ExpressionSolver.position_ := ExpressionSolver.position_ st + 1;
          ExpressionSolver.unarity := -1;
          ExpressionSolver.stack := ExpressionSolver.stack st;
          ExpressionSolver.out := ExpressionSolver.out st |}.
Proof.
  intros Hchar Hunary.
  rewrite step_at_operation by (rewrite Hchar; reflexivity).
  rewrite Hunary. reflexivity.
Qed.

Lemma solve_group_then_value (e : expr) (v : Z) :
  ExpressionSolver.solve (postfix e ++ [Value v])%list
  = (g ← eval e; RomanConverter.to_roman g).
Proof.
  unfold ExpressionSolver.solve.
  destruct (postfix e ++ [Value v])%list as [|element out] eqn:Hout.
  { apply app_eq_nil in Hout as [_ Hout]. discriminate. }
  rewrite <- Hout, solve_loop_postfix.
  destruct (eval e) as [g| | |]; reflexivity.
Qed.

(** A [-] between a close bracket and a numeral is read as the numeral's
    sign, not as a subtraction: the postfix sequence gets the bracket's
    content and the negated numeral with no operator, and the answer is the
    value of the bracket alone. *)
Theorem minus_after_bracket_is_sign (first : item) (rest : ops) (t : string) :
  item_ok false (Group first rest) -> numeral_text t = true ->
  ExpressionSolver.parse (render_item (Group first rest) +:+ String "-" t)
  = Ok (postfix (tree_item (Group first rest)) ++ [Value (operand (true, t))])%list
  /\ ExpressionSolver.calc (render_item (Group first rest) +:+ String "-" t)
     = (g ← eval (tree_item (Group first rest)); RomanConverter.to_roman g).
Proof.
  intros Hgroup Ht.
  assert (Hparse :
            ExpressionSolver.parse (render_item (Group first rest) +:+ String "-" t)
            = Ok (postfix (tree_item (Group first rest))
                    ++ [Value (operand (true, t))])%list).
  { unfold ExpressionSolver.parse.
    destruct render_grouped_valid as [Hvi _].
    rewrite erase_spaces_valid
      by (rewrite string_forallb_app, (Hvi _ _ Hgroup); cbn [string_forallb];
          rewrite (numeral_text_valid t Ht); reflexivity).
    set (data_ := render_item (Group first rest) +:+ String "-" t).
    destruct grouped_scan as [Hitems _].
    destruct (Hitems (Group first rest) data_ ExpressionSolver.initial false
                (String "-" t) Hgroup)
      as (st1 & Hreach1 & Hstack1 & Hout1 & Hdrop1 & [Hpos1 Hprev1]);
      [reflexivity|reflexivity|discriminate|intros _; left; reflexivity|].
    cbn [ExpressionSolver.stack ExpressionSolver.out ExpressionSolver.initial app is_group]
      in Hstack1, Hout1, Hprev1.
    destruct (drop_nonempty _ _ _ _ Hdrop1) as (Hlt1 & Hchar1 & Hdrop2).
    destruct (numeral_text_spec t Ht) as [Hlen Hletters].
    assert (Hnext : (S (ExpressionSolver.position_ st1) < size data_)%nat
                    /\ ExpressionSolver.is_roman
                         (char_at data_ (S (ExpressionSolver.position_ st1))) = true).
    { destruct t as [|c t']; [size_lia|].
      destruct (drop_nonempty _ _ _ _ Hdrop2) as (Hlt2 & Hchar2 & _).
      cbn [string_forallb] in Hletters. apply andb_true_iff in Hletters as [Hc _].
      rewrite Hchar2. auto. }
    assert (Hunary : ExpressionSolver.is_unary data_ (ExpressionSolver.position_ st1) = true).
    { apply is_unary_iff. split; [exact Hchar1|].
      replace (ExpressionSolver.position_ st1 + 1)%nat
        with (S (ExpressionSolver.position_ st1)) by lia.
      split; [split; [tauto|right; tauto]|]. right.
      exists (ExpressionSolver.position_ st1 - 1)%nat. split; [lia|right; exact Hprev1]. }
    pose proof (step_sign_any data_ st1 Hchar1 Hunary) as Hstep2.
    match type of Hstep2 with _ = Ok ?x => set (st2 := x) in * end.
    destruct (step_numeral data_ st2 t "" Ht eq_refl) as (Hlt2 & Hstep3 & Hdrop3 & _).
    { cbn [ExpressionSolver.position_ st2]. rewrite string_app_nil_r.
      replace (ExpressionSolver.position_ st1 + 1)%nat
        with (S (ExpressionSolver.position_ st1)) by lia.
      exact Hdrop2. }
    match type of Hstep3 with _ = Ok ?x => set (st3 := x) in * end.
    assert (Hreach : reaches data_ ExpressionSolver.initial st3).
    { eapply reaches_trans; [exact Hreach1|].
      eapply reaches_turn; [exact Hlt1|exact Hstep2|].
      eapply reaches_turn; [exact Hlt2|exact Hstep3|apply reaches_here]. }
    rewrite (reaches_scan_end data_ _ st3 Hreach (drop_empty_end _ _ Hdrop3))
      by (cbn; lia).
    cbn [mbind outcome_bind ExpressionSolver.stack ExpressionSolver.out st3 st2
         ExpressionSolver.unarity].
    rewrite Hstack1, Hout1. reflexivity. }
  split; [exact Hparse|].
  unfold ExpressionSolver.calc. rewrite Hparse. cbn [mbind outcome_bind].
  apply solve_group_then_value.
Qed.

Lemma minus_after_bracket_is_sign_witness :
  ExpressionSolver.calc
    (render_item (Group (Numeral (false, "II")) (OCons "+" (Numeral (false, "I")) ONil))
     +:+ String "-" "V")
  = (g ← eval (tree_item (Group (Numeral (false, "II"))
                            (OCons "+" (Numeral (false, "I")) ONil)));
     RomanConverter.to_roman g).
Proof.
  apply (minus_after_bracket_is_sign (Numeral (false, "II"))
           (OCons "+" (Numeral (false, "I")) ONil) "V").
  - cbn. repeat split; discriminate.
  - reflexivity.
Defined.

(** A [-] right after an open bracket is read as a subtraction that lacks
    its left operand: "(-t)" parses to the numeral followed by the operator,
    and the evaluation throws the format error. *)
Theorem minus_after_open_bracket_is_binary (t : string) :
  numeral_text t = true ->
  ExpressionSolver.parse (String "(" (String "-" (t +:+ ")")))
  = Ok [Value (RomanConverter.to_int64 t); Operator "-"]
  /\ ExpressionSolver.calc (String "(" (String "-" (t +:+ ")")))
     = Throw MalformedExpression.
Proof.
  intros Ht.
  assert (Hparse : ExpressionSolver.parse (String "(" (String "-" (t +:+ ")")))
                   = Ok [Value (RomanConverter.to_int64 t); Operator "-"]).
  { unfold ExpressionSolver.parse.
    rewrite erase_spaces_valid
      by (cbn [string_forallb]; rewrite string_forallb_app, (numeral_text_valid t Ht);
          reflexivity).
    set (data_ := String "(" (String "-" (t +:+ ")"))).
    destruct (numeral_text_spec t Ht) as [Hlen _].
    assert (Hsize : size data_ = (size t + 3)%nat)
      by (unfold data_; change (size (String "(" (String "-" (t +:+ ")"))))
            with (S (S (size (t +:+ ")")))); rewrite size_app; cbn; lia).
    set (st1 := ExpressionSolver.mkState 1 1 [Bracket "("] []).
    set (st2 := ExpressionSolver.mkState 2 1 [Operator "-"; Bracket "("] []).
    assert (Hstep1 : ExpressionSolver.step data_ ExpressionSolver.initial = Ok st1)
      by reflexivity.
    assert (Hstep2 : ExpressionSolver.step data_ st1 = Ok st2).
    { rewrite step_at_operation by reflexivity.
      change (ExpressionSolver.position_ st1) with 1%nat.
      rewrite (not_unary_other_before data_ 1); [reflexivity|lia|reflexivity|discriminate]. }
    destruct (step_numeral data_ st2 t ")" Ht eq_refl eq_refl)
      as (Hlt2 & Hstep3 & Hdrop3 & _).
    cbn [ExpressionSolver.position_ ExpressionSolver.stack ExpressionSolver.out
         ExpressionSolver.unarity st2] in Hstep3, Hdrop3.
    rewrite Z.mul_1_r, wrap64_id in Hstep3 by apply to_int64_range.
    match type of Hstep3 with _ = Ok ?x => set (st3 := x) in * end.
    destruct (drop_nonempty _ _ _ _ Hdrop3) as (Hlt3 & Hchar3 & Hdrop4).
    assert (Hstep4 : ExpressionSolver.step data_ st3
                     = Ok (ExpressionSolver.mkState (2 + size t + 1) 1 []
                             [Value (RomanConverter.to_int64 t); Operator "-"])).
    { unfold ExpressionSolver.step.
      cbn [ExpressionSolver.position_ ExpressionSolver.stack ExpressionSolver.out st3]
        in Hchar3 |- *.
      rewrite Hchar3. reflexivity. }
    match type of Hstep4 with _ = Ok ?x => set (st4 := x) in * end.
    assert (Hreach : reaches data_ ExpressionSolver.initial st4).
    { eapply reaches_turn; [cbn; lia|exact Hstep1|].
      eapply reaches_turn; [cbn; lia|exact Hstep2|].
      eapply reaches_turn; [exact Hlt2|exact Hstep3|].
      eapply reaches_turn; [exact Hlt3|exact Hstep4|apply reaches_here]. }
    assert (Hend : (size data_ <= ExpressionSolver.position_ st4)%nat).
    { rewrite Hsize. unfold st4. cbn [ExpressionSolver.position_]. lia. }
    rewrite (reaches_scan_end data_ _ st4 Hreach Hend)
      by (cbn [ExpressionSolver.position_ ExpressionSolver.initial]; lia).
    reflexivity. }
  split; [exact Hparse|].
  unfold ExpressionSolver.calc. rewrite Hparse. reflexivity.
Qed.

Lemma minus_after_open_bracket_is_binary_witness :
  ExpressionSolver.calc (String "(" (String "-" ("VII" +:+ ")")))
  = Throw MalformedExpression.
Proof. apply (minus_after_open_bracket_is_binary "VII"). reflexivity. Defined.

(** A [-] in front of an open bracket at the start of the text is detected
    as a sign and then forgotten: the line is read as if the minus were not
    there, so "-(...)" has the value of "(...)". *)
Theorem minus_before_bracket_is_dropped (first : item) (inner rest : ops) :
  item_ok false (Group first inner) -> ops_ok true rest ->
  ExpressionSolver.parse (String "-" (render_item (Group first inner) +:+ render_ops rest))
  = ExpressionSolver.parse (render_item (Group first inner) +:+ render_ops rest)
  /\ ExpressionSolver.calc (String "-" (render_item (Group first inner) +:+ render_ops rest))
     = ExpressionSolver.calc (render_item (Group first inner) +:+ render_ops rest).
Proof.
  intros Hgroup Hrest.
  assert (Hparse :
            ExpressionSolver.parse
              (String "-" (render_item (Group first inner) +:+ render_ops rest))
            = ExpressionSolver.parse (render_item (Group first inner) +:+ render_ops rest)).
  { rewrite (parse_grouped (Group first inner) rest Hgroup Hrest).
    unfold ExpressionSolver.parse.
    destruct render_grouped_valid as [Hvi Hvr].
    rewrite erase_spaces_valid
      by (cbn [string_forallb];
          rewrite string_forallb_app, (Hvi _ _ Hgroup), (Hvr _ _ Hrest); reflexivity).
    set (data_ := String "-" (render_item (Group first inner) +:+ render_ops rest)).
    assert (Hdrop0 : ExpressionSolver.drop 1 data_
                     = String "(" ((render_item first +:+ render_ops inner +:+ ")")
                                   +:+ render_ops rest)) by reflexivity.
    destruct (drop_nonempty _ _ _ _ Hdrop0) as (Hlt1 & Hchar1 & _).
    assert (Hunary : ExpressionSolver.is_unary data_ 0 = true).
    { apply is_unary_iff. split; [reflexivity|].
      split; [split; [exact Hlt1|left; exact Hchar1]|left; reflexivity]. }
    pose proof (step_sign_any data_ ExpressionSolver.initial eq_refl Hunary) as Hstep0.
    match type of Hstep0 with _ = Ok ?x => set (st0 := x) in * end.
    destruct grouped_scan as [Hitems Hops].
    assert (Hhead : ExpressionSolver.is_roman (char_at (render_ops rest) 0) = false).
    { rewrite <- (string_app_nil_r (render_ops rest)).
      exact (ops_head _ rest "" Hrest eq_refl). }
    destruct (Hitems (Group first inner) data_ st0 false (render_ops rest) Hgroup)
      as (st1 & Hreach1 & Hstack1 & Hout1 & Hdrop1 & Hafter1);
      [reflexivity|exact Hhead|discriminate
       |intros _; right; split; [cbn; lia|reflexivity]|].
    cbn [ExpressionSolver.stack ExpressionSolver.out ExpressionSolver.initial st0 app]
      in Hstack1, Hout1.
    destruct (Hops rest data_ st1 (P0 (tree_item (Group first inner))) [] [] true ""
                Hrest I (or_introl eq_refl))
      as (st2 & s2 & Hreach2 & Hok2 & Hstack2 & Hout2 & Hdrop2 & Htree2);
      [exact Hstack1|exact Hout1
       |rewrite string_app_nil_r; exact Hdrop1|reflexivity|exact Hafter1|].
    assert (Hreach : reaches data_ ExpressionSolver.initial st2).
    { eapply reaches_turn; [cbn; lia|exact Hstep0|].
      eapply reaches_trans; eassumption. }
    rewrite (reaches_scan_end data_ _ st2 Hreach (drop_empty_end _ _ Hdrop2))
      by (cbn [ExpressionSolver.position_ ExpressionSolver.initial]; lia).
    cbn [mbind outcome_bind]. rewrite Hstack2, Hout2, app_nil_r. cbn [app].
    rewrite (flush_pending s2 Hok2), Htree2. reflexivity. }
  split; [exact Hparse|]. unfold ExpressionSolver.calc. rewrite Hparse. reflexivity.
Qed.

Lemma minus_before_bracket_is_dropped_witness :
  ExpressionSolver.calc
    (String "-" (render_item (Group (Numeral (false, "V")) ONil)
                 +:+ render_ops (OCons "+" (Numeral (false, "I")) ONil)))
  = ExpressionSolver.calc
      (render_item (Group (Numeral (false, "V")) ONil)
       +:+ render_ops (OCons "+" (Numeral (false, "I")) ONil)).
Proof.
  apply (minus_before_bracket_is_dropped (Numeral (false, "V")) ONil
           (OCons "+" (Numeral (false, "I")) ONil)).
  - cbn. repeat split; discriminate.
  - cbn. repeat split; discriminate.
Defined.
